(** * Thailotto: the aggregation and merge pipeline of [script.js]

    A shallow embedding of the draw-file parser, the date selector, the
    merge engine, the candidate enumerator, the cache gate and the CSV
    export of the Thai lotto analyzer, with the properties its
    specification states about them. *)

From Stdlib Require Import ZArith Lia String Ascii Sorted.
From stdpp Require Import gmap list fin_maps.

Open Scope Z_scope.

(** ** JavaScript strings

    A JavaScript string is a sequence of 16-bit code units; [split],
    [slice], [trim] and [length] all work on code units. *)

Abbreviation jsstring := (list N).

(** A literal: every character of an ASCII literal is one code unit. *)
Definition js (s : string) : jsstring :=
  (fun a => N_of_ascii a) <$> list_ascii_of_string s.

Definition LF : N := 10%N.
Definition CR : N := 13%N.

(** The class [\s] of regular expressions, which is also what [trim]
    strips: WhiteSpace and LineTerminator of ECMA-262. *)
Definition isWhiteSpace (c : N) : bool :=
  ((c =? 9) || (c =? 10) || (c =? 11) || (c =? 12) || (c =? 13) ||
   (c =? 32) || (c =? 160) || (c =? 5760) ||
   ((8192 <=? c) && (c <=? 8202)) ||
   (c =? 8232) || (c =? 8233) || (c =? 8239) || (c =? 8287) ||
   (c =? 12288) || (c =? 65279))%N.

Fixpoint dropWhileWs (s : jsstring) : jsstring :=
  match s with
  | [] => []
  | c :: rest => if isWhiteSpace c then dropWhileWs rest else s
  end.

(** [s.trim()] *)
Definition trim (s : jsstring) : jsstring :=
  reverse (dropWhileWs (reverse (dropWhileWs s))).

(** [text.split(/\r?\n/)]: a line feed ends a piece, and takes one
    carriage return just before it along. *)
Fixpoint splitLines (text : jsstring) : list jsstring :=
  match text with
  | [] => [[]]
  | c :: rest =>
      let r := splitLines rest in
      if (c =? LF)%N then [] :: r
      else if ((c =? CR)%N && (match rest with c' :: _ => (c' =? LF)%N | [] => false end))
      then r
      else match r with
           | l :: ls => (c :: l) :: ls
           | [] => [[c]]
           end
  end.

(** [s.split(/\s+/)]: the pieces between maximal runs of white space,
    the empty pieces at either end included. *)
Fixpoint splitWs (s : jsstring) : list jsstring :=
  match s with
  | [] => [[]]
  | c :: rest =>
      if isWhiteSpace c then
        match rest with
        | c' :: _ => if isWhiteSpace c' then splitWs rest else [] :: splitWs rest
        | [] => [[]; []]
        end
      else match splitWs rest with
           | t :: ts => (c :: t) :: ts
           | [] => [[c]]
           end
  end.

(** [s.split(',')] *)
Fixpoint splitComma (s : jsstring) : list jsstring :=
  match s with
  | [] => [[]]
  | c :: rest =>
      if (c =? 44)%N then [] :: splitComma rest
      else match splitComma rest with
           | t :: ts => (c :: t) :: ts
           | [] => [[c]]
           end
  end.

(** [n.slice(-len)]: the last [len] code units, all of [n] when it is
    shorter. *)
Definition sliceLast (len : nat) (n : jsstring) : jsstring :=
  drop (length n - len) n.

(** [s.startsWith(p)] *)
Fixpoint startsWith (p s : jsstring) : bool :=
  match p, s with
  | [], _ => true
  | a :: p', b :: s' => (a =? b)%N && startsWith p' s'
  | _ :: _, [] => false
  end.

(** [l.join(sep)] *)
Fixpoint join (sep : jsstring) (l : list jsstring) : jsstring :=
  match l with
  | [] => []
  | [x] => x
  | x :: rest => x ++ sep ++ join sep rest
  end.

(** [arr.filter(Boolean)] on strings: the empty string is the only falsy
    one. *)
Definition nonEmpty (s : jsstring) : bool :=
  match s with [] => false | _ => true end.

(** ** Constants of the script *)

Definition PRIZE_LIST : list jsstring :=
  [js "FIRST"; js "SECOND"; js "THIRD"; js "FOURTH"; js "FIFTH";
   js "TWO"; js "THREE_FIRST"; js "THREE_LAST"; js "NEAR_FIRST"].

Definition DRAW_DAYS : list Z := [30; 31; 1; 2; 3; 14; 15; 16; 17].

Definition MAX_DATES_RECORD : nat := 50.

Definition CACHE_TTL_MS : Z := 24 * 60 * 60 * 1000.

(** [tag==='TWO' ? 2 : tag.startsWith('THREE') ? 3 : 6] *)
Definition fixedLen (tag : jsstring) : nat :=
  if decide (tag = js "TWO") then 2%nat
  else if startsWith (js "THREE") tag then 3%nat
  else 6%nat.

(** ** The realm the parser runs in

    [prizesAgg], [digitAgg] and [results] are created by [{}], so a
    lookup that finds no own property continues in [Object.prototype].
    The guard [if (!prizesAgg[tag]) return;] therefore lets through not
    only the nine categories but every tag that names a member of
    [Object.prototype], and what the parser then writes through such a
    tag lands in objects that outlive the call. The realm records what
    earlier calls have left there. *)

(** The function-valued members of [Object.prototype]. *)
Definition objectPrototypeMethods : list jsstring :=
  [js "constructor"; js "hasOwnProperty"; js "isPrototypeOf";
   js "propertyIsEnumerable"; js "toLocaleString"; js "toString";
   js "valueOf"; js "__defineGetter__"; js "__defineSetter__";
   js "__lookupGetter__"; js "__lookupSetter__"].

(** The accessor through which an object's prototype is read. *)
Definition protoAccessor : jsstring := js "__proto__".

Record Realm := {
  (** properties added to [Object.prototype]; every standard member has
      a name of seven code units or more, and the parser writes keys of
      at most six, so the two never meet *)
  objProto : gmap jsstring Z;
  (** properties added to the functions reached through a method name,
      as pairs (method name, key) *)
  fnOwn : gset (jsstring * jsstring)
}.

Definition freshRealm : Realm := {| objProto := ∅; fnOwn := ∅ |}.

(** What [prizesAgg[tag]] (and [digitAgg[tag]]) evaluates to. *)
Inductive holder :=
| HOwn            (** one of the nine own properties *)
| HProto          (** [Object.prototype] itself, through [__proto__] *)
| HFn             (** a built-in function inherited from it *)
| HPrim (v : Z)   (** a number an earlier write left on it *)
| HNone.          (** undefined *)

Definition holderOf (R : Realm) (tag : jsstring) : holder :=
  if decide (tag ∈ PRIZE_LIST) then HOwn
  else if decide (tag = protoAccessor) then HProto
  else if decide (tag ∈ objectPrototypeMethods) then HFn
  else match objProto R !! tag with
       | Some v => HPrim v
       | None => HNone
       end.

(** [!prizesAgg[tag]] *)
Definition falsy (h : holder) : bool :=
  match h with
  | HNone => true
  | HPrim v => (v =? 0)
  | _ => false
  end.

(** ** The aggregate of one file *)

Record Aggregate := {
  dateStr : jsstring;
  (** category -> value -> occurrences in the file *)
  prizesAgg : gmap jsstring (gmap jsstring Z);
  (** category -> one map per position, keyed by the code unit that
      [split('')] yields there *)
  digitAgg : gmap jsstring (list (gmap N Z));
  (** category -> the display string *)
  results : gmap jsstring jsstring
}.

(** ** Completions *)

Inductive completion (A : Type) :=
| Normal (a : A)
| ThrowTypeError.
Arguments Normal {A} a.
Arguments ThrowTypeError {A}.

(** The variables of one call of the parser, and the realm. *)
Record PState := {
  st_realm : Realm;
  st_prizesAgg : gmap jsstring (gmap jsstring Z);
  st_digitAgg : gmap jsstring (list (gmap N Z));
  st_results : gmap jsstring jsstring
}.

(** State and exception: a throw keeps the state, because what was
    written to the realm before it stays written. *)
Definition M (A : Type) : Type := PState -> completion A * PState.

#[export] Instance M_ret : MRet M := fun A a s => (Normal a, s).

#[export] Instance M_bind : MBind M := fun A B k m s =>
  match m s with
  | (Normal a, s') => k a s'
  | (ThrowTypeError, s') => (ThrowTypeError, s')
  end.

Definition throw {A} : M A := fun s => (ThrowTypeError, s).
Definition getState : M PState := fun s => (Normal s, s).
Definition putState (s : PState) : M unit := fun _ => (Normal tt, s).

(** [l.forEach(f)] *)
Fixpoint forEach {A} (f : A -> M unit) (l : list A) : M unit :=
  match l with
  | [] => mret tt
  | x :: rest => f x ;; forEach f rest
  end.

(** [l.forEach((d,i) => f d i)], from index [i] on *)
Fixpoint forEachIdx {A} (f : A -> nat -> M unit) (i : nat) (l : list A) : M unit :=
  match l with
  | [] => mret tt
  | x :: rest => f x i ;; forEachIdx f (S i) rest
  end.

(** ** The Record Parser: [parseTextToAggregate] *)

(** [String(i)], for an index below ten; a value has at most six code
    units, so no larger index is ever asked for. *)
Definition idxKey (i : nat) : jsstring := [(48 + N.of_nat i)%N].

(** [(x || 0) + 1], [x] a number or undefined. Counts are integers,
    and far below 2^53, where the numbers of JavaScript add exactly. *)
Definition bump (x : option Z) : Z := default 0 x + 1.

(** A read of [o[k]] on a fresh object [o] with own properties [own]:
    what is not found on the object is looked up on [Object.prototype]. *)
Definition readThrough {K} `{Countable K} (own : gmap K Z) (k : K)
    (inherited : option Z) : option Z :=
  match own !! k with
  | Some v => Some v
  | None => inherited
  end.

Definition withRealm (R : Realm) (s : PState) : PState :=
  {| st_realm := R; st_prizesAgg := st_prizesAgg s;
     st_digitAgg := st_digitAgg s; st_results := st_results s |}.

Definition withPrizesAgg (p : gmap jsstring (gmap jsstring Z)) (s : PState) : PState :=
  {| st_realm := st_realm s; st_prizesAgg := p;
     st_digitAgg := st_digitAgg s; st_results := st_results s |}.

Definition withDigitAgg (d : gmap jsstring (list (gmap N Z))) (s : PState) : PState :=
  {| st_realm := st_realm s; st_prizesAgg := st_prizesAgg s;
     st_digitAgg := d; st_results := st_results s |}.

Definition withResults (r : gmap jsstring jsstring) (s : PState) : PState :=
  {| st_realm := st_realm s; st_prizesAgg := st_prizesAgg s;
     st_digitAgg := st_digitAgg s; st_results := r |}.

(** [results[tag] = str]: the setter of [__proto__] ignores a string,
    any other name becomes an own property. *)
Definition setResult (tag str : jsstring) : M unit :=
  s ← getState;
  if decide (tag = protoAccessor) then mret tt
  else putState (withResults (<[tag := str]> (st_results s)) s).

(** *** A value under one of the nine categories *)

(** [prizesAgg[tag][val] = (prizesAgg[tag][val] || 0) + 1] *)
Definition countValue (tag val : jsstring) : M unit :=
  s ← getState;
  match st_prizesAgg s !! tag with
  | None => throw
  | Some m =>
      let x := readThrough m val (objProto (st_realm s) !! val) in
      putState (withPrizesAgg (<[tag := <[val := bump x]> m]> (st_prizesAgg s)) s)
  end.

(** [digitAgg[tag][i][d] = (digitAgg[tag][i][d] || 0) + 1]; reading a
    property of [digitAgg[tag][i]] when that is undefined throws. *)
Definition countDigit (tag : jsstring) (d : N) (i : nat) : M unit :=
  s ← getState;
  match st_digitAgg s !! tag with
  | None => throw
  | Some pods =>
      match pods !! i with
      | None => throw
      | Some dc =>
          let x := readThrough dc d (objProto (st_realm s) !! [d]) in
          putState (withDigitAgg (<[tag := <[i := <[d := bump x]> dc]> pods]> (st_digitAgg s)) s)
      end
  end.

(** *** A value under a tag that is no own property *)

(** [Object.prototype[val] = (Object.prototype[val] || 0) + 1] *)
Definition writeProto (val : jsstring) : M unit :=
  s ← getState;
  let R := st_realm s in
  putState (withRealm {| objProto := <[val := bump (objProto R !! val)]> (objProto R);
                    fnOwn := fnOwn R |} s).

(** [F[val] = (F[val] || 0) + 1] on a built-in function [F]: reading
    [caller] runs the throwing accessor of [Function.prototype]; [length]
    and [name] are not writable; anything else becomes an own property. *)
Definition writeFn (strict : bool) (tag val : jsstring) : M unit :=
  s ← getState;
  let R := st_realm s in
  if decide (val = js "caller") then throw
  else if decide (val = js "length" ∨ val = js "name")
       then (if strict then throw else mret tt)
       else putState (withRealm {| objProto := objProto R;
                              fnOwn := {[ (tag, val) ]} ∪ fnOwn R |} s).

(** A write to a property of a primitive: a TypeError in strict code,
    nothing otherwise. *)
Definition writePrimitive (strict : bool) : M unit :=
  if strict then throw else mret tt.

(** Is [h[i]] defined, for [h] what the tag stands for?  Functions and
    numbers inherit from [Object.prototype]. *)
Definition indexDefined (R : Realm) (h : holder) (tag : jsstring) (i : nat) : bool :=
  match h with
  | HFn => bool_decide ((tag, idxKey i) ∈ fnOwn R) || bool_decide (is_Some (objProto R !! idxKey i))
  | _ => bool_decide (is_Some (objProto R !! idxKey i))
  end.

(** [h[i][d] = (h[i][d] || 0) + 1] with [h[i]] a number or undefined *)
Definition touchDigit (strict : bool) (h : holder) (tag : jsstring)
    (d : N) (i : nat) : M unit :=
  s ← getState;
  if indexDefined (st_realm s) h tag i then writePrimitive strict else throw.

(** *** One value of a line: the body of [lastVals.forEach] *)

Definition recordVal (strict : bool) (h : holder) (tag val : jsstring) : M unit :=
  if nonEmpty val then
    match h with
    | HOwn => countValue tag val ;; forEachIdx (countDigit tag) 0 val
    | HProto => writeProto val ;; forEachIdx (touchDigit strict h tag) 0 val
    | HFn => writeFn strict tag val ;; forEachIdx (touchDigit strict h tag) 0 val
    | HPrim _ => writePrimitive strict ;; forEachIdx (touchDigit strict h tag) 0 val
    | HNone => throw
    end
  else mret tt.

(** *** One line: the body of [lines.slice(1).forEach] *)

Definition processLine (strict : bool) (line : jsstring) : M unit :=
  if nonEmpty (trim line) then
    let parts := splitWs (trim line) in
    let tag := hd [] parts in
    let nums := filter (fun n => nonEmpty n = true) (tl parts) in
    s ← getState;
    let h := holderOf (st_realm s) tag in
    if falsy h then mret tt
    else
      let len := fixedLen tag in
      let lastVals := sliceLast len <$> nums in
      setResult tag (join (js ", ") lastVals) ;;
      forEach (recordVal strict h tag) lastVals
  else mret tt.

(** *** The function *)

Definition initialState (R : Realm) : PState :=
  {| st_realm := R;
     st_prizesAgg := list_to_map ((fun p => (p, ∅)) <$> PRIZE_LIST);
     st_digitAgg := list_to_map ((fun p => (p, replicate (fixedLen p) ∅)) <$> PRIZE_LIST);
     st_results := ∅ |}.

(** The call [parseTextToAggregate(dateStr, text)] in realm [R]: its
    completion and the realm it leaves. [strict] tells whether the
    function is strict code (a module) or not (a classic script, the
    parser worker). *)
Definition parseTextToAggregate (strict : bool) (R : Realm)
    (date text : jsstring) : completion Aggregate * Realm :=
  let lines := splitLines text in
  match forEach (processLine strict) (drop 1 lines) (initialState R) with
  | (Normal _, s) =>
      (Normal {| dateStr := date; prizesAgg := st_prizesAgg s;
                 digitAgg := st_digitAgg s; results := st_results s |},
       st_realm s)
  | (ThrowTypeError, s) => (ThrowTypeError, st_realm s)
  end.

(** A text from its lines, each ended by a line feed but the last. *)
Definition unlines (l : list jsstring) : jsstring := join [LF] l.

(** *** Views of a line

    What [processLine] names [tag], [nums] and [lastVals], as functions
    of the line, for the statements below. *)

Definition lineTag (line : jsstring) : jsstring := hd [] (splitWs (trim line)).

Definition lineNums (line : jsstring) : list jsstring :=
  filter (fun n => nonEmpty n = true) (tl (splitWs (trim line))).

Definition lineVals (line : jsstring) : list jsstring :=
  sliceLast (fixedLen (lineTag line)) <$> lineNums line.

(** The lines after the header that are not blank. *)
Definition dataLines (text : jsstring) : list jsstring :=
  filter (fun l => nonEmpty (trim l) = true) (drop 1 (splitLines text)).

(** The lines of a category. *)
Definition linesOf (tag : jsstring) (lines : list jsstring) : list jsstring :=
  filter (fun l => lineTag l = tag) lines.

(** The specification's accepted values of a category: every value
    token of every line of that category, cut to its last L code units,
    in the order of the file. *)
Definition acceptedValues (tag : jsstring) (text : jsstring) : list jsstring :=
  concat (lineVals <$> linesOf tag (dataLines text)).

(** What the code keeps for display: the values of the last line of the
    category. *)
Definition displayedValues (tag : jsstring) (text : jsstring) : option (list jsstring) :=
  lineVals <$> last (linesOf tag (dataLines text)).

(** A member of [Object.prototype] by name. *)
Definition inheritedName (tag : jsstring) : Prop :=
  tag = protoAccessor \/ tag ∈ objectPrototypeMethods.

(** ** Dates

    A time value is a number of milliseconds. The script only ever
    builds dates from local date-times and only reads local fields, so
    the model keeps time values in local time: milliseconds since
    1970-01-01T00:00 local, which orders instants as UTC does in a zone
    whose offset does not change (Asia/Bangkok has none). An invalid
    date, whose time value is NaN, is [None]. *)

Definition msPerDay : Z := 86400000.

(** Day number of a civil date (month 1..12), 1970-01-01 being day 0. *)
Definition daysFromCivil (y m d : Z) : Z :=
  let y' := if m <=? 2 then y - 1 else y in
  let era := y' / 400 in
  let yoe := y' - era * 400 in
  let doy := (153 * (m + (if 2 <? m then -3 else 9)) + 2) / 5 + d - 1 in
  let doe := yoe * 365 + yoe / 4 - yoe / 100 + doy in
  era * 146097 + doe - 719468.

(** Civil date (year, month 1..12, day) of a day number. *)
Definition civilFromDays (z : Z) : Z * Z * Z :=
  let z' := z + 719468 in
  let era := z' / 146097 in
  let doe := z' - era * 146097 in
  let yoe := (doe - doe / 1460 + doe / 36524 - doe / 146096) / 365 in
  let y := yoe + era * 400 in
  let doy := doe - (365 * yoe + yoe / 4 - yoe / 100) in
  let mp := (5 * doy + 2) / 153 in
  let d := doy - (153 * mp + 2) / 5 + 1 in
  let m := if mp <? 10 then mp + 3 else mp - 9 in
  (if m <=? 2 then y + 1 else y, m, d).

(** [d.getFullYear()], [d.getMonth()] (from 0), [d.getDate()] *)
Definition getFullYear (t : Z) : Z := (civilFromDays (t / msPerDay)).1.1.
Definition getMonth (t : Z) : Z := (civilFromDays (t / msPerDay)).1.2 - 1.
Definition getDate (t : Z) : Z := (civilFromDays (t / msPerDay)).2.

(** MakeDay of ECMA-262: the month may lie outside 0..11 and carries
    into the year, the day may lie outside the month and carries on. *)
Definition makeDay (year month date : Z) : Z :=
  daysFromCivil (year + month / 12) (month mod 12 + 1) 1 + date - 1.

Definition makeDate (day time : Z) : Z := day * msPerDay + time.

(** [d.setFullYear(y)], [d.setMonth(m)], [d.setDate(n)] *)
Definition setFullYear (y : Z) (t : Z) : Z :=
  makeDate (makeDay y (getMonth t) (getDate t)) (t mod msPerDay).
Definition setMonth (m : Z) (t : Z) : Z :=
  makeDate (makeDay (getFullYear t) m (getDate t)) (t mod msPerDay).
Definition setDate (n : Z) (t : Z) : Z :=
  makeDate (makeDay (getFullYear t) (getMonth t) n) (t mod msPerDay).

(** [new Date('2006-12-30T00:00')] *)
Definition FIXED_START : Z := makeDate (daysFromCivil 2006 12 30) 0.

(** [a >= b] and [a <= b] on time values, false when one is NaN *)
Definition dateGe (a : option Z) (b : Z) : bool :=
  match a with Some t => b <=? t | None => false end.
Definition dateLe (a : option Z) (b : Z) : bool :=
  match a with Some t => t <=? b | None => false end.

(** Decimal digits of a number, most significant first; [fuel] bounds
    the number of digits. *)
Fixpoint decimalDigits (fuel : nat) (n : Z) (acc : jsstring) : jsstring :=
  match fuel with
  | O => acc
  | S fuel' =>
      let acc' := (48 + Z.to_N (n mod 10))%N :: acc in
      if n / 10 =? 0 then acc' else decimalDigits fuel' (n / 10) acc'
  end.

(** [n.toString()] for a natural number *)
Definition numToString (n : Z) : jsstring :=
  decimalDigits (S (Z.to_nat (Z.log2 n))) n [].

(** [s.padStart(2,'0')] *)
Definition padStart2 (s : jsstring) : jsstring :=
  replicate (2 - length s) 48%N ++ s.

(** [pad2 = n => n.toString().padStart(2,'0')] *)
Definition pad2 (n : Z) : jsstring := padStart2 (numToString n).

(** [`${y}-${pad2(m)}-${pad2(d)}`] *)
Definition dateString (y m d : Z) : jsstring :=
  numToString y ++ js "-" ++ pad2 m ++ js "-" ++ pad2 d.

(** ** Arrays, Sets and Maps of the script *)

(** The relative index of [Array.prototype.slice]. *)
Definition relIndex (len k : Z) : Z :=
  if k <? 0 then Z.max (len + k) 0 else Z.min k len.

(** [l.slice(start, stop)] *)
Definition slice {A} (l : list A) (start stop : Z) : list A :=
  let len := Z.of_nat (length l) in
  let k := relIndex len start in
  let e := relIndex len stop in
  take (Z.to_nat (e - k)) (drop (Z.to_nat k) l).

(** [l.slice(start)] *)
Definition sliceFrom {A} (l : list A) (start : Z) : list A :=
  slice l start (Z.of_nat (length l)).

(** A [Set] of strings: its elements in insertion order. *)
Definition setAdd (x : jsstring) (s : list jsstring) : list jsstring :=
  if decide (x ∈ s) then s else s ++ [x].

(** A [Map] with string keys: its entries in insertion order. *)
Fixpoint mapGet {V} (k : jsstring) (m : list (jsstring * V)) : option V :=
  match m with
  | [] => None
  | (k', v) :: rest => if decide (k' = k) then Some v else mapGet k rest
  end.

Definition mapHas {V} (k : jsstring) (m : list (jsstring * V)) : bool :=
  bool_decide (k ∈ m.*1).

(** [parseInt(input.value,10) || k]: the parsed number, [None] for NaN,
    replaced by [k] when it is falsy. *)
Definition orDefault (v : option Z) (k : Z) : Z :=
  match v with
  | Some n => if n =? 0 then k else n
  | None => k
  end.

(** ** The Date Selector: [computeSelectedDatesFromMode] *)

(** An entry of [dateMap]: [{ dateStr, date }]. *)
Record DateEntry := {
  de_dateStr : jsstring;
  de_date : option Z
}.

(** The controls of the page the selector reads. *)
Record Controls := {
  timeMode : jsstring;          (** [getTimeMode()] *)
  drawsValue : option Z;        (** [parseInt(drawsInput.value,10)] *)
  yearsValue : option Z;        (** [parseInt(yearsInput.value,10)] *)
  monthsValue : option Z;       (** [parseInt(monthsInput.value,10)] *)
  fixedStartChecked : bool      (** [fixedStartCB.checked] *)
}.

(** [xs.forEach(x => selectedDates.add(x.dateStr))] on the cleared set *)
Definition selectAll (xs : list DateEntry) : list jsstring :=
  foldl (fun sel x => setAdd (de_dateStr x) sel) [] xs.

Definition computeSelectedDatesFromMode (c : Controls) (now : Z)
    (perFileDates : list DateEntry) : list jsstring :=
  if decide (timeMode c = js "draws") then
    let N := orDefault (drawsValue c) 1 in
    let sl :=
      if fixedStartChecked c
      then slice (filter (fun x => dateGe (de_date x) FIXED_START = true) perFileDates) 0 N
      else sliceFrom perFileDates (- N) in
    selectAll sl
  else if decide (timeMode c = js "years") then
    let yrs := orDefault (yearsValue c) 0 in
    if fixedStartChecked c then
      let stop := if 0 <? yrs then setFullYear (getFullYear FIXED_START + yrs) FIXED_START
                  else FIXED_START in
      selectAll (filter (fun x => dateGe (de_date x) FIXED_START && dateLe (de_date x) stop = true)
                        perFileDates)
    else if 0 <? yrs then
      let cut := setFullYear (getFullYear now - yrs) now in
      selectAll (filter (fun x => dateGe (de_date x) cut = true) perFileDates)
    else selectAll perFileDates
  else if decide (timeMode c = js "months") then
    let mon := orDefault (monthsValue c) 0 in
    if fixedStartChecked c then
      let stop := if 0 <? mon then setMonth (getMonth FIXED_START + mon) FIXED_START
                  else FIXED_START in
      selectAll (filter (fun x => dateGe (de_date x) FIXED_START && dateLe (de_date x) stop = true)
                        perFileDates)
    else if 0 <? mon then
      let cut := setMonth (getMonth now - mon) now in
      selectAll (filter (fun x => dateGe (de_date x) cut = true) perFileDates)
    else selectAll perFileDates
  else selectAll perFileDates.

(** The specification's reading of a zero window under anchoring: every
    known date from the epoch on. *)
Definition epochForward (perFileDates : list DateEntry) : list jsstring :=
  selectAll (filter (fun x => dateGe (de_date x) FIXED_START = true) perFileDates).

(** ** The Candidate Enumerator: [buildCandidateUrls] *)

Record Candidate := {
  c_dateStr : jsstring;
  c_url : jsstring
}.

(** [{ dateStr, url: `lottonumbers/${dateStr}.txt` }] *)
Definition candidate (ds : jsstring) : Candidate :=
  {| c_dateStr := ds; c_url := js "lottonumbers/" ++ ds ++ js ".txt" |}.

(** The enumerator of the analyzer page ([script.js]): three nested
    loops over years, months and draw days. *)
Definition buildCandidateUrls (now : Z) : list Candidate :=
  y ← seqZ 2006 (getFullYear now - 2006 + 1);
  m ← seqZ 1 12;
  d ← DRAW_DAYS;
  if (y =? 2006) && (m =? 12) && (d <? 30) then []
  else [candidate (dateString y m d)].


(** ** The Merge Engine: [combineAggregatesForDates]

    The engine runs on the page, whose [Object.prototype] has its
    standard members only. A value that names one of them makes
    [bucket[val] || {...}] evaluate to that member, and reading
    [.dates.length] from it throws. *)

#[export] Instance completion_ret : MRet completion := fun A a => Normal a.

#[export] Instance completion_bind : MBind completion := fun A B k m =>
  match m with
  | Normal a => k a
  | ThrowTypeError => ThrowTypeError
  end.

(** A [for ... of] loop whose body may throw. *)
Fixpoint forOf {A S} (body : A -> S -> completion S) (l : list A) (s : S) : completion S :=
  match l with
  | [] => Normal s
  | x :: rest => s' ← body x s; forOf body rest s'
  end.

(** [{ count, dates }] *)
Record Bucket := {
  count : Z;
  dates : list jsstring
}.

(** The globals the engine writes. *)
Record Merged := {
  counts : gmap jsstring (gmap jsstring Bucket);
  digitCounts : gmap jsstring (list (gmap N Z));
  resultsByDate : gmap jsstring (gmap jsstring jsstring)
}.

Definition resetCounts : Merged :=
  {| counts := list_to_map ((fun p => (p, ∅)) <$> PRIZE_LIST);
     digitCounts := list_to_map ((fun p => (p, replicate (fixedLen p) ∅)) <$> PRIZE_LIST);
     resultsByDate := ∅ |}.

(** [bucket[val].count += cnt; if (bucket[val].dates.length <
    MAX_DATES_RECORD) bucket[val].dates.push(dateStr)] *)
Definition addTo (b : Bucket) (cnt : Z) (date : jsstring) : Bucket :=
  {| count := count b + cnt;
     dates := if bool_decide (length (dates b) < MAX_DATES_RECORD)%nat
              then dates b ++ [date] else dates b |}.

(** The body of [for (const [val, cnt] of Object.entries(prizeMap))] *)
Definition recordEntry (prize date : jsstring) (e : jsstring * Z) (g : Merged)
    : completion Merged :=
  let '(val, cnt) := e in
  match counts g !! prize with
  | None => ThrowTypeError
  | Some bucket =>
      match bucket !! val with
      | Some b =>
          Normal {| counts := <[prize := <[val := addTo b cnt date]> bucket]> (counts g);
                    digitCounts := digitCounts g; resultsByDate := resultsByDate g |}
      | None =>
          if decide (inheritedName val) then ThrowTypeError
          else
            Normal {| counts := <[prize := <[val := addTo {| count := 0; dates := [] |} cnt date]> bucket]> (counts g);
                      digitCounts := digitCounts g; resultsByDate := resultsByDate g |}
      end
  end.

(** [for (const [dig, c] of Object.entries(pod)) dest[dig] =
    (dest[dig]||0) + c] *)
Definition addPod (pod dest : gmap N Z) : gmap N Z :=
  foldl (fun acc e => <[e.1 := default 0 (acc !! e.1) + e.2]> acc) dest (map_to_list pod).

(** The body of [pods.forEach((pod,i) => ...)]: [dest] is read from
    only when the pod has an entry. *)
Definition mergePod (prize : jsstring) (ip : nat * gmap N Z) (g : Merged)
    : completion Merged :=
  let '(i, pod) := ip in
  if decide (pod = ∅) then Normal g
  else
    match digitCounts g !! prize with
    | None => ThrowTypeError
    | Some dests =>
        match dests !! i with
        | None => ThrowTypeError
        | Some dest =>
            Normal {| counts := counts g;
                      digitCounts := <[prize := <[i := addPod pod dest]> dests]> (digitCounts g);
                      resultsByDate := resultsByDate g |}
        end
    end.

(** The body of [for (const prize of PRIZE_LIST)] *)
Definition mergePrize (date : jsstring) (agg : Aggregate) (prize : jsstring) (g : Merged)
    : completion Merged :=
  let prizeMap := default ∅ (prizesAgg agg !! prize) in
  g' ← forOf (recordEntry prize date) (map_to_list prizeMap) g;
  let pods := default [] (digitAgg agg !! prize) in
  forOf (mergePod prize) (imap (fun i pod => (i, pod)) pods) g'.

(** [resultsByDate[dateStr] = agg.results || {}]; assigning through
    [__proto__] adds no own property. *)
Definition storeResults (date : jsstring) (agg : Aggregate) (g : Merged) : Merged :=
  if decide (date = protoAccessor) then g
  else {| counts := counts g; digitCounts := digitCounts g;
          resultsByDate := <[date := results agg]> (resultsByDate g) |}.

(** The body of [for (const dateStr of selectedDateStrs)] *)
Definition mergeDate (store : list (jsstring * Aggregate)) (date : jsstring) (g : Merged)
    : completion Merged :=
  match mapGet date store with
  | None => Normal g
  | Some agg =>
      g' ← forOf (mergePrize date agg) PRIZE_LIST g;
      Normal (storeResults date agg g')
  end.

Definition combineAggregatesForDates (selectedDateStrs : list jsstring)
    (perFileAggMapLocal : list (jsstring * Aggregate)) : completion Merged :=
  forOf (mergeDate perFileAggMapLocal) selectedDateStrs resetCounts.

(** The total the engine shows for a value: [counts[prize][val].count],
    nothing when the value has no bucket. *)
Definition bucketOf (g : Merged) (prize val : jsstring) : option Bucket :=
  counts g !! prize ≫= (fun bucket => bucket !! val).

Definition totalCount (g : Merged) (prize val : jsstring) : Z :=
  from_option count 0 (bucketOf g prize val).

Definition contributingDates (g : Merged) (prize val : jsstring) : list jsstring :=
  from_option dates [] (bucketOf g prize val).

(** The count of a value in the file of one date, and whether the file
    has it at all. *)
Definition fileCount (store : list (jsstring * Aggregate)) (prize val date : jsstring) : option Z :=
  mapGet date store ≫= (fun agg => prizesAgg agg !! prize ≫= (fun m => m !! val)).

(** The specification's total: the sum of the per-file counts over the
    selected dates. *)
Definition sumOfFileCounts (store : list (jsstring * Aggregate)) (prize val : jsstring)
    (selected : list jsstring) : Z :=
  foldr (fun date acc => default 0 (fileCount store prize val date) + acc) 0 selected.

(** The selected dates whose file has the value, in the order given. *)
Definition datesWith (store : list (jsstring * Aggregate)) (prize val : jsstring)
    (selected : list jsstring) : list jsstring :=
  filter (fun date => is_Some (fileCount store prize val date)) selected.

(** The invariant of the data model on one aggregate, as far as the
    engine relies on it: in each of the nine categories no value is
    longer than the category allows and there are no more positions
    than its length. *)
Definition wellFormed (agg : Aggregate) : Prop :=
  Forall (fun prize =>
            map_Forall (fun (val : jsstring) (_ : Z) => (length val <= fixedLen prize)%nat)
                       (default ∅ (prizesAgg agg !! prize)) /\
            (length (default [] (digitAgg agg !! prize)) <= fixedLen prize)%nat)
         PRIZE_LIST.

Definition wellFormedStore (store : list (jsstring * Aggregate)) : Prop :=
  Forall (fun e => wellFormed e.2) store.

(** What one selected date does to the bucket of a value. *)
Definition bucketStep (store : list (jsstring * Aggregate)) (prize val : jsstring)
    (b : option Bucket) (date : jsstring) : option Bucket :=
  match fileCount store prize val date with
  | Some cnt => Some (addTo (default {| count := 0; dates := [] |} b) cnt date)
  | None => b
  end.

(** The globals as [resetCounts] shapes them. *)
Definition mergedShape (g : Merged) : Prop :=
  forall prize, prize ∈ PRIZE_LIST ->
    is_Some (counts g !! prize) /\
    exists dests, digitCounts g !! prize = Some dests /\ length dests = fixedLen prize.

(** ** The Persistence Cache gate and the fetch plan:
       the head of [progressiveFetchAndProcess] *)

(** The blob [{ fetchedAt, data }] read back from IndexedDB; a field
    that is missing is [None], and [data] lists the own properties of
    the stored object in order. *)
Record CacheBlob := {
  fetchedAt : option Z;
  data : option (list (jsstring * Aggregate))
}.

(** Truthiness of a number or undefined. *)
Definition truthyNumber (v : option Z) : bool :=
  match v with
  | Some n => negb (n =? 0)
  | None => false
  end.

(** [cached && cached.fetchedAt && (Date.now() - cached.fetchedAt) <
    CACHE_TTL_MS && cached.data]: the data when the snapshot is taken,
    nothing when it is not. *)
Definition acceptedSnapshot (now : Z) (cached : option CacheBlob)
    : option (list (jsstring * Aggregate)) :=
  match cached with
  | None => None
  | Some c =>
      match fetchedAt c with
      | Some t => if truthyNumber (Some t) && (now - t <? CACHE_TTL_MS) then data c else None
      | None => None
      end
  end.

(** [perFileAggMap] after the gate: [new Map(Object.entries(cached.data))]
    or the map as it was. *)
Definition storeAfterGate (now : Z) (cached : option CacheBlob)
    (perFileAggMap : list (jsstring * Aggregate)) : list (jsstring * Aggregate) :=
  default perFileAggMap (acceptedSnapshot now cached).

(** Code-unit order on strings; on keys of one length made of digits and
    hyphens, as all candidate keys are, [localeCompare] is this order. *)
Fixpoint strLe (a b : jsstring) : bool :=
  match a, b with
  | [], _ => true
  | _ :: _, [] => false
  | x :: a', y :: b' => (x <? y)%N || ((x =? y)%N && strLe a' b')
  end.

(** A stable sort, as [Array.prototype.sort] is: insertion after the
    last element that is not greater. *)
Fixpoint insertBy {A} (le : A -> A -> bool) (x : A) (l : list A) : list A :=
  match l with
  | [] => [x]
  | y :: rest => if le y x then y :: insertBy le x rest else x :: l
  end.

Definition sortBy {A} (le : A -> A -> bool) (l : list A) : list A :=
  foldl (fun acc x => insertBy le x acc) [] l.

(** [candidates.sort((a,b)=> a.dateStr.localeCompare(b.dateStr))] *)
Definition sortCandidates (l : list Candidate) : list Candidate :=
  sortBy (fun a b => strLe (c_dateStr a) (c_dateStr b)) l.

(** [recentToFetch] and [olderToFetch] *)
Definition fetchPlan (recentLimit : Z) (candidates : list Candidate)
    (perFileAggMap : list (jsstring * Aggregate)) : list Candidate * list Candidate :=
  let total := Z.of_nat (length candidates) in
  let recent := sliceFrom candidates (Z.max 0 (total - recentLimit)) in
  let older := slice candidates 0 (Z.max 0 (total - recentLimit)) in
  (filter (fun x => mapHas (c_dateStr x) perFileAggMap = false) recent,
   filter (fun x => mapHas (c_dateStr x) perFileAggMap = false) older).

(** The requests [batchFetchWithProgress(urls, ...)] issues: its workers
    take the indices [0 .. urls.length - 1] one by one from the shared
    counter and call [fetch] once for each. *)
Definition batchRequests (urls : list Candidate) : list jsstring := c_url <$> urls.

(** The state of the page when [progressiveFetchAndProcess] starts: the
    module has just set [perFileAggMap = new Map()]. *)
Definition initialStore : list (jsstring * Aggregate) := [].

(** The store after the gate, and the requests of the two phases: those
    of [batchFetchWithProgress(recentToFetch, ...)] and those of
    [batchFetchWithProgress(olderToFetch, ...)], neither of which is
    called on an empty list. [Date.now()] and [fetchedAt] count the
    milliseconds of UTC, and the gate compares them as they are; the
    enumerator reads the local fields of [new Date()], whose local time
    is [now + zoneOffset]. *)
Definition progressivePlan (zoneOffset now : Z) (cached : option CacheBlob) (recentLimit : Z)
    : list (jsstring * Aggregate) * list jsstring :=
  let store := storeAfterGate now cached initialStore in
  let candidates := sortCandidates (buildCandidateUrls (now + zoneOffset)) in
  let '(recentToFetch, olderToFetch) := fetchPlan recentLimit candidates store in
  (store, batchRequests recentToFetch ++ batchRequests olderToFetch).

(** ** [dateMap] and the page of the CSV export *)

Definition isDigit (c : N) : bool := ((48 <=? c) && (c <=? 57))%N.

Definition digitsValue (s : jsstring) : Z :=
  foldl (fun acc c => acc * 10 + (Z.of_N c - 48)) 0 s.

Definition daysInMonth (y m : Z) : Z := makeDay y m 1 - makeDay y (m - 1) 1.

(** The time value of [new Date(d + 'T00:00')] for a key in the
    date-time string format, [YYYY-MM-DD] with a month and a day that
    exist. What an engine makes of any other string is left to it by
    ECMA-262; such a date is taken as invalid here. *)
Definition keyDate (d : jsstring) : option Z :=
  match d with
  | [y1; y2; y3; y4; h1; m1; m2; h2; d1; d2] =>
      let y := digitsValue [y1; y2; y3; y4] in
      let m := digitsValue [m1; m2] in
      let dd := digitsValue [d1; d2] in
      if forallb isDigit [y1; y2; y3; y4; m1; m2; d1; d2] &&
         (h1 =? 45)%N && (h2 =? 45)%N &&
         (1 <=? m) && (m <=? 12) && (1 <=? dd) && (dd <=? daysInMonth y m)
      then Some (makeDate (daysFromCivil y m dd) 0)
      else None
  | _ => None
  end.

(** [d => ({ dateStr: d, date: new Date(d + 'T00:00') })] *)
Definition entryOf (d : jsstring) : DateEntry :=
  {| de_dateStr := d; de_date := keyDate d |}.

(** [(a,b) => a.date - b.date] is not positive; a NaN counts as zero. *)
Definition dateNotAfter (a b : DateEntry) : bool :=
  match de_date a, de_date b with
  | Some x, Some y => x <=? y
  | _, _ => true
  end.

(** [Array.from(perFileAggMap.keys()).map(d => ({ dateStr: d, date: new
    Date(d + 'T00:00') })).sort((a,b)=> a.date - b.date)] *)
Definition buildDateMap {V} (perFileAggMap : list (jsstring * V)) : list DateEntry :=
  sortBy dateNotAfter
    (entryOf <$> perFileAggMap.*1).

Module CsvPage.


(** The body of the loop of the enumerator of the export page: one
    day. *)
Definition candidateOfDay (d : Z) : list Candidate :=
  let day := getDate d in
  if bool_decide (day ∈ DRAW_DAYS) then
    [candidate (numToString (getFullYear d) ++ js "-" ++
                padStart2 (numToString (getMonth d + 1)) ++ js "-" ++
                padStart2 (numToString day))]
  else [].

(** [for (let d = new Date(start); d <= end; d.setDate(d.getDate() + 1))] *)
Fixpoint daysLoop (fuel : nat) (d stop : Z) : list Candidate :=
  match fuel with
  | O => []
  | S fuel' =>
      if d <=? stop
      then candidateOfDay d ++ daysLoop fuel' (setDate (getDate d + 1) d) stop
      else []
  end.

(** The enumerator of the export page: day by day from the epoch to
    now. The loop makes one turn per day, so the number of days and
    one more is fuel enough. *)
Definition buildCandidateUrls (now : Z) : list Candidate :=
  daysLoop (Z.to_nat ((now - FIXED_START) / msPerDay + 2)) FIXED_START now.

(** [numbersStr.split(',').map(n => n.trim()).filter(n => n)] *)
Definition numbersOf (numbersStr : jsstring) : list jsstring :=
  filter (fun n => nonEmpty n = true) (trim <$> splitComma numbersStr).

(** The body of [for (const { dateStr } of dateMap)]: the lines one
    date adds. A prize that names a member of [Object.prototype] and
    no own property reads that member, which has no [split]. *)
Definition linesOfDate (prize : jsstring) (store : list (jsstring * Aggregate))
    (date : jsstring) : completion (list jsstring) :=
  match mapGet date store with
  | None => Normal []
  | Some agg =>
      match results agg !! prize with
      | Some numbersStr =>
          if nonEmpty numbersStr
          then Normal ((fun num => num ++ js "," ++ date) <$> numbersOf numbersStr)
          else Normal []
      | None => if decide (inheritedName prize) then ThrowTypeError else Normal []
      end
  end.

(** The [lines] array when the loop is over. *)
Definition csvLines (prize : jsstring) (store : list (jsstring * Aggregate))
    : completion (list jsstring) :=
  forOf (fun x lines => ls ← linesOfDate prize store (de_dateStr x); Normal (lines ++ ls))
        (buildDateMap store) [].

(** What the click on [showCsvBtn] does with the page. *)
Inductive outcome :=
| NothingChosen
| NoCachedData                       (** the alert *)
| Shown (content : jsstring).        (** [csvContent.textContent] *)

Definition showCsv (prize : jsstring) (cached : option CacheBlob)
    (perFileAggMap : list (jsstring * Aggregate)) : completion outcome :=
  if nonEmpty prize then
    let store := default perFileAggMap (cached ≫= data) in
    match store with
    | [] => Normal NoCachedData
    | _ =>
        lines ← csvLines prize store;
        match lines with
        | [] => Normal (Shown (js "No data available for this prize type."))
        | _ => Normal (Shown (join [LF] lines))
        end
    end
  else Normal NothingChosen.

(** The specification's lines: one per accepted value of the category
    in the file of each date, the dates ascending. *)
Definition expectedLines (prize : jsstring) (texts : jsstring -> jsstring)
    (store : list (jsstring * Aggregate)) : list jsstring :=
  d ← de_dateStr <$> buildDateMap store;
  (fun v => v ++ js "," ++ d) <$> acceptedValues prize (texts d).

(** What the code writes: one line per value of the last line of the
    category in the file of each date. *)
Definition displayedLines (prize : jsstring) (texts : jsstring -> jsstring)
    (store : list (jsstring * Aggregate)) : list jsstring :=
  d ← de_dateStr <$> buildDateMap store;
  (fun v => v ++ js "," ++ d) <$> default [] (displayedValues prize (texts d)).

End CsvPage.

(** ** Vocabulary of the proofs about the parser *)

(** A relation every run of [m] keeps between the state before and the
    state after, whether [m] returns or throws. *)
Definition preserves {A} (P : PState -> PState -> Prop) (m : M A) : Prop :=
  forall s, P s (m s).2.

(** The writes of the parser, as closure conditions on such a relation. *)
Definition closedPrizes (P : PState -> PState -> Prop) (tag val : jsstring) : Prop :=
  forall s m x, st_prizesAgg s !! tag = Some m ->
    P s (withPrizesAgg (<[tag := <[val := x]> m]> (st_prizesAgg s)) s).

Definition closedDigits (P : PState -> PState -> Prop) (tag : jsstring) : Prop :=
  forall d i s pods dc x, st_digitAgg s !! tag = Some pods -> pods !! i = Some dc ->
    P s (withDigitAgg (<[tag := <[i := <[d := x]> dc]> pods]> (st_digitAgg s)) s).

Definition closedRealm (P : PState -> PState -> Prop) : Prop :=
  forall s R, P s (withRealm R s).

Definition closedResults (P : PState -> PState -> Prop) (tag : jsstring) : Prop :=
  forall s str, P s (withResults (<[tag := str]> (st_results s)) s).

(** An invariant, as the relation of keeping it. *)
Definition keeps (I : PState -> Prop) : PState -> PState -> Prop :=
  fun s s' => I s -> I s'.

(** Every recorded value is the slice of a value token of a line of its
    category. *)
Definition fromToken (lines : list jsstring) (tag val : jsstring) : Prop :=
  exists line tok, line ∈ lines /\ nonEmpty (trim line) = true /\
    lineTag line = tag /\ tok ∈ lineNums line /\ val = sliceLast (fixedLen tag) tok.

Definition valuesFromTokens (lines : list jsstring) (s : PState) : Prop :=
  forall tag m val, st_prizesAgg s !! tag = Some m -> is_Some (m !! val) ->
    fromToken lines tag val.

(** The nine categories, each with its map of values and as many digit
    maps as its length. *)
Definition shaped (s : PState) : Prop :=
  (forall tag, is_Some (st_prizesAgg s !! tag) <-> tag ∈ PRIZE_LIST) /\
  (forall tag, is_Some (st_digitAgg s !! tag) <-> tag ∈ PRIZE_LIST) /\
  (forall tag pods, st_digitAgg s !! tag = Some pods -> length pods = fixedLen tag).

(** A line that is blank, or whose tag is a category, or whose tag the
    guard skips in realm [R]. *)
Definition plainLine (R : Realm) (line : jsstring) : Prop :=
  nonEmpty (trim line) = true ->
  holderOf R (lineTag line) = HOwn \/ falsy (holderOf R (lineTag line)) = true.

Definition settled (R : Realm) (s : PState) : Prop := shaped s /\ st_realm s = R.

(** The display strings are left as they are. *)
Definition sameResults : PState -> PState -> Prop :=
  fun s s' => st_results s' = st_results s.

(** What one line does to the display string of a category. *)
Definition displayStep (tag : jsstring) (acc : option jsstring) (line : jsstring)
    : option jsstring :=
  if bool_decide (nonEmpty (trim line) = true /\ lineTag line = tag)
  then Some (join (js ", ") (lineVals line))
  else acc.

(** ** Sample files *)

Definition sampleDate : jsstring := js "2020-01-16".

(** The file of the specification's example. *)
Definition sampleText : jsstring :=
  unlines [js "header"; js "FIRST 123456"; js "TWO 12 34"].

(** A value token shorter than its category's length. *)
Definition shortTokenText : jsstring := unlines [js "header"; js "TWO 5"].

(** A category on two lines. *)
Definition twoLineText : jsstring := unlines [js "header"; js "TWO 12"; js "TWO 34"].

(** Tags that name members of [Object.prototype]. *)
Definition constructorText : jsstring := unlines [js "header"; js "constructor 1"].
Definition protoZeroText : jsstring := unlines [js "header"; js "__proto__ 0"; js "TWO 0"].
Definition protoFiveText : jsstring := unlines [js "header"; js "__proto__ 5"].

(** The count the aggregate of a completed call has for a value. *)
Definition countIn (c : completion Aggregate * Realm) (tag val : jsstring) : option Z :=
  match c.1 with
  | Normal agg => prizesAgg agg !! tag ≫= (fun m => m !! val)
  | ThrowTypeError => None
  end.

(** A time value from a civil date and a time of day. *)
Definition localTime (y m d ms : Z) : Z := makeDate (daysFromCivil y m d) ms.

(** Two known draws: the epoch's and the next. *)
Definition twoDraws : list DateEntry := [entryOf (js "2006-12-30"); entryOf (js "2007-01-16")].

Definition anchoredControls (mode : jsstring) (window : option Z) : Controls :=
  {| timeMode := mode; drawsValue := Some 5; yearsValue := window;
     monthsValue := window; fixedStartChecked := true |}.

(** Noon of 2020-01-16. *)
Definition sampleNow : Z := localTime 2020 1 16 43200000.

(** Three files with values in common, as the parser returns them. *)
Definition aggregateOf (date text : jsstring) : Aggregate :=
  match (parseTextToAggregate false freshRealm date text).1 with
  | Normal agg => agg
  | ThrowTypeError =>
      {| dateStr := date; prizesAgg := ∅; digitAgg := ∅; results := ∅ |}
  end.

Definition threeDates : list (jsstring * Aggregate) :=
  [(js "2020-01-16", aggregateOf (js "2020-01-16") (unlines [js "header"; js "TWO 12 34"]));
   (js "2020-02-01", aggregateOf (js "2020-02-01") (unlines [js "header"; js "TWO 12 12"]));
   (js "2020-02-16", aggregateOf (js "2020-02-16") (unlines [js "header"; js "TWO 34 56"]))].

(** A selection in an order of its own, with a date the store lacks. *)
Definition threeSelected : list jsstring :=
  [js "2020-02-16"; js "2020-03-01"; js "2020-01-16"; js "2020-02-01"].

(** The specification's reading of a loaded snapshot at time [now]:
    taken, with its data, when it has a timestamp (a number that is not
    zero: the code tests the field for truthiness) within 24 hours of
    now; not taken when there is none or its timestamp is more than 24
    hours old. *)
Inductive snapshotState (now : Z) : option CacheBlob -> option (list (jsstring * Aggregate)) -> Prop :=
| snapshot_fresh t snapshot :
    t <> 0 -> Z.abs (now - t) < CACHE_TTL_MS ->
    snapshotState now (Some {| fetchedAt := Some t; data := Some snapshot |}) (Some snapshot)
| snapshot_absent :
    snapshotState now None None
| snapshot_old t d :
    CACHE_TTL_MS < now - t ->
    snapshotState now (Some {| fetchedAt := Some t; data := d |}) None.

(** The offset of Asia/Bangkok, seven hours, and the instant whose
    local time there is [sampleNow]. *)
Definition bangkokOffset : Z := 25200000.
Definition sampleInstant : Z := sampleNow - bangkokOffset.

(** A snapshot taken an hour before [sampleInstant]. *)
Definition hourOldCache : option CacheBlob :=
  Some {| fetchedAt := Some (sampleInstant - 3600000); data := Some threeDates |}.

(** Ascending dates, all of them valid. *)
Definition dateBefore (a b : DateEntry) : Prop :=
  exists x y, de_date a = Some x /\ de_date b = Some y /\ x <= y.

(** No white space, no comma. *)
Definition noWhiteSpace (s : jsstring) : Prop := Forall (fun c => isWhiteSpace c = false) s.
Definition noComma (s : jsstring) : Prop := Forall (fun c => c <> 44%N) s.

(** A store of one date whose file has [TWO] on two lines. *)
Definition twoLineStore : list (jsstring * Aggregate) :=
  [(sampleDate, aggregateOf sampleDate twoLineText)].

(** The files behind [threeDates]. *)
Definition threeTexts (d : jsstring) : jsstring :=
  if decide (d = js "2020-01-16") then unlines [js "header"; js "TWO 12 34"]
  else if decide (d = js "2020-02-01") then unlines [js "header"; js "TWO 12 12"]
  else unlines [js "header"; js "TWO 34 56"].

(** The local midnights from the epoch to now. *)
Definition midnightsUntil (now : Z) : list Z :=
  (fun k => FIXED_START + Z.of_nat k * msPerDay) <$>
    seq 0 (Z.to_nat ((now - FIXED_START) / msPerDay + 1)).

(** Sixty dates, every file with the value "12" under [TWO]. *)
Definition sixtyKeys : list jsstring :=
  (fun i => dateString (2010 + Z.of_nat i) 1 16) <$> seq 0 60.

Definition sixtyDates : list (jsstring * Aggregate) :=
  (fun d => (d, aggregateOf d (unlines [js "header"; js "TWO 12"]))) <$> sixtyKeys.

(** The count of a digit at a position in the aggregate of a completed
    call. *)
Definition digitIn (c : completion Aggregate * Realm) (tag : jsstring) (i : nat) (d : N)
    : option Z :=
  match c.1 with
  | Normal agg => digitAgg agg !! tag ≫= (fun pods => pods !! i ≫= (fun dc => dc !! d))
  | ThrowTypeError => None
  end.

(** A store of one date whose file has a value with a comma in it. *)
Definition commaStore : list (jsstring * Aggregate) :=
  [(sampleDate, aggregateOf sampleDate (unlines [js "header"; js "FIRST 12,345"]))].

(** A decidable proposition about concrete data, settled by evaluating
    its decision procedure. *)
Ltac by_computation := apply (bool_decide_unpack _); vm_compute; exact I.

(** * The rest of the pipeline

    The functions around those above: what the parser counts, the
    callers of the merge engine, the fetch loop, the cache round trip
    and the tables. *)

(** ** What the parser counts *)

(** How often a value occurs in a list, and how often a code unit
    stands at a position of its values. *)
Definition occurrences (val : jsstring) (l : list jsstring) : Z :=
  Z.of_nat (length (filter (fun v => v = val) l)).

Definition occurrencesAt (i : nat) (d : N) (l : list jsstring) : Z :=
  Z.of_nat (length (filter (fun v : jsstring => v !! i = Some d) l)).

(** A counter that is written only when something is counted: no
    property for zero. *)
Definition recorded (n : Z) : option Z := if n =? 0 then None else Some n.

(** [agg.prizesAgg[tag][val]] and [agg.digitAgg[tag][i][d]] as own
    properties. *)
Definition countOf (agg : Aggregate) (tag val : jsstring) : option Z :=
  prizesAgg agg !! tag ≫= (fun m => m !! val).

Definition digitCountOf (agg : Aggregate) (tag : jsstring) (i : nat) (d : N) : option Z :=
  digitAgg agg !! tag ≫= (fun pods => pods !! i ≫= (fun dc => dc !! d)).

(** A file none of whose lines has a tag that names a member of
    [Object.prototype]. *)
Definition plainText (text : jsstring) : Prop :=
  Forall (fun line => ~ inheritedName (lineTag line)) (dataLines text).

(** The same on the variables of a running call. *)
Definition countIs (s : PState) (tag val : jsstring) : option Z :=
  st_prizesAgg s !! tag ≫= (fun m => m !! val).

Definition digitCountIs (s : PState) (tag : jsstring) (i : nat) (d : N) : option Z :=
  st_digitAgg s !! tag ≫= (fun pods => pods !! i ≫= (fun dc => dc !! d)).

(** A counter after [n] more increments. *)
Definition plus (o : option Z) (n : Z) : option Z :=
  if n =? 0 then o else Some (default 0 o + n).

(** The values of the lines of a category among the lines given. *)
Definition valuesIn (tag : jsstring) (lines : list jsstring) : list jsstring :=
  concat (lineVals <$> linesOf tag (filter (fun l => nonEmpty (trim l) = true) lines)).

(** ** What the merge engine holds beside the totals *)

(** [digitCounts[prize][i][d]] as an own property. *)
Definition digitTotalOf (g : Merged) (prize : jsstring) (i : nat) (d : N) : option Z :=
  digitCounts g !! prize ≫= (fun dests => dests !! i ≫= (fun dest => dest !! d)).

(** The counter of a code unit at a position in the file of one date. *)
Definition fileDigit (store : list (jsstring * Aggregate)) (prize : jsstring) (i : nat) (d : N)
    (date : jsstring) : option Z :=
  mapGet date store ≫= (fun agg => digitCountOf agg prize i d).

Definition sumOfFileDigits (store : list (jsstring * Aggregate)) (prize : jsstring) (i : nat)
    (d : N) (selected : list jsstring) : Z :=
  foldr (fun date acc => default 0 (fileDigit store prize i d date) + acc) 0 selected.

(** [dest[dig] = (dest[dig]||0) + c] when the pod has [dig], nothing
    when it has not. *)
Definition podStep (c old : option Z) : option Z :=
  match c with
  | Some c => Some (default 0 old + c)
  | None => old
  end.

(** ** The Date Selector: its controls and the calendar behind them *)

(** The controls with one window for years and months. *)
Definition windowControls (mode : jsstring) (window : option Z) (anchored : bool) : Controls :=
  {| timeMode := mode; drawsValue := None; yearsValue := window;
     monthsValue := window; fixedStartChecked := anchored |}.

(** The controls in draws mode. *)
Definition drawsControls (count : option Z) (anchored : bool) : Controls :=
  {| timeMode := js "draws"; drawsValue := count; yearsValue := None;
     monthsValue := None; fixedStartChecked := anchored |}.

(** The days before the first of March of year [y], counted from the
    first of March of year 0: the closed form of the era arithmetic of
    [daysFromCivil]. *)
Definition dayOfEra (y : Z) : Z := 365 * y + y / 4 - y / 100 + y / 400.

(** The entries draws mode keeps: the first [N] from the epoch on under
    anchoring, the last [N] otherwise; a negative [N] cuts from the
    other end. *)
Definition drawsKept (N : Z) (anchored : bool) (perFileDates : list DateEntry) : list DateEntry :=
  if anchored then
    let fromEpoch := filter (fun x => dateGe (de_date x) FIXED_START = true) perFileDates in
    if 0 <? N then take (Z.to_nat N) fromEpoch
    else take (length fromEpoch - Z.to_nat (- N)) fromEpoch
  else
    if 0 <? N then drop (length perFileDates - Z.to_nat N) perFileDates
    else drop (Z.to_nat (- N)) perFileDates.

(** ** The fetch loop: [batchFetchWithProgress]

    The loop starts [Math.min(concurrency, urls.length)] workers, which
    share the counter [idx]. A worker runs without interruption from
    one [await] to the next, so between two turns of the event loop
    each worker stands at an [await] or is past its [return], and a
    turn is the settlement of the promise one worker waits for. *)

Module BatchFetch.

(** Where a worker stands. *)
Inductive worker :=
| Fetching (i : nat)   (** at [await fetch(url)], with [urls[i]] *)
| Reading (i : nat)    (** at [await resp.text()], with [urls[i]] *)
| Returned.            (** past [return] *)

(** What settles the promise a worker waits for. *)
Inductive settlement :=
| Responded (ok : bool)     (** [fetch(url)] fulfilled, with [resp.ok] *)
| Text (text : jsstring)    (** [resp.text()] fulfilled *)
| Rejected.                 (** the awaited promise rejected *)

(** [{ dateStr, text }] *)
Record Fetched := {
  f_dateStr : jsstring;
  f_text : jsstring
}.

(** The variables of one call, with the calls of [fetch] and of
    [onProgress] made so far. *)
Record Batch := {
  idx : nat;
  workers : list worker;
  results : list Fetched;
  completed : nat;
  requests : list jsstring;
  reports : list (nat * nat * jsstring)
}.

Definition withWorkers (ws : list worker) (b : Batch) : Batch :=
  {| idx := idx b; workers := ws; results := results b; completed := completed b;
     requests := requests b; reports := reports b |}.

(** [const i = idx++; if (i >= urls.length) return; const { dateStr,
    url } = urls[i]; ... await fetch(url)]: where the worker gets to,
    and what that does to the shared variables. *)
Definition nextTurn (urls : list Candidate) (b : Batch) : worker * Batch :=
  match urls !! idx b with
  | Some c =>
      (Fetching (idx b),
       {| idx := S (idx b); workers := workers b; results := results b;
          completed := completed b; requests := requests b ++ [c_url c];
          reports := reports b |})
  | None =>
      (Returned,
       {| idx := S (idx b); workers := workers b; results := results b;
          completed := completed b; requests := requests b; reports := reports b |})
  end.

(** A call of [worker] by [Array.from({ length }, worker)]. *)
Definition spawn (urls : list Candidate) (b : Batch) : Batch :=
  let '(w, b') := nextTurn urls b in withWorkers (workers b' ++ [w]) b'.

(** [urls[i].dateStr], as the worker has destructured it. *)
Definition dateOf (urls : list Candidate) (i : nat) : jsstring :=
  from_option c_dateStr [] (urls !! i).

(** [finally { completed++; onProgress(completed, total, dateStr); }]
    and the next turn of [while (true)] for worker [k]. *)
Definition finishTurn (urls : list Candidate) (k i : nat) (b : Batch) : Batch :=
  let '(w, b') :=
    nextTurn urls
      {| idx := idx b; workers := workers b; results := results b;
         completed := S (completed b); requests := requests b;
         reports := reports b ++ [(S (completed b), length urls, dateOf urls i)] |} in
  withWorkers (<[k := w]> (workers b')) b'.

(** [results.push({ dateStr, text })] *)
Definition pushResult (r : Fetched) (b : Batch) : Batch :=
  {| idx := idx b; workers := workers b; results := results b ++ [r];
     completed := completed b; requests := requests b; reports := reports b |}.

(** One turn: the promise worker [k] waits for is settled. Nothing
    happens to a worker that does not wait for such a settlement. *)
Definition settle (urls : list Candidate) (k : nat) (s : settlement) (b : Batch)
    : option Batch :=
  match workers b !! k, s with
  | Some (Fetching i), Responded true => Some (withWorkers (<[k := Reading i]> (workers b)) b)
  | Some (Fetching i), Responded false => Some (finishTurn urls k i b)
  | Some (Fetching i), Rejected => Some (finishTurn urls k i b)
  | Some (Reading i), Text text =>
      Some (finishTurn urls k i (pushResult {| f_dateStr := dateOf urls i; f_text := text |} b))
  | Some (Reading i), Rejected => Some (finishTurn urls k i b)
  | _, _ => None
  end.

(** The state when [Array.from] has called the workers, each up to
    its first [await]. *)
Definition start (urls : list Candidate) (concurrency : Z) : Batch :=
  Nat.iter (Z.to_nat (Z.min concurrency (Z.of_nat (length urls)))) (spawn urls)
    {| idx := 0; workers := []; results := []; completed := 0; requests := [];
       reports := [] |}.

(** The turns of a run, each the worker and the settlement it gets. *)
Fixpoint run (urls : list Candidate) (turns : list (nat * settlement)) (b : Batch)
    : option Batch :=
  match turns with
  | [] => Some b
  | (k, s) :: rest =>
      match settle urls k s b with
      | Some b' => run urls rest b'
      | None => None
      end
  end.

(** [Promise.all(workers)] is fulfilled, and the function returns
    [results]. *)
Definition allReturned (b : Batch) : Prop := Forall (fun w => w = Returned) (workers b).

(** The entry of [urls] a worker has asked for and not got an answer
    to. *)
Definition awaited (w : worker) : option nat :=
  match w with
  | Fetching i | Reading i => Some i
  | Returned => None
  end.

Definition unanswered (b : Batch) : list nat := omap awaited (workers b).

(** How far a run is from its end: two turns for a file not yet asked
    for or asked for, one for a file being read. *)
Definition weight (w : worker) : nat :=
  match w with
  | Fetching _ => 2
  | Reading _ => 1
  | Returned => 0
  end.

Definition turnsLeft (urls : list Candidate) (b : Batch) : nat :=
  2 * (length urls - idx b) + foldr (fun w acc => weight w + acc)%nat 0%nat (workers b).

(** What holds between two turns. *)
Definition consistent (urls : list Candidate) (b : Batch) : Prop :=
  requests b = c_url <$> take (idx b) urls /\
  (completed b + length (unanswered b) = idx b `min` length urls)%nat /\
  (forall k, workers b !! k = Some Returned -> (length urls < idx b)%nat) /\
  (fun r => r.1.1) <$> reports b = seq 1 (completed b) /\
  exists served : list nat,
    NoDup (served ++ unanswered b) /\
    (forall i, i ∈ served ++ unanswered b -> (i < idx b `min` length urls)%nat) /\
    f_dateStr <$> results b = dateOf urls <$> served.

End BatchFetch.

(** ** Objects and Maps as the page fills them *)

(** An array index: the canonical decimal string of an integer below
    2^32 - 1. *)
Definition arrayIndex (k : jsstring) : option N :=
  match k with
  | [] => None
  | c :: rest =>
      if forallb isDigit k && (negb (c =? 48)%N || bool_decide (rest = [])) &&
         (length k <=? 10)%nat && (digitsValue k <? 4294967295)
      then Some (Z.to_N (digitsValue k))
      else None
  end.

(** An ordinary object with values of one kind, as the list of its own
    properties in the order [Object.entries] and structured cloning go
    through them: the array indices first, ascending, then the other
    keys in the order of their creation. *)
Fixpoint insertIndexed {V} (n : N) (k : jsstring) (v : V) (o : list (jsstring * V))
    : list (jsstring * V) :=
  match o with
  | [] => [(k, v)]
  | (k', v') :: rest =>
      match arrayIndex k' with
      | Some n' => if (n' <? n)%N then (k', v') :: insertIndexed n k v rest else (k, v) :: o
      | None => (k, v) :: o
      end
  end.

(** The value of an existing key replaced where it stands. *)
Fixpoint replaceValue {V} (k : jsstring) (v : V) (o : list (jsstring * V))
    : list (jsstring * V) :=
  match o with
  | [] => []
  | (k', v') :: rest =>
      if decide (k' = k) then (k, v) :: rest else (k', v') :: replaceValue k v rest
  end.

(** [o[k] = v] with [v] an object: through [__proto__] it sets the
    prototype and adds no property. *)
Definition objSet {V} (k : jsstring) (v : V) (o : list (jsstring * V)) : list (jsstring * V) :=
  if decide (k = protoAccessor) then o
  else if mapHas k o then replaceValue k v o
  else match arrayIndex k with
       | Some n => insertIndexed n k v o
       | None => o ++ [(k, v)]
       end.

(** [m.set(k, v)] on a Map *)
Definition mapSet {V} (k : jsstring) (v : V) (m : list (jsstring * V)) : list (jsstring * V) :=
  if mapHas k m then replaceValue k v m else m ++ [(k, v)].

(** [new Map(entries)] and
    [for (const [k,v] of entries) perFileAggMap.set(k, v)] *)
Definition setAll {V} (entries m : list (jsstring * V)) : list (jsstring * V) :=
  foldl (fun m e => mapSet e.1 e.2 m) m entries.

Definition newMap {V} (entries : list (jsstring * V)) : list (jsstring * V) := setAll entries [].

(** [const plainObj = {}; for (const [k,v] of perFileAggMap.entries())
    plainObj[k] = v;] *)
Definition toPlainObj {V} (perFileAggMap : list (jsstring * V)) : list (jsstring * V) :=
  foldl (fun o e => objSet e.1 e.2 o) [] perFileAggMap.

(** The blob of [saveCacheBlob({ fetchedAt: Date.now(), data: plainObj
    })]. *)
Definition savedBlob (now : Z) (perFileAggMap : list (jsstring * Aggregate)) : CacheBlob :=
  {| fetchedAt := Some now; data := Some (toPlainObj perFileAggMap) |}.

(** The store after the gate with the Map built as the code builds it:
    [perFileAggMap = new Map(Object.entries(cached.data))]. *)
Definition revivedStore (now : Z) (cached : option CacheBlob)
    (perFileAggMap : list (jsstring * Aggregate)) : list (jsstring * Aggregate) :=
  match acceptedSnapshot now cached with
  | Some entries => newMap entries
  | None => perFileAggMap
  end.

(** A key that is no array index and not [__proto__]: a property like
    any other. *)
Definition plainKey (k : jsstring) : Prop := arrayIndex k = None /\ k <> protoAccessor.

(** ** The parser worker and what the page does with its answers *)

(** The handler of [parseBatch]: [out[f.dateStr] =
    parseTextToAggregate(f.dateStr, f.text)] for each file, a file on
    which the parser throws being skipped. The worker's realm goes from
    one file to the next, and from one message to the next. *)
Definition parseFile (strict : bool) (st : list (jsstring * Aggregate) * Realm)
    (f : BatchFetch.Fetched) : list (jsstring * Aggregate) * Realm :=
  match parseTextToAggregate strict st.2 (BatchFetch.f_dateStr f) (BatchFetch.f_text f) with
  | (Normal agg, R') => (objSet (BatchFetch.f_dateStr f) agg st.1, R')
  | (ThrowTypeError, R') => (st.1, R')
  end.

Definition parseBatch (strict : bool) (R : Realm) (files : list BatchFetch.Fetched)
    : list (jsstring * Aggregate) * Realm :=
  foldl (parseFile strict) ([], R) files.

(** [for (let i=0; i<fetched.length; i+=groupSize) { const group =
    fetched.slice(i, i+groupSize); ... }]: the groups, one for each turn
    of the loop. *)
Fixpoint groupsOf {A} (fuel groupSize : nat) (l : list A) : list (list A) :=
  match fuel with
  | O => []
  | S fuel' =>
      match l with
      | [] => []
      | _ => take groupSize l :: groupsOf fuel' groupSize (drop groupSize l)
      end
  end.

(** One phase of the progressive load after its fetch: the fetched
    files go to the worker in groups of 50, and what comes back is set
    in [perFileAggMap]. *)
Definition parsePhase (strict : bool) (st : Realm * list (jsstring * Aggregate))
    (fetched : list BatchFetch.Fetched) : Realm * list (jsstring * Aggregate) :=
  foldl (fun st group =>
           let '(parsed, R') := parseBatch strict st.1 group in
           (R', setAll parsed st.2))
        st (groupsOf (length fetched) 50 fetched).

(** The entry of a date among the files fetched, its text, and how
    often a value occurs in it. *)
Definition fetchedOf (fetched : list BatchFetch.Fetched) (date : jsstring)
    : option BatchFetch.Fetched :=
  mapGet date ((fun f => (BatchFetch.f_dateStr f, f)) <$> fetched).

Definition fileOf (fetched : list BatchFetch.Fetched) (date : jsstring) : option jsstring :=
  BatchFetch.f_text <$> fetchedOf fetched date.

(** What the parser returns for a file parsed on its own, in a realm
    nothing has been written to. *)
Definition parsedAlone (strict : bool) (f : BatchFetch.Fetched) : Aggregate :=
  match (parseTextToAggregate strict freshRealm (BatchFetch.f_dateStr f)
                              (BatchFetch.f_text f)).1 with
  | Normal agg => agg
  | ThrowTypeError =>
      {| dateStr := BatchFetch.f_dateStr f; prizesAgg := ∅; digitAgg := ∅; results := ∅ |}
  end.

(** The entries the worker answers with for files it parses without a
    throw. *)
Definition parsedEntries (strict : bool) (fetched : list BatchFetch.Fetched)
    : list (jsstring * Aggregate) :=
  (fun f => (BatchFetch.f_dateStr f, parsedAlone strict f)) <$> fetched.

(** A file fetched under a plain key whose lines have plain tags. *)
Definition plainFile (f : BatchFetch.Fetched) : Prop :=
  plainKey (BatchFetch.f_dateStr f) /\ plainText (BatchFetch.f_text f).

Definition occurrencesIn (fetched : list BatchFetch.Fetched) (prize val date : jsstring) : Z :=
  match fileOf fetched date with
  | Some text => occurrences val (acceptedValues prize text)
  | None => 0
  end.

Definition occurrencesOver (fetched : list BatchFetch.Fetched) (prize val : jsstring)
    (selected : list jsstring) : Z :=
  foldr (fun date acc => occurrencesIn fetched prize val date + acc) 0 selected.

(** ** The tables: [renderTables] *)

(** [{count:0,dates:[]}] *)
Definition emptyBucket : Bucket := {| count := 0; dates := [] |}.

(** The rows of the table of [TWO] before the sort:
    [Array.from({length:100}, (_,i)=>[pad2(i), bucket[pad2(i)] ||
    {count:0,dates:[]}])]. *)
Definition twoData (bucket : gmap jsstring Bucket) : list (jsstring * Bucket) :=
  (fun i => (pad2 (Z.of_nat i), default emptyBucket (bucket !! pad2 (Z.of_nat i)))) <$> seq 0 100.

(** The comparator of [data.sort]: [showLeast ? (a[1].count -
    b[1].count) : (b[1].count - a[1].count)] is not positive. *)
Definition comesFirst (showLeast : bool) (a b : jsstring * Bucket) : bool :=
  if showLeast then count a.2 <=? count b.2 else count b.2 <=? count a.2.

(** [{ val, count: info.count || 0, dates: (info.dates||[]).slice(0,MAX) }]
    with [MAX = 11] *)
Record Row := {
  r_val : jsstring;
  r_count : Z;
  r_dates : list jsstring
}.

Definition rowOf (e : jsstring * Bucket) : Row :=
  {| r_val := e.1; r_count := count e.2; r_dates := slice (dates e.2) 0 11 |}.

(** [entries]: [data.sort(...)] then [data.slice(0,N).map(...)] with
    [N = parseInt(topNInput.value,10) || 5]; [data] is the table of
    [TWO] or [Object.entries(bucket)]. The sort is stable, as
    [Array.prototype.sort] has been since ECMAScript 2019. *)
Definition tableRows (showLeast : bool) (topN : option Z) (data : list (jsstring * Bucket))
    : list Row :=
  rowOf <$> slice (sortBy (comesFirst showLeast) data) 0 (orDefault topN 5).

(** [a] is before [b] in a stable sort by [le] of a list whose keys
    ascend: it ranks no lower, and on a tie it has the smaller key. *)
Definition before {A} (le : A -> A -> bool) (key : A -> nat) (a b : A) : Prop :=
  le a b = true /\ (le b a = true -> (key a < key b)%nat).

(** The number a row of the table of [TWO] stands for. *)
Definition twoNumber (e : jsstring * Bucket) : nat := Z.to_nat (digitsValue e.1).

(** The sum of a weight over the values of an object. *)
Definition mapSum {V} (w : V -> Z) (m : gmap jsstring V) : Z :=
  map_fold (fun _ v s => s + w v) 0 m.

(** [tot]: [Object.values(bucket).reduce((s,b)=>s+(b.count||0),0)]
    for [bucket = counts[prize] || {}]. *)
Definition drawings (g : Merged) (prize : jsstring) : Z :=
  map_fold (fun _ b s => s + count b) 0 (default ∅ (counts g !! prize)).

(** The occurrences an aggregate holds for a prize, all values taken
    together, and those of the file of a date. *)
Definition aggDrawings (agg : Aggregate) (prize : jsstring) : Z :=
  map_fold (fun _ cnt s => s + cnt) 0 (default ∅ (prizesAgg agg !! prize)).

Definition fileDrawings (store : list (jsstring * Aggregate)) (prize date : jsstring) : Z :=
  from_option (fun agg => aggDrawings agg prize) 0 (mapGet date store).

Definition sumOfFileDrawings (store : list (jsstring * Aggregate)) (prize : jsstring)
    (selected : list jsstring) : Z :=
  foldr (fun date acc => fileDrawings store prize date + acc) 0 selected.

(** ** The recent wins: the loop over the selected dates and the grid *)

(** [sorted]: [dateMap.filter(x => selectedDates.has(x.dateStr)).map(x
    => x.dateStr).sort((a,b) => b.localeCompare(a))]; the keys are
    date keys, which [localeCompare] orders as [strLe] does. *)
Definition latestFirst (dateMap : list DateEntry) (selectedDates : list jsstring)
    : list jsstring :=
  sortBy (fun a b => strLe b a)
         (de_dateStr <$> filter (fun x => de_dateStr x ∈ selectedDates) dateMap).

(** What one date adds to [individualWins]: [if (resultsByDate[dateStr]
    && resultsByDate[dateStr][prize]) { const nums =
    numsStr.split(',').map(n => n.trim()).filter(n => n);
    nums.forEach(num => individualWins.push({ date: dateStr, number:
    num })) }]. A prize that names a member of [Object.prototype] and
    no own property reads that member, which has no [split]. *)
Definition winsOfDate (prize : jsstring) (resultsByDate : gmap jsstring (gmap jsstring jsstring))
    (date : jsstring) : completion (list (jsstring * jsstring)) :=
  match resultsByDate !! date with
  | None => Normal []
  | Some dateEntry =>
      match dateEntry !! prize with
      | Some numsStr =>
          if nonEmpty numsStr
          then Normal ((fun num => (date, num)) <$> CsvPage.numbersOf numsStr)
          else Normal []
      | None => if decide (inheritedName prize) then ThrowTypeError else Normal []
      end
  end.

(** [for (const dateStr of sorted) { ...; if (individualWins.length >=
    50) break; }] *)
Fixpoint winsLoop (prize : jsstring) (resultsByDate : gmap jsstring (gmap jsstring jsstring))
    (sorted : list jsstring) (individualWins : list (jsstring * jsstring))
    : completion (list (jsstring * jsstring)) :=
  match sorted with
  | [] => Normal individualWins
  | date :: rest =>
      match winsOfDate prize resultsByDate date with
      | Normal added =>
          let wins := individualWins ++ added in
          if (50 <=? length wins)%nat then Normal wins
          else winsLoop prize resultsByDate rest wins
      | ThrowTypeError => ThrowTypeError
      end
  end.

(** The numbers a date shows for a prize that is a key of its entry or
    no member of [Object.prototype]. *)
Definition numbersOn (prize : jsstring) (resultsByDate : gmap jsstring (gmap jsstring jsstring))
    (date : jsstring) : list (jsstring * jsstring) :=
  match winsOfDate prize resultsByDate date with
  | Normal added => added
  | ThrowTypeError => []
  end.

(** The grid of five columns: [rows = Math.ceil(individualWins.length
    / cols)], which is the quotient of the length and four more by
    five, and the cell of [idx = row * cols + col] is filled when
    [idx < individualWins.length]. *)
Definition winsGrid {A} (individualWins : list A) : list (list (option A)) :=
  (fun row => (fun col => individualWins !! (row * 5 + col)%nat) <$> seq 0 5)
    <$> seq 0 ((length individualWins + 4) / 5)%nat.

(** * Properties

    ** The parser: what every run keeps *)

Section preserves.
Context (P : PState -> PState -> Prop) `{!PreOrder P}.

Lemma preserves_ret {A} (a : A) : preserves P (mret a).
Proof. intros s. simpl. reflexivity. Qed.

Lemma preserves_throw {A} : preserves P (@throw A).
Proof. intros s. simpl. reflexivity. Qed.

Lemma preserves_get : preserves P getState.
Proof. intros s. simpl. reflexivity. Qed.

Lemma preserves_bind {A B} (m : M A) (k : A -> M B) :
  preserves P m -> (forall a, preserves P (k a)) -> preserves P (m ≫= k).
Proof.
  intros Hm Hk s. unfold mbind, M_bind. specialize (Hm s).
  destruct (m s) as [[a|] s1]; simpl in *; [|done].
  etrans; [exact Hm|]. apply Hk.
Qed.

(** A body reading the state first. *)
Lemma preserves_get_bind {B} (k : PState -> M B) :
  (forall s, P s (k s s).2) -> preserves P (getState ≫= k).
Proof. intros Hk s. apply Hk. Qed.

Lemma preserves_forEach {A} (f : A -> M unit) (l : list A) :
  (forall x, x ∈ l -> preserves P (f x)) -> preserves P (forEach f l).
Proof.
  induction l as [|x l IH]; intros Hf; simpl; [apply preserves_ret|].
  apply preserves_bind; [apply Hf; left|].
  intros _. apply IH. intros y Hy. apply Hf. by right.
Qed.

Lemma preserves_forEachIdx {A} (f : A -> nat -> M unit) (l : list A) i :
  (forall x j, preserves P (f x j)) -> preserves P (forEachIdx f i l).
Proof.
  revert i. induction l as [|x l IH]; intros i Hf; simpl; [apply preserves_ret|].
  apply preserves_bind; [apply Hf|]. intros _. by apply IH.
Qed.

Lemma preserves_writePrimitive strict : preserves P (writePrimitive strict).
Proof. destruct strict; [apply preserves_throw|apply preserves_ret]. Qed.

Lemma preserves_touchDigit strict h tag d i : preserves P (touchDigit strict h tag d i).
Proof.
  apply preserves_get_bind. intros s.
  destruct (indexDefined _ _ _ _); [apply preserves_writePrimitive|apply preserves_throw].
Qed.

Lemma preserves_setResult tag str :
  (forall s, P s (withResults (<[tag := str]> (st_results s)) s)) ->
  preserves P (setResult tag str).
Proof.
  intros H. apply preserves_get_bind. intros s.
  case_decide; [apply preserves_ret|apply H].
Qed.

Lemma preserves_countValue tag val :
  (forall s m x, st_prizesAgg s !! tag = Some m ->
     P s (withPrizesAgg (<[tag := <[val := x]> m]> (st_prizesAgg s)) s)) ->
  preserves P (countValue tag val).
Proof.
  intros H. apply preserves_get_bind. intros s.
  destruct (st_prizesAgg s !! tag) as [m|] eqn:E; [|apply preserves_throw].
  by apply H.
Qed.

Lemma preserves_countDigit tag d i :
  (forall s pods dc x, st_digitAgg s !! tag = Some pods -> pods !! i = Some dc ->
     P s (withDigitAgg (<[tag := <[i := <[d := x]> dc]> pods]> (st_digitAgg s)) s)) ->
  preserves P (countDigit tag d i).
Proof.
  intros H. apply preserves_get_bind. intros s.
  destruct (st_digitAgg s !! tag) as [pods|] eqn:E; [|apply preserves_throw].
  destruct (pods !! i) as [dc|] eqn:E'; [|apply preserves_throw].
  by eapply H.
Qed.

Lemma preserves_writeProto val :
  (forall s x, P s (withRealm {| objProto := <[val := x]> (objProto (st_realm s));
                                 fnOwn := fnOwn (st_realm s) |} s)) ->
  preserves P (writeProto val).
Proof. intros H. apply preserves_get_bind. intros s. apply H. Qed.

Lemma preserves_writeFn strict tag val :
  (forall s, P s (withRealm {| objProto := objProto (st_realm s);
                               fnOwn := {[ (tag, val) ]} ∪ fnOwn (st_realm s) |} s)) ->
  preserves P (writeFn strict tag val).
Proof.
  intros H. apply preserves_get_bind. intros s.
  case_decide; [apply preserves_throw|].
  case_decide; [destruct strict; [apply preserves_throw|apply preserves_ret]|apply H].
Qed.

End preserves.

Section preserves_parser.
Context (P : PState -> PState -> Prop) `{!PreOrder P}.

Lemma preserves_recordVal strict h tag val :
  closedPrizes P tag val -> closedDigits P tag -> closedRealm P ->
  preserves P (recordVal strict h tag val).
Proof.
  intros HP HD HR. unfold recordVal.
  destruct (nonEmpty val); [|by apply (preserves_ret P)].
  destruct h.
  - apply (preserves_bind P); [by apply (preserves_countValue P)|]. intros _.
    apply (preserves_forEachIdx P). intros d j.
    apply (preserves_countDigit P). intros ? ? ? ?. apply HD.
  - apply (preserves_bind P); [apply (preserves_writeProto P); intros; apply HR|].
    intros _. apply (preserves_forEachIdx P). intros. by apply (preserves_touchDigit P).
  - apply (preserves_bind P); [apply (preserves_writeFn P); intros; apply HR|].
    intros _. apply (preserves_forEachIdx P). intros. by apply (preserves_touchDigit P).
  - apply (preserves_bind P); [by apply (preserves_writePrimitive P)|].
    intros _. apply (preserves_forEachIdx P). intros. by apply (preserves_touchDigit P).
  - by apply (preserves_throw P).
Qed.

Lemma preserves_processLine strict line :
  (nonEmpty (trim line) = true ->
     closedResults P (lineTag line) /\ closedDigits P (lineTag line) /\
     forall val, val ∈ lineVals line -> closedPrizes P (lineTag line) val) ->
  closedRealm P ->
  preserves P (processLine strict line).
Proof.
  intros H HR. unfold processLine.
  destruct (nonEmpty (trim line)) eqn:E; [|by apply (preserves_ret P)].
  destruct (H eq_refl) as (Hres & Hdig & Hval).
  apply (preserves_get_bind P). intros s.
  destruct (falsy _); [by apply (preserves_ret P)|].
  apply (preserves_bind P); [apply (preserves_setResult P); intros; apply Hres|].
  intros _. apply (preserves_forEach P). intros val Hin.
  apply preserves_recordVal; [apply Hval; exact Hin|exact Hdig|exact HR].
Qed.

End preserves_parser.

#[export] Instance keeps_preorder I : PreOrder (keeps I).
Proof. split; [intros s; unfold keeps; auto|intros a b c; unfold keeps; auto]. Qed.

Lemma processLine_valuesFromTokens strict lines line :
  line ∈ lines ->
  preserves (keeps (valuesFromTokens lines)) (processLine strict line).
Proof.
  intros Hin. apply (preserves_processLine _).
  - intros Hne. split; [|split].
    + intros s str I. exact I.
    + intros d i s pods dc x _ _ I. exact I.
    + intros val Hval s m x Hm I tag m' v. simpl.
      destruct (decide (lineTag line = tag)) as [<-|Hne'].
      * rewrite lookup_insert_eq. intros [= <-].
        destruct (decide (val = v)) as [<-|Hv].
        -- intros _. unfold lineVals in Hval.
           apply list_elem_of_fmap in Hval as (tok & -> & Htok).
           exists line, tok. done.
        -- rewrite lookup_insert_ne by done. intros Hv'. by eapply I.
      * rewrite lookup_insert_ne by done. apply I.
  - intros s R I. exact I.
Qed.

Lemma initial_prizes R tag m :
  st_prizesAgg (initialState R) !! tag = Some m -> m = ∅ /\ tag ∈ PRIZE_LIST.
Proof.
  unfold initialState. cbn [st_prizesAgg]. intros H.
  apply elem_of_list_to_map_2 in H.
  apply list_elem_of_fmap in H as (p & [= -> ->] & Hp). done.
Qed.

Lemma initial_digits R tag pods :
  st_digitAgg (initialState R) !! tag = Some pods ->
  pods = replicate (fixedLen tag) ∅ /\ tag ∈ PRIZE_LIST.
Proof.
  unfold initialState. cbn [st_digitAgg]. intros H.
  apply elem_of_list_to_map_2 in H.
  apply list_elem_of_fmap in H as (p & [= -> ->] & Hp). done.
Qed.

Lemma parse_inv strict R d text (I : PState -> Prop) :
  I (initialState R) ->
  (forall line, line ∈ drop 1 (splitLines text) -> preserves (keeps I) (processLine strict line)) ->
  forall agg R', parseTextToAggregate strict R d text = (Normal agg, R') ->
  exists s, I s /\ prizesAgg agg = st_prizesAgg s /\ digitAgg agg = st_digitAgg s /\
            results agg = st_results s /\ R' = st_realm s /\ dateStr agg = d.
Proof.
  intros H0 Hstep agg R'. unfold parseTextToAggregate.
  pose proof (preserves_forEach (keeps I) (processLine strict) _ Hstep (initialState R) H0) as HI.
  destruct (forEach _ _ _) as [[[]|] s]; [|done].
  intros [= <- <-]. exists s. done.
Qed.

Lemma length_sliceLast len n : length (sliceLast len n) = (length n `min` len)%nat.
Proof. unfold sliceLast. rewrite length_drop. lia. Qed.

Lemma nonEmpty_length (s : jsstring) : nonEmpty s = true <-> (1 <= length s)%nat.
Proof. destruct s; simpl; split; intros; try done; lia. Qed.

Lemma lineNums_nonEmpty line tok : tok ∈ lineNums line -> (1 <= length tok)%nat.
Proof.
  unfold lineNums. intros H. apply list_elem_of_filter in H as [H _].
  by apply nonEmpty_length.
Qed.

Lemma fixedLen_pos tag : (2 <= fixedLen tag <= 6)%nat.
Proof. unfold fixedLen. case_decide; [lia|]. destruct (startsWith _ _); lia. Qed.

Lemma fromToken_length lines tag val :
  fromToken lines tag val -> (1 <= length val <= fixedLen tag)%nat.
Proof.
  intros (line & tok & _ & _ & _ & Htok & ->).
  rewrite length_sliceLast. apply lineNums_nonEmpty in Htok.
  pose proof (fixedLen_pos tag). lia.
Qed.

Lemma initial_shaped R : shaped (initialState R).
Proof.
  split; [|split].
  - intros tag. split.
    + intros [m Hm]. by apply initial_prizes in Hm as [_ ?].
    + intros Hin. unfold initialState. cbn [st_prizesAgg].
      apply elem_of_dom. rewrite dom_list_to_map_L.
      apply elem_of_list_to_set. rewrite <- list_fmap_compose.
      apply list_elem_of_fmap. by exists tag.
  - intros tag. split.
    + intros [m Hm]. by apply initial_digits in Hm as [_ ?].
    + intros Hin. unfold initialState. cbn [st_digitAgg].
      apply elem_of_dom. rewrite dom_list_to_map_L.
      apply elem_of_list_to_set. rewrite <- list_fmap_compose.
      apply list_elem_of_fmap. by exists tag.
  - intros tag pods Hp. apply initial_digits in Hp as [-> _].
    by rewrite length_replicate.
Qed.

Lemma shaped_insert_some {V} (m : gmap jsstring V) k v v' j :
  m !! k = Some v -> is_Some (<[k := v']> m !! j) <-> is_Some (m !! j).
Proof.
  intros Hk. destruct (decide (k = j)) as [<-|Hne].
  - rewrite lookup_insert_eq, Hk. split; eauto.
  - by rewrite lookup_insert_ne.
Qed.

Lemma shaped_withDigitAgg s tag pods i dc :
  st_digitAgg s !! tag = Some pods -> shaped s ->
  shaped (withDigitAgg (<[tag := <[i := dc]> pods]> (st_digitAgg s)) s).
Proof.
  intros Hp (I1 & I2 & I3). split; [exact I1|split].
  - intros t. simpl. rewrite (shaped_insert_some _ _ _ _ _ Hp). apply I2.
  - intros t pods'. simpl. destruct (decide (tag = t)) as [<-|Hne].
    + rewrite lookup_insert_eq. intros [= <-]. rewrite length_insert. by apply I3.
    + rewrite lookup_insert_ne by done. apply I3.
Qed.

Lemma shaped_withPrizesAgg s tag m m' :
  st_prizesAgg s !! tag = Some m -> shaped s ->
  shaped (withPrizesAgg (<[tag := m']> (st_prizesAgg s)) s).
Proof.
  intros Hm (I1 & I2 & I3). split; [|split; [exact I2|exact I3]].
  intros t. simpl. rewrite (shaped_insert_some _ _ _ _ _ Hm). apply I1.
Qed.

Lemma processLine_shaped strict line :
  preserves (keeps shaped) (processLine strict line).
Proof.
  apply (preserves_processLine _).
  - intros _. split; [|split].
    + intros s str I. exact I.
    + intros d i s pods dc x Hp Hi I. by apply shaped_withDigitAgg.
    + intros val _ s m x Hm I. by eapply shaped_withPrizesAgg.
  - intros s R I. exact I.
Qed.

Lemma countDigits_returns R tag val i s :
  settled R s -> tag ∈ PRIZE_LIST -> (i + length val <= fixedLen tag)%nat ->
  exists s', forEachIdx (countDigit tag) i val s = (Normal tt, s') /\ settled R s'.
Proof.
  revert i s. induction val as [|d val IH]; intros i s [Hs HR] Htag Hlen; simpl in *.
  - by exists s.
  - destruct Hs as (I1 & I2 & I3).
    destruct (proj2 (I2 tag) Htag) as [pods Hp].
    destruct (lookup_lt_is_Some_2 pods i) as [dc Hdc]; [rewrite (I3 _ _ Hp); lia|].
    unfold mbind, M_bind. unfold countDigit at 1.
    unfold mbind, M_bind, getState. rewrite Hp, Hdc. unfold putState.
    apply IH; [|done|lia]. split; [|done].
    by apply shaped_withDigitAgg.
Qed.

Lemma recordVal_returns strict R tag val s :
  settled R s -> tag ∈ PRIZE_LIST -> (length val <= fixedLen tag)%nat ->
  exists s', recordVal strict HOwn tag val s = (Normal tt, s') /\ settled R s'.
Proof.
  intros [Hs HR] Htag Hlen. unfold recordVal.
  destruct (nonEmpty val); [|by exists s].
  destruct (proj2 (proj1 Hs tag) Htag) as [m Hm].
  unfold mbind, M_bind. unfold countValue at 1.
  unfold mbind, M_bind, getState. rewrite Hm. unfold putState.
  apply (countDigits_returns R); [|done|simpl; lia].
  split; [|done]. by eapply shaped_withPrizesAgg.
Qed.

Lemma recordVals_returns strict R tag vals s :
  settled R s -> tag ∈ PRIZE_LIST ->
  (forall val, val ∈ vals -> (length val <= fixedLen tag)%nat) ->
  exists s', forEach (recordVal strict HOwn tag) vals s = (Normal tt, s') /\ settled R s'.
Proof.
  revert s. induction vals as [|v vals IH]; intros s Hs Htag Hlen; simpl.
  - by exists s.
  - destruct (recordVal_returns strict R tag v s Hs Htag) as (s1 & E & Hs1).
    { apply Hlen. left. }
    unfold mbind, M_bind. rewrite E. apply IH; [done|done|].
    intros val Hv. apply Hlen. by right.
Qed.

Lemma holderOf_own R tag : holderOf R tag = HOwn <-> tag ∈ PRIZE_LIST.
Proof.
  unfold holderOf. case_decide; [done|]. split; [|done].
  repeat case_decide; try done. by destruct (objProto R !! tag).
Qed.

Lemma processLine_returns strict R line s :
  settled R s -> plainLine R line ->
  exists s', processLine strict line s = (Normal tt, s') /\ settled R s'.
Proof.
  intros Hs Hplain. unfold processLine.
  destruct (nonEmpty (trim line)) eqn:E; [|by exists s].
  unfold mbind at 1, M_bind at 1, getState at 1.
  destruct Hs as [Hs HR]. rewrite HR.
  destruct (Hplain E) as [Hown|Hf]; fold (lineTag line) in *.
  - rewrite Hown. simpl falsy. cbv iota.
    apply holderOf_own in Hown.
    unfold mbind at 1, M_bind at 1. unfold setResult.
    unfold mbind at 1, M_bind at 1, getState at 1.
    assert (forall s0 : PState, settled R s0 ->
      exists s', forEach (recordVal strict HOwn (lineTag line))
        (sliceLast (fixedLen (lineTag line)) <$>
           filter (fun n => nonEmpty n = true) (tail (splitWs (trim line)))) s0
        = (Normal tt, s') /\ settled R s') as Hloop.
    { intros s0 Hs0. apply recordVals_returns; [done|done|].
      intros val Hv. apply list_elem_of_fmap in Hv as (tok & -> & _).
      rewrite length_sliceLast. lia. }
    case_decide; simpl; apply Hloop; done.
  - rewrite Hf. by exists s.
Qed.

(** ** The display strings *)

#[export] Instance sameResults_preorder : PreOrder sameResults.
Proof. split; [intros s; done|intros a b c; unfold sameResults; congruence]. Qed.

Lemma recordVals_sameResults strict h tag vals :
  preserves sameResults (forEach (recordVal strict h tag) vals).
Proof.
  apply (preserves_forEach _). intros val _.
  apply (preserves_recordVal _); [intros s m x _| intros d i s pods dc x _ _| intros s R]; done.
Qed.

Lemma not_inherited_prize tag : tag ∈ PRIZE_LIST -> tag <> protoAccessor.
Proof.
  intros Hin ->.
  assert (protoAccessor ∉ PRIZE_LIST) as H by (by_computation).
  done.
Qed.

Lemma setResult_run tag str s :
  setResult tag str s =
  (Normal tt, if decide (tag = protoAccessor) then s
              else withResults (<[tag := str]> (st_results s)) s).
Proof. unfold setResult, mbind, M_bind, getState. by case_decide. Qed.

Lemma processLine_run strict line s :
  processLine strict line s =
  if nonEmpty (trim line) then
    if falsy (holderOf (st_realm s) (lineTag line)) then (Normal tt, s)
    else forEach (recordVal strict (holderOf (st_realm s) (lineTag line)) (lineTag line))
           (lineVals line)
           (if decide (lineTag line = protoAccessor) then s
            else withResults (<[lineTag line := join (js ", ") (lineVals line)]> (st_results s)) s)
  else (Normal tt, s).
Proof.
  unfold processLine. destruct (nonEmpty (trim line)); [|done].
  unfold mbind at 1, M_bind at 1, getState at 1. fold (lineTag line).
  destruct (falsy _); [done|].
  unfold mbind at 1, M_bind at 1. rewrite setResult_run. done.
Qed.

Lemma processLine_result strict line tag s :
  tag ∈ PRIZE_LIST ->
  st_results (processLine strict line s).2 !! tag = displayStep tag (st_results s !! tag) line.
Proof.
  intros Htag. rewrite processLine_run. unfold displayStep.
  destruct (nonEmpty (trim line)) eqn:E.
  2:{ rewrite bool_decide_eq_false_2; [done|]. intros [? _]; done. }
  destruct (decide (lineTag line = tag)) as [Heq|Hne].
  - rewrite bool_decide_eq_true_2 by done.
    rewrite Heq. rewrite (proj2 (holderOf_own _ _) Htag). simpl.
    rewrite decide_False by (by apply not_inherited_prize).
    rewrite recordVals_sameResults. simpl. by rewrite lookup_insert_eq.
  - rewrite bool_decide_eq_false_2 by (intros [_ ?]; done).
    destruct (falsy _); [done|].
    rewrite recordVals_sameResults.
    case_decide; simpl; [done|]. by rewrite lookup_insert_ne.
Qed.

Lemma forEach_results strict tag lines s s' :
  tag ∈ PRIZE_LIST ->
  forEach (processLine strict) lines s = (Normal tt, s') ->
  st_results s' !! tag = foldl (displayStep tag) (st_results s !! tag) lines.
Proof.
  intros Htag. revert s. induction lines as [|line lines IH]; intros s; simpl.
  - by intros [= ->].
  - unfold mbind, M_bind.
    pose proof (processLine_result strict line tag s Htag) as Hl.
    destruct (processLine strict line s) as [[[]|] s1]; [|done].
    intros Hrest. rewrite (IH _ Hrest). simpl in Hl. by rewrite Hl.
Qed.

Lemma foldl_displayStep tag lines acc :
  foldl (displayStep tag) acc lines =
  match last (linesOf tag (filter (fun l => nonEmpty (trim l) = true) lines)) with
  | Some line => Some (join (js ", ") (lineVals line))
  | None => acc
  end.
Proof.
  unfold linesOf. rewrite list_filter_filter.
  revert acc. induction lines as [|line lines IH]; intros acc; [done|].
  simpl. rewrite IH. unfold displayStep.
  rewrite filter_cons. case_bool_decide as Hd.
  - rewrite decide_True by (destruct Hd; done).
    rewrite last_cons. by destruct (last _).
  - rewrite decide_False; [done|]. intros [? ?]. apply Hd. done.
Qed.

(** ** The parser: its results *)

Lemma parse_normal strict R d text agg R' :
  parseTextToAggregate strict R d text = (Normal agg, R') ->
  exists s, forEach (processLine strict) (drop 1 (splitLines text)) (initialState R)
              = (Normal tt, s) /\
            agg = {| dateStr := d; prizesAgg := st_prizesAgg s;
                     digitAgg := st_digitAgg s; results := st_results s |} /\
            R' = st_realm s.
Proof.
  unfold parseTextToAggregate.
  destruct (forEach _ _ _) as [[[]|] s]; [|done].
  intros [= <- <-]. by exists s.
Qed.

Lemma initial_valuesFromTokens lines R : valuesFromTokens lines (initialState R).
Proof.
  intros tag m val Hm [x Hx]. apply initial_prizes in Hm as [-> _].
  by rewrite lookup_empty in Hx.
Qed.

(** Whatever the realm and the mode, an aggregate the parser returns has
    the nine categories, each with as many digit maps as its length. *)
Lemma parser_shape strict R d text agg R' :
  parseTextToAggregate strict R d text = (Normal agg, R') ->
  (forall tag, is_Some (prizesAgg agg !! tag) <-> tag ∈ PRIZE_LIST) /\
  (forall tag, is_Some (digitAgg agg !! tag) <-> tag ∈ PRIZE_LIST) /\
  (forall tag pods, digitAgg agg !! tag = Some pods -> length pods = fixedLen tag).
Proof.
  intros H.
  destruct (parse_inv strict R d text shaped (initial_shaped R)
              (fun line _ => processLine_shaped strict line) agg R' H)
    as (s & Hs & -> & -> & _).
  exact Hs.
Qed.

(** On a text all of whose lines are plain the parser returns, and
    leaves the realm as it found it. *)
Lemma parser_returns_on_plain_text strict R d text :
  (forall line, line ∈ drop 1 (splitLines text) -> plainLine R line) ->
  exists agg, parseTextToAggregate strict R d text = (Normal agg, R).
Proof.
  intros Hplain. unfold parseTextToAggregate.
  assert (forall lines s, settled R s -> (forall line, line ∈ lines -> plainLine R line) ->
            exists s', forEach (processLine strict) lines s = (Normal tt, s') /\ settled R s')
    as Hloop.
  { induction lines as [|line lines IH]; intros s Hs Hl; simpl; [by exists s|].
    destruct (processLine_returns strict R line s Hs) as (s1 & E & Hs1); [apply Hl; left|].
    unfold mbind, M_bind. rewrite E. apply IH; [done|]. intros l Hin. apply Hl. by right. }
  destruct (Hloop (drop 1 (splitLines text)) (initialState R)) as (s & E & _ & HR).
  { split; [apply initial_shaped|done]. }
  { exact Hplain. }
  rewrite E, HR. eauto.
Qed.

(** In a realm nothing has been written to, a line is plain unless its
    tag names a member of [Object.prototype]. *)
Lemma plainLine_fresh line :
  ~ inheritedName (lineTag line) -> plainLine freshRealm line.
Proof.
  intros Hn _. unfold holderOf.
  case_decide; [by left|]. right.
  rewrite decide_False by (intros ?; apply Hn; by left).
  rewrite decide_False by (intros ?; apply Hn; by right).
  done.
Qed.

(** ** The parser: the claims *)

(** C2, as amended. Every value the Record Parser records under a
    category of fixed length L is the last L code units of a value token
    of a line of that category, or the whole token when that is
    shorter: its length is the smaller of the token's length and L, so
    at least 1 and at most L, and exactly L whenever the token has L
    code units or more. *)
Theorem parser_values_are_token_slices strict R d text agg R' tag m val n :
  parseTextToAggregate strict R d text = (Normal agg, R') ->
  prizesAgg agg !! tag = Some m -> m !! val = Some n ->
  exists line tok,
    line ∈ dataLines text /\ lineTag line = tag /\ tok ∈ lineNums line /\
    val = sliceLast (fixedLen tag) tok /\
    length val = (length tok `min` fixedLen tag)%nat /\
    (1 <= length val <= fixedLen tag)%nat.
Proof.
  intros H Hm Hval.
  destruct (parse_inv strict R d text (valuesFromTokens (drop 1 (splitLines text)))
              (initial_valuesFromTokens _ R)
              (fun line Hin => processLine_valuesFromTokens strict _ line Hin) agg R' H)
    as (s & Hs & Hp & _).
  rewrite Hp in Hm.
  destruct (Hs tag m val Hm (ex_intro _ n Hval)) as (line & tok & Hin & Hne & Htag & Htok & ->).
  exists line, tok. repeat split; try done.
  - unfold dataLines. apply list_elem_of_filter. done.
  - apply length_sliceLast.
  - rewrite length_sliceLast. apply lineNums_nonEmpty in Htok.
    pose proof (fixedLen_pos tag). lia.
  - rewrite length_sliceLast. lia.
Qed.

(** C2 at the specification's example: the value "12" of [TWO]. *)
Lemma parser_values_are_token_slices_witness :
  exists line tok,
    line ∈ dataLines sampleText /\ lineTag line = js "TWO" /\ tok ∈ lineNums line /\
    js "12" = sliceLast (fixedLen (js "TWO")) tok /\
    length (js "12") = (length tok `min` fixedLen (js "TWO"))%nat /\
    (1 <= length (js "12") <= fixedLen (js "TWO"))%nat.
Proof.
  eapply (parser_values_are_token_slices false freshRealm sampleDate sampleText);
    vm_compute; reflexivity.
Defined.

(** C2 as stated fails: a token shorter than the category's length is
    recorded as it is. The file [TWO 5] records the value "5", of length
    1, under the category of length 2. *)
Lemma parser_records_short_value :
  countIn (parseTextToAggregate false freshRealm sampleDate shortTokenText)
          (js "TWO") (js "5") = Some 1 /\
  length (js "5") <> fixedLen (js "TWO").
Proof. split; [vm_compute; reflexivity|vm_compute; lia]. Qed.

(** The display string of a category when the loop over the lines has
    run to its end. *)
Lemma display_after_run strict R tag lines s' :
  tag ∈ PRIZE_LIST ->
  forEach (processLine strict) lines (initialState R) = (Normal tt, s') ->
  st_results s' !! tag =
  (fun line => join (js ", ") (lineVals line)) <$>
    last (linesOf tag (filter (fun l => nonEmpty (trim l) = true) lines)).
Proof.
  intros Htag Hrun.
  rewrite (forEach_results strict tag _ _ _ Htag Hrun), foldl_displayStep.
  unfold initialState. cbn [st_results]. rewrite lookup_empty.
  by destruct (last _).
Qed.

(** C6, as amended. When the Record Parser returns, the display string
    of a category is the values of the last line of that category,
    cut to their length and joined by a comma and a space; a category
    with no line has none. *)
Theorem parser_display_is_last_line strict R d text agg R' tag :
  parseTextToAggregate strict R d text = (Normal agg, R') ->
  tag ∈ PRIZE_LIST ->
  results agg !! tag = join (js ", ") <$> displayedValues tag text.
Proof.
  intros H Htag.
  apply parse_normal in H as (s & Hrun & -> & _). cbn [results].
  rewrite (display_after_run strict R tag _ s Htag Hrun).
  unfold displayedValues, dataLines.
  by destruct (last _).
Qed.

(** C6 on the file with [TWO] on two lines. *)
Lemma parser_display_is_last_line_witness :
  exists agg R',
    parseTextToAggregate false freshRealm sampleDate twoLineText = (Normal agg, R') /\
    results agg !! js "TWO" = join (js ", ") <$> displayedValues (js "TWO") twoLineText.
Proof.
  eexists _, _. split; [vm_compute; reflexivity|].
  eapply (parser_display_is_last_line false freshRealm sampleDate twoLineText);
    [vm_compute; reflexivity|].
  by_computation.
Defined.

(** C6 as stated fails: with a category on two lines, the display string
    holds the values of the second line only, not all accepted values of
    the file. *)
Lemma parser_display_drops_earlier_lines :
  acceptedValues (js "TWO") twoLineText = [js "12"; js "34"] /\
  exists agg R',
    parseTextToAggregate false freshRealm sampleDate twoLineText = (Normal agg, R') /\
    results agg !! js "TWO" = Some (js "34") /\
    results agg !! js "TWO" <> Some (join (js ", ") (acceptedValues (js "TWO") twoLineText)) /\
    results agg !! js "TWO" <> Some (join (js ",") (acceptedValues (js "TWO") twoLineText)).
Proof.
  split; [vm_compute; reflexivity|].
  eexists _, _. split; [vm_compute; reflexivity|].
  split; [vm_compute; reflexivity|].
  split; vm_compute; intros [=].
Qed.

(** The example of the specification: a header, [FIRST 123456] and
    [TWO 12 34]. *)
Lemma parser_sample :
  let r := parseTextToAggregate false freshRealm sampleDate sampleText in
  countIn r (js "FIRST") (js "123456") = Some 1 /\
  countIn r (js "TWO") (js "12") = Some 1 /\
  countIn r (js "TWO") (js "34") = Some 1 /\
  digitIn r (js "TWO") 0 49 = Some 1 /\
  digitIn r (js "TWO") 0 51 = Some 1 /\
  digitIn r (js "TWO") 0 50 = None /\
  r.2 = freshRealm.
Proof. cbv zeta. repeat split; vm_compute; try reflexivity. Qed.

(** C9 fails on the code. In code that is not strict, parsing the file
    [__proto__ 0 / TWO 0] twice in a row gives the value "0" of [TWO]
    the count 2 the first time and 3 the second, although it occurs
    once. In either mode the parse of a file depends on what was parsed
    before it: the file [TWO 5] counts "5" once in a fresh realm and twice
    once the file [__proto__ 5] has been parsed, which throws but leaves
    its write behind. *)
Theorem parser_result_depends_on_earlier_parses :
  (let first := parseTextToAggregate false freshRealm sampleDate protoZeroText in
   let second := parseTextToAggregate false first.2 sampleDate protoZeroText in
   countIn first (js "TWO") (js "0") = Some 2 /\
   countIn second (js "TWO") (js "0") = Some 3) /\
  (forall strict,
     let before := parseTextToAggregate strict freshRealm sampleDate shortTokenText in
     let between := parseTextToAggregate strict freshRealm sampleDate protoFiveText in
     let after := parseTextToAggregate strict between.2 sampleDate shortTokenText in
     countIn before (js "TWO") (js "5") = Some 1 /\
     between.1 = ThrowTypeError /\
     countIn after (js "TWO") (js "5") = Some 2).
Proof.
  split; [split; vm_compute; reflexivity|].
  intros [|]; repeat split; vm_compute; reflexivity.
Qed.

(** C10 fails on the code. A line whose tag names a member of
    [Object.prototype] passes the guard for unknown tags, and with a
    value on it the parser throws a TypeError instead of returning an
    aggregate, in either mode. *)
Theorem parser_throws_on_inherited_tag :
  forall strict,
    (parseTextToAggregate strict freshRealm sampleDate constructorText).1 = ThrowTypeError.
Proof. intros [|]; vm_compute; reflexivity. Qed.

(** ** The Date Selector *)

(** Under anchoring, a window of zero years or months, or an unset one,
    leaves [end] at the epoch, and the filter keeps the dates that are
    the epoch itself. *)
Lemma anchored_zero_window_selects_epoch_only mode window now perFileDates :
  mode = js "years" \/ mode = js "months" ->
  window = None \/ window = Some 0 ->
  computeSelectedDatesFromMode (anchoredControls mode window) now perFileDates =
  selectAll (filter (fun x => de_date x = Some FIXED_START) perFileDates).
Proof.
  intros Hmode Hwin.
  assert (orDefault window 0 = 0) as Hz by (destruct Hwin as [->| ->]; done).
  assert (forall x : DateEntry,
            dateGe (de_date x) FIXED_START && dateLe (de_date x) FIXED_START = true <->
            de_date x = Some FIXED_START) as Hiff.
  { intros x. destruct (de_date x) as [t|]; simpl; [|done].
    rewrite andb_true_iff, !Z.leb_le. split; [intros [? ?]; f_equal; lia|intros [= ->]; lia]. }
  unfold computeSelectedDatesFromMode, anchoredControls. simpl.
  destruct Hmode as [-> | ->].
  - rewrite decide_False by (vm_compute; intros [=]).
    rewrite decide_True by done. rewrite Hz. simpl.
    f_equal. apply list_filter_iff. intros x. apply Hiff.
  - rewrite decide_False by (vm_compute; intros [=]).
    rewrite decide_False by (vm_compute; intros [=]).
    rewrite decide_True by done. rewrite Hz. simpl.
    f_equal. apply list_filter_iff. intros x. apply Hiff.
Qed.

(** C1 fails on the code. With anchoring and a window of zero years or
    months, or an unset one, the selector keeps the draw of the epoch
    day only: of the two known draws 2006-12-30 and 2007-01-16, both on
    or after the epoch, it selects the first alone. *)
Theorem selector_zero_window_keeps_epoch_day_only :
  epochForward twoDraws = [js "2006-12-30"; js "2007-01-16"] /\
  computeSelectedDatesFromMode (anchoredControls (js "years") (Some 0)) sampleNow twoDraws
    = [js "2006-12-30"] /\
  computeSelectedDatesFromMode (anchoredControls (js "years") None) sampleNow twoDraws
    = [js "2006-12-30"] /\
  computeSelectedDatesFromMode (anchoredControls (js "months") (Some 0)) sampleNow twoDraws
    = [js "2006-12-30"] /\
  computeSelectedDatesFromMode (anchoredControls (js "months") None) sampleNow twoDraws
    = [js "2006-12-30"].
Proof. repeat split; vm_compute; reflexivity. Qed.

(** ** The Candidate Enumerator *)

(** C4 fails on the code of the analyzer page. Its enumerator runs over
    whole years, from January 2006 to December of the current year, and
    over the nine day numbers in every month. Called at noon of
    2020-01-16 it lists 2020-12-31, which is later than the current
    date, 2006-01-30, which is before the epoch, and 2007-02-30, which
    is no calendar date. *)
Theorem enumerator_leaves_the_window :
  let keys := c_dateStr <$> buildCandidateUrls sampleNow in
  (js "2020-12-31" ∈ keys /\ keyDate (js "2020-12-31") = Some (localTime 2020 12 31 0) /\
     sampleNow < localTime 2020 12 31 0) /\
  (js "2006-01-30" ∈ keys /\ keyDate (js "2006-01-30") = Some (localTime 2006 1 30 0) /\
     localTime 2006 1 30 0 < FIXED_START) /\
  (js "2007-02-30" ∈ keys /\ keyDate (js "2007-02-30") = None).
Proof.
  cbv zeta. repeat split;
    try (by_computation);
    vm_compute; reflexivity.
Qed.

(** The enumerator of the export page walks the days instead: called
    at noon of 2007-01-20 it lists the nine days of the window and
    nothing else. *)
Lemma export_enumerator_at_2007_01_20 :
  c_dateStr <$> CsvPage.buildCandidateUrls (localTime 2007 1 20 43200000) =
  [js "2006-12-30"; js "2006-12-31"; js "2007-01-01"; js "2007-01-02"; js "2007-01-03";
   js "2007-01-14"; js "2007-01-15"; js "2007-01-16"; js "2007-01-17"].
Proof. vm_compute. reflexivity. Qed.

(** ** The Merge Engine *)

Lemma inheritedName_long val : inheritedName val -> (7 <= length val)%nat.
Proof.
  intros [-> | H]; [vm_compute; lia|].
  unfold objectPrototypeMethods in H.
  repeat (apply elem_of_cons in H as [-> | H]; [vm_compute; lia|]).
  by apply elem_of_nil in H.
Qed.

Lemma forOf_app {A S} (body : A -> S -> completion S) l1 l2 s :
  forOf body (l1 ++ l2) s = s' ← forOf body l1 s; forOf body l2 s'.
Proof.
  revert s. induction l1 as [|x l1 IH]; intros s; simpl; [done|].
  unfold mbind, completion_bind. destruct (body x s); [apply IH|done].
Qed.

Lemma bucketOf_insert_eq g prize val bucket b dc rs :
  bucketOf {| counts := <[prize := <[val := b]> bucket]> (counts g);
              digitCounts := dc; resultsByDate := rs |} prize val = Some b.
Proof. unfold bucketOf. simpl. rewrite lookup_insert_eq. simpl. by rewrite lookup_insert_eq. Qed.

Lemma bucketOf_insert_ne g prize val bucket b dc rs p v :
  counts g !! prize = Some bucket -> (p, v) <> (prize, val) ->
  bucketOf {| counts := <[prize := <[val := b]> bucket]> (counts g);
              digitCounts := dc; resultsByDate := rs |} p v = bucketOf g p v.
Proof.
  intros Hb Hne. unfold bucketOf. simpl.
  destruct (decide (prize = p)) as [<-|Hp].
  - rewrite lookup_insert_eq, Hb. simpl.
    rewrite lookup_insert_ne; [done|]. intros <-. done.
  - by rewrite lookup_insert_ne.
Qed.

(** One entry of a file's value map. *)
Lemma recordEntry_spec prize date val cnt g :
  is_Some (counts g !! prize) -> ~ inheritedName val ->
  exists g', recordEntry prize date (val, cnt) g = Normal g' /\
    digitCounts g' = digitCounts g /\ resultsByDate g' = resultsByDate g /\
    is_Some (counts g' !! prize) /\
    (forall p, is_Some (counts g' !! p) <-> is_Some (counts g !! p)) /\
    bucketOf g' prize val =
      Some (addTo (default {| count := 0; dates := [] |} (bucketOf g prize val)) cnt date) /\
    (forall p v, (p, v) <> (prize, val) -> bucketOf g' p v = bucketOf g p v).
Proof.
  intros [bucket Hb] Hn. unfold recordEntry. rewrite Hb.
  assert (forall b p, is_Some (<[prize := b]> (counts g) !! p) <-> is_Some (counts g !! p)) as Hdom.
  { intros b p. destruct (decide (prize = p)) as [<-|?].
    - rewrite lookup_insert_eq, Hb. split; eauto.
    - by rewrite lookup_insert_ne. }
  destruct (bucket !! val) as [b|] eqn:Hv.
  - eexists. split; [done|]. simpl. repeat split.
    + by rewrite lookup_insert_eq.
    + apply Hdom.
    + apply Hdom.
    + rewrite bucketOf_insert_eq. unfold bucketOf. rewrite Hb. simpl. by rewrite Hv.
    + intros p v Hne. by apply bucketOf_insert_ne.
  - rewrite decide_False by done.
    eexists. split; [done|]. simpl. repeat split.
    + by rewrite lookup_insert_eq.
    + apply Hdom.
    + apply Hdom.
    + rewrite bucketOf_insert_eq. unfold bucketOf. rewrite Hb. simpl. by rewrite Hv.
    + intros p v Hne. by apply bucketOf_insert_ne.
Qed.

(** All entries of a file's value map. *)
Lemma recordEntries_spec prize date (l : list (jsstring * Z)) g :
  NoDup l.*1 -> is_Some (counts g !! prize) ->
  (forall e, e ∈ l -> ~ inheritedName e.1) ->
  exists g', forOf (recordEntry prize date) l g = Normal g' /\
    digitCounts g' = digitCounts g /\ resultsByDate g' = resultsByDate g /\
    (forall p, is_Some (counts g' !! p) <-> is_Some (counts g !! p)) /\
    (forall val cnt, (val, cnt) ∈ l ->
       bucketOf g' prize val =
         Some (addTo (default {| count := 0; dates := [] |} (bucketOf g prize val)) cnt date)) /\
    (forall p v, (p = prize -> v ∉ l.*1) -> bucketOf g' p v = bucketOf g p v).
Proof.
  revert g. induction l as [|[v c] l IH]; intros g Hnd Hc Hn.
  - exists g. simpl. repeat split; try done. intros val cnt H. by apply elem_of_nil in H.
  - apply NoDup_cons in Hnd as [Hv Hnd]. simpl in Hv.
    destruct (recordEntry_spec prize date v c g Hc) as (g1 & E1 & Hd1 & Hr1 & Hc1 & Hdom1 & Hb1 & Ho1).
    { apply (Hn (v, c)). left. }
    destruct (IH g1 Hnd Hc1) as (g' & E & Hd & Hr & Hdom & Hin & Hout).
    { intros e He. apply Hn. by right. }
    exists g'. cbn [forOf]. unfold mbind, completion_bind. rewrite E1.
    split; [exact E|]. split; [congruence|]. split; [congruence|].
    split; [intros p; rewrite Hdom; apply Hdom1|]. split.
    + intros val cnt H. apply elem_of_cons in H as [[= -> ->]|H].
      * rewrite Hout by (intros _; exact Hv). exact Hb1.
      * rewrite (Hin _ _ H). rewrite Ho1; [done|].
        intros [= ->]. apply Hv. apply list_elem_of_fmap. by exists (v, cnt).
    + intros p w Hw. rewrite Hout.
      * apply Ho1. intros [= -> ->]. apply (Hw eq_refl). left.
      * intros ->. intros H. apply (Hw eq_refl). by right.
Qed.

(** The digit maps of one category. *)
Lemma mergePods_spec prize (l : list (nat * gmap N Z)) g :
  prize ∈ PRIZE_LIST -> mergedShape g ->
  (forall e, e ∈ l -> (e.1 < fixedLen prize)%nat) ->
  exists g', forOf (mergePod prize) l g = Normal g' /\
    counts g' = counts g /\ resultsByDate g' = resultsByDate g /\ mergedShape g'.
Proof.
  intros Hp. revert g. induction l as [|[i pod] l IH]; intros g Hg Hl.
  - by exists g.
  - assert (exists g1, mergePod prize (i, pod) g = Normal g1 /\
              counts g1 = counts g /\ resultsByDate g1 = resultsByDate g /\ mergedShape g1)
      as (g1 & E1 & Hc1 & Hr1 & Hg1).
    { unfold mergePod. case_decide; [by exists g|].
      destruct (Hg prize Hp) as (_ & dests & Hd & Hlen). rewrite Hd.
      destruct (lookup_lt_is_Some_2 dests i) as [dest Hdest].
      { rewrite Hlen. apply (Hl (i, pod)). left. }
      rewrite Hdest. eexists. split; [done|]. simpl. split; [done|]. split; [done|].
      intros p Hpin. destruct (Hg p Hpin) as (Hcp & dp & Hdp & Hlp). split; [exact Hcp|].
      simpl. destruct (decide (prize = p)) as [<-|Hne].
      - rewrite lookup_insert_eq. eexists. split; [done|].
        rewrite length_insert. congruence.
      - rewrite lookup_insert_ne by done. eauto. }
    destruct (IH g1 Hg1) as (g' & E & Hc & Hr & Hg').
    { intros e He. apply Hl. by right. }
    exists g'. cbn [forOf]. unfold mbind, completion_bind. rewrite E1.
    split; [exact E|]. split; [congruence|]. split; [congruence|exact Hg'].
Qed.

Lemma wellFormed_prize agg prize :
  wellFormed agg -> prize ∈ PRIZE_LIST ->
  (forall val cnt, default ∅ (prizesAgg agg !! prize) !! val = Some cnt -> ~ inheritedName val) /\
  (length (default [] (digitAgg agg !! prize)) <= fixedLen prize)%nat.
Proof.
  intros Hwf Hp. unfold wellFormed in Hwf. rewrite Forall_forall in Hwf.
  destruct (Hwf prize Hp) as [Hv Hd]. split; [|exact Hd].
  intros val cnt Hval Hin. apply inheritedName_long in Hin.
  specialize (Hv val cnt Hval). simpl in Hv.
  pose proof (fixedLen_pos prize). lia.
Qed.

(** One category of one file. *)
Lemma mergePrize_spec date agg prize g :
  wellFormed agg -> prize ∈ PRIZE_LIST -> mergedShape g ->
  exists g', mergePrize date agg prize g = Normal g' /\
    resultsByDate g' = resultsByDate g /\ mergedShape g' /\
    (forall val,
       bucketOf g' prize val =
         match default ∅ (prizesAgg agg !! prize) !! val with
         | Some cnt => Some (addTo (default {| count := 0; dates := [] |} (bucketOf g prize val)) cnt date)
         | None => bucketOf g prize val
         end) /\
    (forall p v, p <> prize -> bucketOf g' p v = bucketOf g p v).
Proof.
  intros Hwf Hp Hg. destruct (wellFormed_prize agg prize Hwf Hp) as [Hv Hd].
  set (prizeMap := default ∅ (prizesAgg agg !! prize)) in *.
  destruct (recordEntries_spec prize date (map_to_list prizeMap) g)
    as (g1 & E1 & Hd1 & Hr1 & Hdom1 & Hin1 & Hout1).
  { apply NoDup_fst_map_to_list. }
  { apply Hg, Hp. }
  { intros [val cnt] He. apply elem_of_map_to_list in He. simpl. by eapply Hv. }
  assert (mergedShape g1) as Hg1.
  { intros p Hpin. destruct (Hg p Hpin) as (Hcp & Hdp). split.
    - by apply Hdom1.
    - by rewrite Hd1. }
  destruct (mergePods_spec prize (imap (fun i pod => (i, pod)) (default [] (digitAgg agg !! prize))) g1 Hp Hg1)
    as (g' & E & Hc & Hr & Hg').
  { intros e He. apply elem_of_lookup_imap in He as (i & pod & -> & Hi).
    simpl. apply lookup_lt_Some in Hi. lia. }
  exists g'. unfold mergePrize. fold prizeMap. unfold mbind, completion_bind. rewrite E1.
  split; [exact E|]. split; [congruence|]. split; [exact Hg'|].
  assert (forall p v, bucketOf g' p v = bucketOf g1 p v) as Hsame.
  { intros p v. unfold bucketOf. by rewrite Hc. }
  split.
  - intros val. rewrite Hsame. destruct (prizeMap !! val) as [cnt|] eqn:Hval.
    + apply Hin1. by apply elem_of_map_to_list.
    + apply Hout1. intros _ Hin. apply list_elem_of_fmap in Hin as ([v c] & -> & Hin).
      apply elem_of_map_to_list in Hin. simpl in Hval. congruence.
  - intros p v Hne. rewrite Hsame. apply Hout1. intros ->. done.
Qed.

(** All categories of one file. *)
Lemma mergePrizes_spec date agg (l : list jsstring) g :
  wellFormed agg -> NoDup l -> (forall p, p ∈ l -> p ∈ PRIZE_LIST) -> mergedShape g ->
  exists g', forOf (mergePrize date agg) l g = Normal g' /\
    resultsByDate g' = resultsByDate g /\ mergedShape g' /\
    (forall prize val, prize ∈ l ->
       bucketOf g' prize val =
         match default ∅ (prizesAgg agg !! prize) !! val with
         | Some cnt => Some (addTo (default {| count := 0; dates := [] |} (bucketOf g prize val)) cnt date)
         | None => bucketOf g prize val
         end) /\
    (forall p v, p ∉ l -> bucketOf g' p v = bucketOf g p v).
Proof.
  intros Hwf. revert g. induction l as [|prize l IH]; intros g Hnd Hl Hg.
  - exists g. split; [done|]. split; [done|]. split; [done|]. split; [|done].
    intros p val Hp. by apply elem_of_nil in Hp.
  - apply NoDup_cons in Hnd as [Hnin Hnd].
    destruct (mergePrize_spec date agg prize g Hwf) as (g1 & E1 & Hr1 & Hg1 & Hin1 & Hout1);
      [apply Hl; left|exact Hg|].
    destruct (IH g1 Hnd) as (g' & E & Hr & Hg' & Hin & Hout);
      [intros p Hp; apply Hl; by right|exact Hg1|].
    exists g'. cbn [forOf]. unfold mbind, completion_bind. rewrite E1.
    split; [exact E|]. split; [congruence|]. split; [exact Hg'|]. split.
    + intros p val Hp. apply elem_of_cons in Hp as [->|Hp].
      * rewrite Hout by exact Hnin. apply Hin1.
      * rewrite (Hin _ _ Hp). rewrite Hout1; [done|]. intros ->. done.
    + intros p v Hp. rewrite Hout.
      * apply Hout1. intros ->. apply Hp. left.
      * intros H. apply Hp. by right.
Qed.

Lemma NoDup_PRIZE_LIST : NoDup PRIZE_LIST.
Proof. by_computation. Qed.

Lemma mapGet_elem_of {V} k (v : V) m : mapGet k m = Some v -> (k, v) ∈ m.
Proof.
  induction m as [|[k' v'] m IH]; simpl; [done|].
  case_decide as Hk; [intros [= ->]; subst; left|intros H; right; by apply IH].
Qed.

Lemma bucketOf_storeResults date agg g p v :
  bucketOf (storeResults date agg g) p v = bucketOf g p v.
Proof. unfold storeResults. by case_decide. Qed.

Lemma mergedShape_storeResults date agg g :
  mergedShape g -> mergedShape (storeResults date agg g).
Proof. unfold storeResults. by case_decide. Qed.

(** One selected date. *)
Lemma mergeDate_spec store date g :
  wellFormedStore store -> mergedShape g ->
  exists g', mergeDate store date g = Normal g' /\ mergedShape g' /\
    forall prize val, prize ∈ PRIZE_LIST ->
      bucketOf g' prize val = bucketStep store prize val (bucketOf g prize val) date.
Proof.
  intros Hwf Hg. unfold mergeDate, bucketStep, fileCount.
  destruct (mapGet date store) as [agg|] eqn:Hget; [|by exists g].
  assert (wellFormed agg) as Hagg.
  { unfold wellFormedStore in Hwf. rewrite Forall_forall in Hwf.
    apply mapGet_elem_of in Hget. apply (Hwf _ Hget). }
  destruct (mergePrizes_spec date agg PRIZE_LIST g Hagg NoDup_PRIZE_LIST (fun _ H => H) Hg)
    as (g1 & E1 & _ & Hg1 & Hin & _).
  exists (storeResults date agg g1). unfold mbind, completion_bind. rewrite E1.
  split; [done|]. split; [by apply mergedShape_storeResults|].
  intros prize val Hp. rewrite bucketOf_storeResults, (Hin _ _ Hp). simpl.
  by destruct (prizesAgg agg !! prize).
Qed.

Lemma resetCounts_shape : mergedShape resetCounts.
Proof.
  intros prize Hp. split.
  - unfold resetCounts. cbn [counts]. apply elem_of_dom. rewrite dom_list_to_map_L.
    apply elem_of_list_to_set. rewrite <- list_fmap_compose.
    apply list_elem_of_fmap. by exists prize.
  - exists (replicate (fixedLen prize) ∅). split; [|by rewrite length_replicate].
    unfold resetCounts. cbn [digitCounts]. apply elem_of_list_to_map_1.
    + by_computation.
    + apply list_elem_of_fmap. by exists prize.
Qed.

Lemma resetCounts_bucketOf prize val : bucketOf resetCounts prize val = None.
Proof.
  unfold bucketOf, resetCounts. cbn [counts].
  destruct (list_to_map _ !! prize) as [m|] eqn:Hm; [|done]. simpl.
  apply elem_of_list_to_map_2 in Hm. apply list_elem_of_fmap in Hm as (p & [= -> ->] & _).
  apply lookup_empty.
Qed.

(** All selected dates, from any state of the right shape. *)
Lemma mergeDates_spec store selected g :
  wellFormedStore store -> mergedShape g ->
  exists g', forOf (mergeDate store) selected g = Normal g' /\ mergedShape g' /\
    forall prize val, prize ∈ PRIZE_LIST ->
      bucketOf g' prize val = foldl (bucketStep store prize val) (bucketOf g prize val) selected.
Proof.
  intros Hwf. revert g. induction selected as [|date selected IH]; intros g Hg.
  - by exists g.
  - destruct (mergeDate_spec store date g Hwf Hg) as (g1 & E1 & Hg1 & Hb1).
    destruct (IH g1 Hg1) as (g' & E & Hg' & Hb).
    exists g'. cbn [forOf]. unfold mbind, completion_bind. rewrite E1.
    split; [exact E|]. split; [exact Hg'|].
    intros prize val Hp. rewrite (Hb _ _ Hp), (Hb1 _ _ Hp). done.
Qed.

(** The engine returns on a well-formed store, and the bucket of a value
    is what the selected dates, taken in order, make of no bucket. *)
Lemma combine_spec store selected :
  wellFormedStore store ->
  exists g, combineAggregatesForDates selected store = Normal g /\
    forall prize val, prize ∈ PRIZE_LIST ->
      bucketOf g prize val = foldl (bucketStep store prize val) None selected.
Proof.
  intros Hwf.
  destruct (mergeDates_spec store selected resetCounts Hwf resetCounts_shape) as (g & E & _ & Hb).
  exists g. split; [exact E|]. intros prize val Hp.
  by rewrite (Hb _ _ Hp), resetCounts_bucketOf.
Qed.

(** ** The arithmetic of a bucket *)

Lemma take_take_app {A} (n : nat) (X L : list A) :
  take n (take n X ++ L) = take n (X ++ L).
Proof.
  destruct (decide (n <= length X)%nat) as [Hle|Hgt].
  - rewrite !take_app_le by (rewrite ?length_take; lia).
    by rewrite take_take, Nat.min_id.
  - by rewrite (take_ge X) by lia.
Qed.

Lemma addTo_dates b cnt date :
  (length (dates b) <= MAX_DATES_RECORD)%nat ->
  dates (addTo b cnt date) = take MAX_DATES_RECORD (dates b ++ [date]).
Proof.
  intros Hlen. unfold addTo. simpl. case_bool_decide as Hlt.
  - rewrite take_ge; [done|]. rewrite length_app. simpl. lia.
  - rewrite take_app_le by lia. rewrite take_ge; [done|lia].
Qed.

Lemma foldl_bucketStep_some store prize val b selected :
  (length (dates b) <= MAX_DATES_RECORD)%nat ->
  foldl (bucketStep store prize val) (Some b) selected =
  Some {| count := count b + sumOfFileCounts store prize val selected;
          dates := take MAX_DATES_RECORD (dates b ++ datesWith store prize val selected) |}.
Proof.
  revert b. induction selected as [|date selected IH]; intros b Hlen; simpl.
  - unfold datesWith. simpl. rewrite app_nil_r, take_ge by done.
    rewrite Z.add_0_r. by destruct b.
  - unfold bucketStep at 2. unfold datesWith. rewrite filter_cons.
    destruct (fileCount store prize val date) as [cnt|] eqn:Hf.
    + rewrite decide_True by eauto. simpl.
      rewrite IH.
      * f_equal. f_equal; [simpl; lia|].
        rewrite addTo_dates by done. rewrite take_take_app.
        by rewrite <- app_assoc.
      * rewrite addTo_dates by done. rewrite length_take. lia.
    + rewrite decide_False by (intros [? ?]; done). simpl.
      rewrite IH by done. done.
Qed.

Lemma foldl_bucketStep_none store prize val selected :
  foldl (bucketStep store prize val) None selected =
  match datesWith store prize val selected with
  | [] => None
  | ds => Some {| count := sumOfFileCounts store prize val selected;
                  dates := take MAX_DATES_RECORD ds |}
  end.
Proof.
  induction selected as [|date selected IH]; simpl; [done|].
  unfold bucketStep at 2. unfold datesWith. rewrite filter_cons.
  destruct (fileCount store prize val date) as [cnt|] eqn:Hf.
  - rewrite decide_True by eauto. simpl.
    rewrite foldl_bucketStep_some by (simpl; unfold MAX_DATES_RECORD; lia).
    done.
  - rewrite decide_False by (intros [? ?]; done). simpl. exact IH.
Qed.

Lemma sumOfFileCounts_perm store prize val l1 l2 :
  l1 ≡ₚ l2 -> sumOfFileCounts store prize val l1 = sumOfFileCounts store prize val l2.
Proof.
  induction 1 as [|x l1 l2 _ IH|x y l|l1 l2 l3 _ IH1 _ IH2]; simpl; lia.
Qed.

Lemma totalCount_spec store selected g prize val :
  bucketOf g prize val = foldl (bucketStep store prize val) None selected ->
  totalCount g prize val = sumOfFileCounts store prize val selected /\
  contributingDates g prize val = take MAX_DATES_RECORD (datesWith store prize val selected).
Proof.
  intros Hb. unfold totalCount, contributingDates. rewrite Hb, foldl_bucketStep_none.
  destruct (datesWith store prize val selected) as [|d ds] eqn:Hd; simpl; [|done].
  split; [|done].
  (* no selected date has the value: every summand is zero *)
  clear Hb. induction selected as [|date selected IH]; simpl; [done|].
  unfold datesWith in Hd. rewrite filter_cons in Hd.
  destruct (fileCount store prize val date) as [cnt|] eqn:Hf.
  - rewrite decide_True in Hd by eauto. done.
  - rewrite decide_False in Hd by (intros [? ?]; done). simpl. by rewrite <- IH.
Qed.

(** ** The Merge Engine: the claims *)

#[export] Instance wellFormed_dec agg : Decision (wellFormed agg).
Proof. unfold wellFormed. apply _. Defined.

#[export] Instance wellFormedStore_dec store : Decision (wellFormedStore store).
Proof. unfold wellFormedStore. apply _. Defined.

(** What the parser returns is well-formed, whatever the realm. *)
Lemma parser_result_wellFormed strict R d text agg R' :
  parseTextToAggregate strict R d text = (Normal agg, R') -> wellFormed agg.
Proof.
  intros H. unfold wellFormed. apply Forall_forall. intros prize Hp.
  destruct (parser_shape strict R d text agg R' H) as (_ & _ & Hlen).
  destruct (parse_inv strict R d text (valuesFromTokens (drop 1 (splitLines text)))
              (initial_valuesFromTokens _ R)
              (fun line Hin => processLine_valuesFromTokens strict _ line Hin) agg R' H)
    as (s & Hs & Hpa & _).
  split.
  - intros val cnt Hval. simpl.
    destruct (prizesAgg agg !! prize) as [m|] eqn:Hm; simpl in Hval;
      [|by rewrite lookup_empty in Hval].
    rewrite Hpa in Hm.
    apply (fromToken_length (drop 1 (splitLines text))). by eapply Hs.
  - destruct (digitAgg agg !! prize) as [pods|] eqn:Hpods; simpl; [|lia].
    by rewrite (Hlen _ _ Hpods).
Qed.

(** C3. On a store of well-formed aggregates the Merge Engine returns,
    and for every category and value the total it holds is the sum of
    the counts the files of the selected dates have for the value, a
    date the store lacks or a file without the value adding nothing;
    the total is the same for every order of the selection. *)
Theorem merge_total_is_sum_of_file_counts store selected prize val :
  wellFormedStore store -> prize ∈ PRIZE_LIST ->
  exists g, combineAggregatesForDates selected store = Normal g /\
    totalCount g prize val = sumOfFileCounts store prize val selected /\
    forall selected', selected' ≡ₚ selected ->
      exists g', combineAggregatesForDates selected' store = Normal g' /\
        totalCount g' prize val = totalCount g prize val.
Proof.
  intros Hwf Hp.
  destruct (combine_spec store selected Hwf) as (g & E & Hb).
  destruct (totalCount_spec store selected g prize val (Hb _ _ Hp)) as [Ht _].
  exists g. split; [exact E|]. split; [exact Ht|].
  intros selected' Hperm.
  destruct (combine_spec store selected' Hwf) as (g' & E' & Hb').
  destruct (totalCount_spec store selected' g' prize val (Hb' _ _ Hp)) as [Ht' _].
  exists g'. split; [exact E'|]. rewrite Ht, Ht'. by apply sumOfFileCounts_perm.
Qed.

(** C3 on three dates with values in common: "12" occurs once on the
    first date and twice on the second. *)
Lemma merge_total_is_sum_of_file_counts_witness :
  exists g, combineAggregatesForDates threeSelected threeDates = Normal g /\
    totalCount g (js "TWO") (js "12") = sumOfFileCounts threeDates (js "TWO") (js "12") threeSelected /\
    forall selected', selected' ≡ₚ threeSelected ->
      exists g', combineAggregatesForDates selected' threeDates = Normal g' /\
        totalCount g' (js "TWO") (js "12") = totalCount g (js "TWO") (js "12").
Proof.
  apply (merge_total_is_sum_of_file_counts threeDates threeSelected (js "TWO") (js "12"));
    by_computation.
Defined.

(** C5. For a selection without repetition, folded in the order given,
    the contributing dates of a value are the first fifty of the
    selected dates whose file has the value, in that order: no date
    twice, never more than fifty; the count is the sum over all of them,
    those beyond the cap included. *)
Theorem merge_dates_first_up_to_cap store selected prize val :
  wellFormedStore store -> NoDup selected -> prize ∈ PRIZE_LIST ->
  exists g, combineAggregatesForDates selected store = Normal g /\
    contributingDates g prize val =
      take MAX_DATES_RECORD (datesWith store prize val selected) /\
    NoDup (contributingDates g prize val) /\
    (length (contributingDates g prize val) <= MAX_DATES_RECORD)%nat /\
    totalCount g prize val = sumOfFileCounts store prize val selected.
Proof.
  intros Hwf Hnd Hp.
  destruct (combine_spec store selected Hwf) as (g & E & Hb).
  destruct (totalCount_spec store selected g prize val (Hb _ _ Hp)) as [Ht Hd].
  exists g. split; [exact E|]. split; [exact Hd|]. rewrite Hd.
  split; [|split; [rewrite length_take; lia|exact Ht]].
  eapply sublist_NoDup; [|apply sublist_take]. unfold datesWith. by apply NoDup_filter.
Qed.

(** C5 on the three dates: "34" is on the first and the third. *)
Lemma merge_dates_first_up_to_cap_witness :
  exists g, combineAggregatesForDates threeSelected threeDates = Normal g /\
    contributingDates g (js "TWO") (js "34") =
      take MAX_DATES_RECORD (datesWith threeDates (js "TWO") (js "34") threeSelected) /\
    NoDup (contributingDates g (js "TWO") (js "34")) /\
    (length (contributingDates g (js "TWO") (js "34")) <= MAX_DATES_RECORD)%nat /\
    totalCount g (js "TWO") (js "34") = sumOfFileCounts threeDates (js "TWO") (js "34") threeSelected.
Proof.
  apply (merge_dates_first_up_to_cap threeDates threeSelected (js "TWO") (js "34"));
    by_computation.
Defined.

(** The three dates, evaluated: the totals and the dates in the order of
    the selection. *)
Lemma merge_three_dates :
  match combineAggregatesForDates threeSelected threeDates with
  | Normal g =>
      totalCount g (js "TWO") (js "12") = 3 /\
      totalCount g (js "TWO") (js "34") = 2 /\
      totalCount g (js "TWO") (js "56") = 1 /\
      contributingDates g (js "TWO") (js "12") = [js "2020-01-16"; js "2020-02-01"] /\
      contributingDates g (js "TWO") (js "34") = [js "2020-02-16"; js "2020-01-16"]
  | ThrowTypeError => False
  end.
Proof. vm_compute. repeat split; reflexivity. Qed.

(** A value that names a member of [Object.prototype] makes the engine
    throw; no well-formed aggregate has one. *)
Lemma merge_throws_on_inherited_value :
  combineAggregatesForDates [sampleDate]
    [(sampleDate, {| dateStr := sampleDate;
                     prizesAgg := {[ js "FIRST" := {[ js "valueOf" := 1 ]} ]};
                     digitAgg := ∅; results := ∅ |})]
  = ThrowTypeError.
Proof. vm_compute. reflexivity. Qed.

(** Past the cap: sixty dates have the value, fifty are recorded, the
    first fifty of the selection, and the count is sixty. *)
Lemma merge_sixty_dates :
  match combineAggregatesForDates sixtyKeys sixtyDates with
  | Normal g =>
      totalCount g (js "TWO") (js "12") = 60 /\
      contributingDates g (js "TWO") (js "12") = take 50 sixtyKeys
  | ThrowTypeError => False
  end.
Proof. vm_compute. split; reflexivity. Qed.

(** ** The cache gate and the fetch plan *)

Lemma insertBy_perm {A} (le : A -> A -> bool) x l : insertBy le x l ≡ₚ x :: l.
Proof.
  induction l as [|y l IH]; simpl; [done|].
  destruct (le y x); [|done]. rewrite IH. apply Permutation_swap.
Qed.

Lemma sortBy_perm {A} (le : A -> A -> bool) l : sortBy le l ≡ₚ l.
Proof.
  unfold sortBy.
  assert (forall acc, foldl (fun acc x => insertBy le x acc) acc l ≡ₚ acc ++ l) as H.
  { induction l as [|x l IH]; intros acc; simpl; [by rewrite app_nil_r|].
    rewrite IH, insertBy_perm. simpl. apply Permutation_middle. }
  apply (H []).
Qed.

(** The two slices of the plan split the candidates. *)
Lemma slices_split {A} (l : list A) (k : Z) :
  0 <= k -> slice l 0 k ++ sliceFrom l k = l.
Proof.
  intros Hk. unfold sliceFrom, slice, relIndex.
  replace (0 <? 0) with false by done.
  replace (k <? 0) with false by (symmetry; apply Z.ltb_ge; lia).
  replace (Z.of_nat (length l) <? 0) with false by (symmetry; apply Z.ltb_ge; lia).
  rewrite (Z.min_l 0) by lia. rewrite (Z.min_r (Z.of_nat (length l))) by lia.
  simpl. rewrite drop_0, Z.sub_0_r.
  rewrite (take_ge (drop _ _)) by (rewrite length_drop; lia).
  apply take_drop.
Qed.

Lemma fetchPlan_perm recentLimit candidates store :
  (fetchPlan recentLimit candidates store).1 ++ (fetchPlan recentLimit candidates store).2
  ≡ₚ filter (fun x => mapHas (c_dateStr x) store = false) candidates.
Proof.
  unfold fetchPlan. simpl.
  rewrite Permutation_app_comm, <- filter_app.
  by rewrite slices_split by lia.
Qed.

Lemma progressivePlan_requests zoneOffset now cached recentLimit :
  (progressivePlan zoneOffset now cached recentLimit).1 = storeAfterGate now cached initialStore /\
  (progressivePlan zoneOffset now cached recentLimit).2 ≡ₚ
    c_url <$> filter (fun x => mapHas (c_dateStr x) (storeAfterGate now cached initialStore) = false)
                     (buildCandidateUrls (now + zoneOffset)).
Proof.
  unfold progressivePlan.
  pose proof (fetchPlan_perm recentLimit (sortCandidates (buildCandidateUrls (now + zoneOffset)))
                (storeAfterGate now cached initialStore)) as H.
  destruct (fetchPlan _ _ _) as [recent older]. simpl in *. split; [done|].
  unfold batchRequests. rewrite <- fmap_app, H. unfold sortCandidates.
  by rewrite sortBy_perm.
Qed.

Lemma buildCandidateUrls_shape now c :
  c ∈ buildCandidateUrls now -> c = candidate (c_dateStr c).
Proof.
  unfold buildCandidateUrls. intros H.
  apply list_elem_of_bind in H as (y & H & _).
  apply list_elem_of_bind in H as (m & H & _).
  apply list_elem_of_bind in H as (d & H & _).
  destruct (_ && _); [by apply elem_of_nil in H|].
  by apply list_elem_of_singleton in H as ->.
Qed.

Lemma candidate_url_inj d1 d2 : c_url (candidate d1) = c_url (candidate d2) -> d1 = d2.
Proof.
  unfold candidate. cbn [c_url]. intros H.
  apply app_inv_head in H. by apply app_inv_tail in H.
Qed.

Lemma filter_true {A} (l : list A) : filter (fun _ => false = false) l = l.
Proof. induction l as [|x l IH]; [done|]. rewrite filter_cons. simpl. by rewrite IH. Qed.

(** C7. When the loaded snapshot has a timestamp within 24 hours of
    now, the store is the snapshot, no request of the two phases is for
    a date the snapshot has, and the requests are those for the
    candidates whose date it lacks; when there is no snapshot, or its
    timestamp is more than 24 hours old, the store is empty and there
    is a request for every candidate. *)
Theorem cache_gate_decides_the_fetch_plan zoneOffset now cached state recentLimit :
  snapshotState now cached state ->
  let plan := progressivePlan zoneOffset now cached recentLimit in
  let candidates := buildCandidateUrls (now + zoneOffset) in
  match state with
  | Some snapshot =>
      plan.1 = snapshot /\
      (forall d, d ∈ snapshot.*1 -> c_url (candidate d) ∉ plan.2) /\
      plan.2 ≡ₚ c_url <$> filter (fun c => c_dateStr c ∉ snapshot.*1) candidates
  | None =>
      plan.1 = [] /\ plan.2 ≡ₚ c_url <$> candidates
  end.
Proof.
  intros Hstate. cbv zeta.
  destruct (progressivePlan_requests zoneOffset now cached recentLimit) as [Hstore Hreq].
  rewrite Hstore.
  destruct Hstate as [t snapshot Ht Habs| |t d Hold].
  - assert (storeAfterGate now (Some {| fetchedAt := Some t; data := Some snapshot |}) initialStore
            = snapshot) as Hgate.
    { unfold storeAfterGate, acceptedSnapshot. simpl.
      replace (t =? 0) with false by (symmetry; apply Z.eqb_neq; done).
      replace (now - t <? CACHE_TTL_MS) with true by (symmetry; apply Z.ltb_lt; lia).
      done. }
    rewrite Hgate in *. split; [done|].
    assert (forall c : Candidate,
              mapHas (c_dateStr c) snapshot = false <-> c_dateStr c ∉ snapshot.*1) as Hiff.
    { intros c. unfold mapHas. apply bool_decide_eq_false. }
    split.
    + intros d Hd Hin. rewrite Hreq in Hin.
      apply list_elem_of_fmap in Hin as (c & Hurl & Hc).
      apply list_elem_of_filter in Hc as [Hnot Hc].
      apply Hiff in Hnot. apply buildCandidateUrls_shape in Hc.
      rewrite Hc in Hurl. apply candidate_url_inj in Hurl. by subst.
    + rewrite Hreq. erewrite list_filter_iff; [done|]. apply Hiff.
  - split; [done|]. rewrite Hreq. unfold storeAfterGate, initialStore. simpl.
    by rewrite filter_true.
  - assert (storeAfterGate now (Some {| fetchedAt := Some t; data := d |}) initialStore = [])
      as Hgate.
    { unfold storeAfterGate, acceptedSnapshot. simpl.
      replace (now - t <? CACHE_TTL_MS) with false by (symmetry; apply Z.ltb_ge; lia).
      by rewrite andb_false_r. }
    rewrite Hgate. split; [done|]. rewrite Hreq, Hgate. by rewrite filter_true.
Qed.

(** C7 with a snapshot of three dates taken an hour ago. *)
Lemma cache_gate_decides_the_fetch_plan_witness :
  let plan := progressivePlan bangkokOffset sampleInstant hourOldCache 150 in
  plan.1 = threeDates /\
  (forall d, d ∈ threeDates.*1 -> c_url (candidate d) ∉ plan.2) /\
  plan.2 ≡ₚ c_url <$> filter (fun c => c_dateStr c ∉ threeDates.*1)
                             (buildCandidateUrls (sampleInstant + bangkokOffset)).
Proof.
  apply (cache_gate_decides_the_fetch_plan bangkokOffset sampleInstant hourOldCache
           (Some threeDates) 150).
  apply snapshot_fresh; [vm_compute; discriminate|vm_compute; reflexivity].
Defined.

(** ** Strings: white space, commas, [split] and [join] *)

Lemma splitWs_noWhiteSpace s t : t ∈ splitWs s -> noWhiteSpace t.
Proof.
  revert t. induction s as [|c s IH]; intros t; simpl.
  - intros H. apply list_elem_of_singleton in H as ->. constructor.
  - destruct (isWhiteSpace c) eqn:Hc.
    + destruct s as [|c' s'].
      * intros H. repeat (apply elem_of_cons in H as [->|H]; [constructor|]).
        by apply elem_of_nil in H.
      * destruct (isWhiteSpace c'); [apply IH|].
        intros H. apply elem_of_cons in H as [->|H]; [constructor|by apply IH].
    + destruct (splitWs s) as [|t0 ts] eqn:Hs.
      * intros H. apply list_elem_of_singleton in H as ->. by repeat constructor.
      * intros H. apply elem_of_cons in H as [->|H].
        -- constructor; [done|]. apply IH. left.
        -- apply IH. by right.
Qed.

Lemma lineVals_spec line v :
  v ∈ lineVals line -> (1 <= length v)%nat /\ noWhiteSpace v.
Proof.
  unfold lineVals. intros H. apply list_elem_of_fmap in H as (tok & -> & Htok).
  split.
  - rewrite length_sliceLast. apply lineNums_nonEmpty in Htok.
    pose proof (fixedLen_pos (lineTag line)). lia.
  - unfold lineNums in Htok. apply list_elem_of_filter in Htok as [_ Htok].
    unfold sliceLast, noWhiteSpace. apply Forall_drop.
    apply (splitWs_noWhiteSpace (trim line)).
    destruct (splitWs (trim line)); [by apply elem_of_nil in Htok|by right].
Qed.

Lemma dropWhileWs_id s : noWhiteSpace s -> dropWhileWs s = s.
Proof. intros H. destruct H as [|c s Hc _]; simpl; [done|by rewrite Hc]. Qed.

Lemma trim_id s : noWhiteSpace s -> trim s = s.
Proof.
  intros H. unfold trim. rewrite (dropWhileWs_id s H).
  rewrite dropWhileWs_id; [apply reverse_involutive|].
  unfold noWhiteSpace. by apply Forall_reverse.
Qed.

Lemma trim_space s : noWhiteSpace s -> trim (32%N :: s) = s.
Proof.
  intros H. unfold trim. simpl. fold (trim s). by apply trim_id.
Qed.

Lemma splitComma_nonempty s : splitComma s <> [].
Proof.
  destruct s as [|c s]; simpl; [done|].
  destruct (c =? 44)%N; [done|]. by destruct (splitComma s).
Qed.

Lemma splitComma_app v rest :
  noComma v -> splitComma (v ++ 44%N :: rest) = v :: splitComma rest.
Proof.
  induction 1 as [|c v Hc _ IH]; simpl.
  - done.
  - replace (c =? 44)%N with false by (symmetry; by apply N.eqb_neq).
    by rewrite IH.
Qed.

Lemma splitComma_whole v : noComma v -> splitComma v = [v].
Proof.
  induction 1 as [|c v Hc _ IH]; simpl; [done|].
  replace (c =? 44)%N with false by (symmetry; by apply N.eqb_neq).
  by rewrite IH.
Qed.

Lemma join_cons_head sep c v rest : join sep ((c :: v) :: rest) = c :: join sep (v :: rest).
Proof. by destruct rest. Qed.

Lemma splitComma_join v rest :
  noComma v -> Forall noComma rest ->
  splitComma (join (js ", ") (v :: rest)) = v :: ((fun w => 32%N :: w) <$> rest).
Proof.
  intros Hv Hrest. revert v Hv. induction Hrest as [|w rest Hw _ IH]; intros v Hv.
  - simpl. by apply splitComma_whole.
  - change (join (js ", ") (v :: w :: rest))
      with (v ++ 44%N :: 32%N :: join (js ", ") (w :: rest)).
    rewrite splitComma_app by done.
    rewrite <- join_cons_head. rewrite IH; [done|].
    constructor; [done|exact Hw].
Qed.

Lemma numbersOf_join vals :
  Forall (fun v => (1 <= length v)%nat /\ noWhiteSpace v /\ noComma v) vals ->
  vals <> [] ->
  CsvPage.numbersOf (join (js ", ") vals) = vals.
Proof.
  intros Hall Hne. destruct vals as [|v rest]; [done|].
  apply Forall_cons in Hall as [(Hl & Hw & Hc) Hrest].
  unfold CsvPage.numbersOf. rewrite splitComma_join.
  2: done.
  2: { eapply Forall_impl; [exact Hrest|]. by intros ? (_ & _ & ?). }
  rewrite fmap_cons, trim_id by done.
  rewrite filter_cons, decide_True by (by apply nonEmpty_length).
  f_equal. clear v Hl Hw Hc Hne.
  induction Hrest as [|w rest (Hl & Hw & Hc) _ IH]; [done|].
  rewrite !fmap_cons, trim_space by done.
  rewrite filter_cons, decide_True by (by apply nonEmpty_length).
  by rewrite IH.
Qed.

Lemma join_nonempty sep v rest : (1 <= length v)%nat -> nonEmpty (join sep (v :: rest)) = true.
Proof. destruct v; simpl; [lia|]. by destruct rest. Qed.

(** ** [dateMap]: the sort *)

Lemma insertBy_sorted x l :
  is_Some (de_date x) -> Forall (fun e => is_Some (de_date e)) l ->
  StronglySorted dateBefore l ->
  StronglySorted dateBefore (insertBy dateNotAfter x l).
Proof.
  intros [tx Hx] Hvalid Hs. induction Hs as [|y l Hs IH Hy]; simpl.
  - repeat constructor.
  - apply Forall_cons in Hvalid as [[ty Hty] Hvalid].
    unfold dateNotAfter at 1. rewrite Hty, Hx.
    destruct (ty <=? tx) eqn:Hle.
    + apply Z.leb_le in Hle. constructor; [by apply IH|].
      rewrite insertBy_perm. constructor; [|exact Hy].
      exists ty, tx. done.
    + apply Z.leb_gt in Hle. constructor; [by constructor|].
      constructor.
      * exists tx, ty. repeat split; [done|done|lia].
      * eapply Forall_impl; [exact Hy|].
        intros z (a & b & Ha & Hb & Hab). exists tx, b.
        rewrite Hty in Ha. injection Ha as <-. repeat split; [done|done|lia].
Qed.

Lemma sortBy_sorted l :
  Forall (fun e => is_Some (de_date e)) l ->
  StronglySorted dateBefore (sortBy dateNotAfter l).
Proof.
  intros Hvalid. unfold sortBy.
  assert (forall acc, Forall (fun e => is_Some (de_date e)) acc ->
            StronglySorted dateBefore acc ->
            StronglySorted dateBefore (foldl (fun acc x => insertBy dateNotAfter x acc) acc l)) as H.
  { induction Hvalid as [|x l Hx _ IH]; intros acc Hacc Hs; simpl; [done|].
    apply IH.
    - rewrite insertBy_perm. by constructor.
    - by apply insertBy_sorted. }
  apply H; constructor.
Qed.

Lemma buildDateMap_perm {V} (store : list (jsstring * V)) :
  buildDateMap store ≡ₚ entryOf <$> store.*1.
Proof. apply sortBy_perm. Qed.

Lemma buildDateMap_sorted {V} (store : list (jsstring * V)) :
  Forall (fun d => is_Some (keyDate d)) store.*1 ->
  StronglySorted dateBefore (buildDateMap store).
Proof.
  intros H. apply sortBy_sorted. apply Forall_fmap.
  eapply Forall_impl; [exact H|]. done.
Qed.

(** ** The CSV export *)

Lemma mapGet_is_Some {V} k (m : list (jsstring * V)) :
  k ∈ m.*1 -> exists v, mapGet k m = Some v.
Proof.
  induction m as [|[k' v'] m IH]; simpl; intros H; [by apply elem_of_nil in H|].
  case_decide as Hk; [eauto|].
  apply elem_of_cons in H as [->|H]; [done|by apply IH].
Qed.

Lemma csvLoop_spec (f : jsstring -> completion (list jsstring)) (g : jsstring -> list jsstring)
    (l : list DateEntry) (acc : list jsstring) :
  (forall x, x ∈ l -> f (de_dateStr x) = Normal (g (de_dateStr x))) ->
  forOf (fun x lines => ls ← f (de_dateStr x); Normal (lines ++ ls)) l acc =
  Normal (acc ++ ((de_dateStr <$> l) ≫= g)).
Proof.
  revert acc. induction l as [|x l IH]; intros acc Hf; simpl.
  - by rewrite app_nil_r.
  - rewrite (Hf x) by left. unfold mbind at 1, completion_bind at 1.
    unfold mbind at 1, completion_bind at 1.
    rewrite IH by (intros y Hy; apply Hf; by right).
    by rewrite <- app_assoc.
Qed.

#[export] Instance inheritedName_dec tag : Decision (inheritedName tag).
Proof. unfold inheritedName. apply _. Defined.

Lemma prize_not_inherited prize : prize ∈ PRIZE_LIST -> ~ inheritedName prize.
Proof.
  assert (Forall (fun p => ~ inheritedName p) PRIZE_LIST) as H.
  { by_computation. }
  rewrite Forall_forall in H. apply H.
Qed.

(** The lines of one date, when its aggregate is what the parser
    returned for its file. *)
Lemma linesOfDate_spec prize store texts d :
  prize ∈ PRIZE_LIST -> d ∈ store.*1 ->
  (forall agg, (d, agg) ∈ store ->
     exists strict R R', parseTextToAggregate strict R d (texts d) = (Normal agg, R')) ->
  (forall v, v ∈ default [] (displayedValues prize (texts d)) -> noComma v) ->
  CsvPage.linesOfDate prize store d =
  Normal ((fun v => v ++ js "," ++ d) <$> default [] (displayedValues prize (texts d))).
Proof.
  intros Hp Hd Hparse Hcomma. unfold CsvPage.linesOfDate.
  destruct (mapGet_is_Some d store Hd) as [agg Hget]. rewrite Hget.
  destruct (Hparse agg (mapGet_elem_of _ _ _ Hget)) as (strict & R & R' & Hrun).
  apply parse_normal in Hrun as (s & Hrun & -> & _). cbn [results].
  rewrite (display_after_run strict R prize _ s Hp Hrun).
  unfold displayedValues, dataLines in *.
  destruct (last (linesOf prize _)) as [line|]; simpl in *.
  - destruct (lineVals line) as [|v rest] eqn:Hvals; [done|].
    assert (Forall (fun v => (1 <= length v)%nat /\ noWhiteSpace v /\ noComma v) (v :: rest))
      as Hall.
    { apply Forall_forall. intros w Hw. rewrite <- Hvals in Hw.
      destruct (lineVals_spec line w Hw) as [H1 H2]. repeat split; [done|done|].
      apply Hcomma. by rewrite <- Hvals. }
    rewrite join_nonempty by (apply Forall_cons in Hall as [[? _] _]; done).
    by rewrite numbersOf_join.
  - rewrite decide_False; [done|].
    by apply prize_not_inherited.
Qed.

Lemma csvLines_spec prize store texts :
  prize ∈ PRIZE_LIST ->
  (forall d agg, (d, agg) ∈ store ->
     exists strict R R', parseTextToAggregate strict R d (texts d) = (Normal agg, R')) ->
  Forall (fun d => Forall noComma (default [] (displayedValues prize (texts d)))) store.*1 ->
  CsvPage.csvLines prize store = Normal (CsvPage.displayedLines prize texts store).
Proof.
  intros Hp Hparse Hcomma. unfold CsvPage.csvLines, CsvPage.displayedLines.
  rewrite (csvLoop_spec (CsvPage.linesOfDate prize store)
             (fun d => (fun v => v ++ js "," ++ d) <$> default [] (displayedValues prize (texts d)))).
  - done.
  - intros x Hx. rewrite buildDateMap_perm in Hx.
    apply list_elem_of_fmap in Hx as (d & -> & Hd). simpl.
    apply linesOfDate_spec; [done|done|by apply Hparse|].
    rewrite Forall_forall in Hcomma. specialize (Hcomma d Hd).
    rewrite Forall_forall in Hcomma. exact Hcomma.
Qed.

(** The click shows the lines, one below the other. *)
Lemma showCsv_shows_lines prize stamp store old line lines :
  nonEmpty prize = true -> store <> [] ->
  CsvPage.csvLines prize store = Normal (line :: lines) ->
  CsvPage.showCsv prize (Some {| fetchedAt := stamp; data := Some store |}) old
  = Normal (CsvPage.Shown (join [LF] (line :: lines))).
Proof.
  intros Hp Hne Hl. unfold CsvPage.showCsv. rewrite Hp. simpl.
  destruct store; [done|]. by rewrite Hl.
Qed.

(** C8, as amended. For a store whose aggregates are what the parser
    returned for the files of their dates, the keys being valid dates,
    and a chosen category whose displayed values have no comma in them,
    the CSV export lists the dates in ascending order and writes, for
    each, one line [value,date] per value of the last line of the
    category in that date's file. *)
Theorem csv_lists_last_line_values prize store texts :
  prize ∈ PRIZE_LIST ->
  (forall d agg, (d, agg) ∈ store ->
     exists strict R R', parseTextToAggregate strict R d (texts d) = (Normal agg, R')) ->
  Forall (fun d => Forall noComma (default [] (displayedValues prize (texts d)))) store.*1 ->
  Forall (fun d => is_Some (keyDate d)) store.*1 ->
  CsvPage.csvLines prize store = Normal (CsvPage.displayedLines prize texts store) /\
  StronglySorted dateBefore (buildDateMap store) /\
  buildDateMap store ≡ₚ entryOf <$> store.*1.
Proof.
  intros Hp Hparse Hcomma Hvalid. split; [by apply csvLines_spec|].
  split; [by apply buildDateMap_sorted|apply buildDateMap_perm].
Qed.

Lemma threeDates_parsed d agg :
  (d, agg) ∈ threeDates ->
  exists strict R R', parseTextToAggregate strict R d (threeTexts d) = (Normal agg, R').
Proof.
  assert (Forall (fun e => parseTextToAggregate false freshRealm e.1 (threeTexts e.1)
                           = (Normal e.2, freshRealm)) threeDates) as H.
  { unfold threeDates.
    apply Forall_cons_2; [vm_compute; reflexivity|].
    apply Forall_cons_2; [vm_compute; reflexivity|].
    apply Forall_cons_2; [vm_compute; reflexivity|].
    apply Forall_nil_2. }
  rewrite Forall_forall in H. intros Hin.
  exists false, freshRealm, freshRealm. apply (H (d, agg) Hin).
Defined.

(** C8 on the three dates, given out of order. *)
Lemma csv_lists_last_line_values_witness :
  CsvPage.csvLines (js "TWO") threeDates
    = Normal (CsvPage.displayedLines (js "TWO") threeTexts threeDates) /\
  StronglySorted dateBefore (buildDateMap threeDates) /\
  buildDateMap threeDates ≡ₚ entryOf <$> threeDates.*1.
Proof.
  apply (csv_lists_last_line_values (js "TWO") threeDates threeTexts).
  - by_computation.
  - apply threeDates_parsed.
  - by_computation.
  - by_computation.
Defined.

(** The export of the three dates, evaluated. *)
Lemma csv_three_dates :
  CsvPage.csvLines (js "TWO") (reverse threeDates) =
  Normal [js "12,2020-01-16"; js "34,2020-01-16"; js "12,2020-02-01"; js "12,2020-02-01";
          js "34,2020-02-16"; js "56,2020-02-16"].
Proof. vm_compute. reflexivity. Qed.

(** C8 as stated fails: with a category on two lines of a file, the
    export has the values of the second line only, while the accepted
    values of the file are those of both. *)
Lemma csv_drops_earlier_lines :
  CsvPage.csvLines (js "TWO") twoLineStore = Normal [js "34,2020-01-16"] /\
  CsvPage.expectedLines (js "TWO") (fun _ => twoLineText) twoLineStore
    = [js "12,2020-01-16"; js "34,2020-01-16"] /\
  countIn (parseTextToAggregate false freshRealm sampleDate twoLineText) (js "TWO") (js "12")
    = Some 1.
Proof. repeat split; vm_compute; reflexivity. Qed.

(** A value with a comma in it is one value to the parser and two lines
    to the export. *)
Lemma csv_splits_values_at_commas :
  countIn (parseTextToAggregate false freshRealm sampleDate
             (unlines [js "header"; js "FIRST 12,345"])) (js "FIRST") (js "12,345") = Some 1 /\
  CsvPage.csvLines (js "FIRST") commaStore
    = Normal [js "12,2020-01-16"; js "345,2020-01-16"].
Proof. split; vm_compute; reflexivity. Qed.

(** ** The calendar *)

(** The day number of the civil date of a day number is that number. *)
Lemma civil_roundTrip z :
  let '(y, m, d) := civilFromDays z in
  daysFromCivil y m d = z /\ 1 <= m <= 12 /\ 1 <= d <= 31.
Proof.
  unfold civilFromDays, daysFromCivil. cbv zeta.
  set (era := (z + 719468) / 146097).
  set (doe := z + 719468 - era * 146097).
  assert (0 <= doe < 146097) as Hdoe.
  { unfold doe, era. Z.div_mod_to_equations. lia. }
  assert (z = doe + era * 146097 - 719468) as Hz by (unfold doe; lia).
  clearbody doe. clearbody era. subst z.
  set (yoe := (doe - doe / 1460 + doe / 36524 - doe / 146096) / 365).
  set (doy := doe - (365 * yoe + yoe / 4 - yoe / 100)).
  assert (0 <= yoe <= 399 /\ 0 <= doy <= 365) as [Hyoe Hdoy].
  { unfold doy, yoe. Z.div_mod_to_equations. lia. }
  assert (doe = 365 * yoe + yoe / 4 - yoe / 100 + doy) as Hdoe' by (unfold doy; lia).
  clearbody doy. clearbody yoe.
  set (mp := (5 * doy + 2) / 153).
  assert (0 <= mp <= 11) as Hmp by (unfold mp; Z.div_mod_to_equations; lia).
  destruct (mp <? 10) eqn:Hlt.
  - apply Z.ltb_lt in Hlt.
    replace (mp + 3 <=? 2) with false by (symmetry; apply Z.leb_gt; lia).
    replace (2 <? mp + 3) with true by (symmetry; apply Z.ltb_lt; lia).
    replace ((yoe + era * 400) / 400) with era by (Z.div_mod_to_equations; lia).
    unfold mp; Z.div_mod_to_equations; lia.
  - apply Z.ltb_ge in Hlt.
    replace (mp - 9 <=? 2) with true by (symmetry; apply Z.leb_le; lia).
    replace (2 <? mp - 9) with false by (symmetry; apply Z.ltb_ge; lia).
    replace ((yoe + era * 400 + 1 - 1) / 400) with era by (Z.div_mod_to_equations; lia).
    unfold mp; Z.div_mod_to_equations; lia.
Qed.

Lemma daysFromCivil_day y m d : daysFromCivil y m d = daysFromCivil y m 1 + d - 1.
Proof. unfold daysFromCivil. lia. Qed.

(** [d.setDate(d.getDate() + 1)] is the same time on the next day. *)
Lemma setDate_next t : setDate (getDate t + 1) t = t + msPerDay.
Proof.
  unfold setDate, getDate, getMonth, getFullYear, makeDay, makeDate.
  pose proof (civil_roundTrip (t / msPerDay)) as H.
  destruct (civilFromDays (t / msPerDay)) as [[y m] d]. simpl.
  destruct H as (Hday & Hm & Hd).
  rewrite (Z.div_small (m - 1) 12) by lia.
  rewrite (Z.mod_small (m - 1) 12) by lia.
  rewrite Z.add_0_r. replace (m - 1 + 1) with m by lia.
  rewrite daysFromCivil_day in Hday.
  pose proof (Z.div_mod t msPerDay ltac:(done)).
  unfold msPerDay in *. lia.
Qed.

(** ** The enumerator of the export page *)

Lemma daysLoop_spec n fuel d stop :
  (n < fuel)%nat ->
  d + (Z.of_nat n - 1) * msPerDay <= stop < d + Z.of_nat n * msPerDay ->
  CsvPage.daysLoop fuel d stop =
  ((fun k => d + Z.of_nat k * msPerDay) <$> seq 0 n) ≫= CsvPage.candidateOfDay.
Proof.
  revert fuel d. induction n as [|n IH]; intros fuel d Hfuel Hstop.
  - destruct fuel as [|fuel]; [lia|]. simpl.
    replace (d <=? stop) with false by (symmetry; apply Z.leb_gt; unfold msPerDay in *; lia). done.
  - destruct fuel as [|fuel]; [lia|]. cbn [CsvPage.daysLoop].
    replace (d <=? stop) with true by (symmetry; apply Z.leb_le; unfold msPerDay in *; lia).
    rewrite setDate_next. rewrite (IH fuel (d + msPerDay)) by (unfold msPerDay in *; lia).
    cbn [seq]. rewrite fmap_cons. rewrite bind_cons. f_equal.
    + f_equal. lia.
    + f_equal. rewrite <- fmap_S_seq, <- list_fmap_compose.
      apply list_fmap_ext. intros _ k _. simpl. lia.
Qed.

(** The enumerator of the export page lists, in order, the days from
    the epoch to now whose day of the month is a draw day, each under
    the string of its civil date, and nothing else. *)
Lemma export_enumerator_lists_the_window now :
  CsvPage.buildCandidateUrls now = midnightsUntil now ≫= CsvPage.candidateOfDay.
Proof.
  unfold CsvPage.buildCandidateUrls, midnightsUntil.
  set (q := (now - FIXED_START) / msPerDay).
  pose proof (Z.div_mod (now - FIXED_START) msPerDay ltac:(done)) as Hdm.
  pose proof (Z.mod_pos_bound (now - FIXED_START) msPerDay ltac:(done)) as Hmod.
  fold q in Hdm.
  destruct (decide (0 <= q + 1)) as [Hq|Hq].
  - apply daysLoop_spec; [lia|]. unfold msPerDay in *. lia.
  - replace (Z.to_nat (q + 1)) with 0%nat by lia. cbn [seq fmap list_fmap].
    change (([] : list Z) ≫= CsvPage.candidateOfDay) with ([] : list Candidate).
    destruct (Z.to_nat (q + 2)) as [|fuel]; [done|]. cbn [CsvPage.daysLoop].
    replace (FIXED_START <=? now) with false; [done|].
    symmetry. apply Z.leb_gt. unfold msPerDay in *. lia.
Qed.

Lemma candidateOfDay_spec t c :
  c ∈ CsvPage.candidateOfDay t <->
  getDate t ∈ DRAW_DAYS /\
  c = candidate (dateString (getFullYear t) (getMonth t + 1) (getDate t)).
Proof.
  unfold CsvPage.candidateOfDay. cbv zeta. case_bool_decide as Hd.
  - rewrite list_elem_of_singleton. unfold dateString, pad2.
    split; [intros ->; done|intros [_ ->]; done].
  - rewrite elem_of_nil. split; [done|intros [? _]; done].
Qed.

(** A candidate of the export page is a day from the epoch to now, of a
    draw day number, and every such day is a candidate. *)
Lemma export_enumerator_candidates now c :
  c ∈ CsvPage.buildCandidateUrls now <->
  exists k : nat,
    let t := FIXED_START + Z.of_nat k * msPerDay in
    t <= now /\ getDate t ∈ DRAW_DAYS /\
    c = candidate (dateString (getFullYear t) (getMonth t + 1) (getDate t)).
Proof.
  rewrite export_enumerator_lists_the_window. unfold midnightsUntil.
  rewrite list_elem_of_bind. cbv zeta.
  pose proof (Z.div_mod (now - FIXED_START) msPerDay ltac:(done)) as Hdm.
  pose proof (Z.mod_pos_bound (now - FIXED_START) msPerDay ltac:(done)) as Hmod.
  split.
  - intros (t & Hc & Ht). apply list_elem_of_fmap in Ht as (k & -> & Hk).
    apply elem_of_seq in Hk. exists k. apply candidateOfDay_spec in Hc.
    split; [|exact Hc]. unfold msPerDay in *. nia.
  - intros (k & Hle & Hc). exists (FIXED_START + Z.of_nat k * msPerDay).
    split; [by apply candidateOfDay_spec|].
    apply list_elem_of_fmap. exists k. split; [done|].
    apply elem_of_seq. unfold msPerDay in *. nia.
Qed.

(** ** What the parser counts *)

Lemma plus_zero o : plus o 0 = o.
Proof. done. Qed.

Lemma plus_plus o a b : 0 <= a -> 0 <= b -> plus (plus o a) b = plus o (a + b).
Proof.
  intros Ha Hb. unfold plus.
  destruct (Z.eqb_spec a 0), (Z.eqb_spec b 0), (Z.eqb_spec (a + b) 0);
    simpl; try lia; try done; f_equal; lia.
Qed.

Lemma plus_none n : 0 <= n -> plus None n = recorded n.
Proof. intros Hn. unfold plus, recorded. by destruct (n =? 0). Qed.

Lemma occurrences_nonneg val l : 0 <= occurrences val l.
Proof. unfold occurrences. lia. Qed.

Lemma occurrencesAt_nonneg i d l : 0 <= occurrencesAt i d l.
Proof. unfold occurrencesAt. lia. Qed.

Lemma occurrences_cons val v l :
  occurrences val (v :: l) = (if decide (v = val) then 1 else 0) + occurrences val l.
Proof.
  unfold occurrences. rewrite filter_cons. case_decide; simpl; lia.
Qed.

Lemma occurrencesAt_cons i d v l :
  occurrencesAt i d (v :: l) = (if decide (v !! i = Some d) then 1 else 0) + occurrencesAt i d l.
Proof.
  unfold occurrencesAt. rewrite filter_cons. case_decide; simpl; lia.
Qed.

Lemma occurrences_app val l1 l2 :
  occurrences val (l1 ++ l2) = occurrences val l1 + occurrences val l2.
Proof. unfold occurrences. rewrite filter_app, length_app. lia. Qed.

Lemma occurrencesAt_app i d l1 l2 :
  occurrencesAt i d (l1 ++ l2) = occurrencesAt i d l1 + occurrencesAt i d l2.
Proof. unfold occurrencesAt. rewrite filter_app, length_app. lia. Qed.

Lemma countIs_insert s tag val x m tag' val' :
  st_prizesAgg s !! tag = Some m ->
  countIs (withPrizesAgg (<[tag := <[val := x]> m]> (st_prizesAgg s)) s) tag' val' =
  if decide (tag' = tag /\ val' = val) then Some x else countIs s tag' val'.
Proof.
  intros Hm. unfold countIs, withPrizesAgg. cbn [st_prizesAgg].
  destruct (decide (tag' = tag)) as [->|Hne].
  - rewrite lookup_insert_eq, Hm. cbn [mbind option_bind].
    destruct (decide (val' = val)) as [->|Hv].
    + rewrite lookup_insert_eq. by rewrite decide_True.
    + rewrite lookup_insert_ne by done. rewrite decide_False; [done|]. by intros [_ ?].
  - rewrite lookup_insert_ne by done. rewrite decide_False; [done|]. by intros [? _].
Qed.

Lemma digitCountIs_insert s tag k d x pods dc tag' i d' :
  st_digitAgg s !! tag = Some pods -> pods !! k = Some dc ->
  digitCountIs (withDigitAgg (<[tag := <[k := <[d := x]> dc]> pods]> (st_digitAgg s)) s) tag' i d' =
  if decide (tag' = tag /\ i = k /\ d' = d) then Some x else digitCountIs s tag' i d'.
Proof.
  intros Hp Hdc. unfold digitCountIs, withDigitAgg. cbn [st_digitAgg].
  destruct (decide (tag' = tag)) as [->|Hne].
  - rewrite lookup_insert_eq, Hp. cbn [mbind option_bind].
    destruct (decide (i = k)) as [->|Hi].
    + rewrite list_lookup_insert_eq by (by eapply lookup_lt_Some). rewrite Hdc.
      cbn [mbind option_bind].
      destruct (decide (d' = d)) as [->|Hd].
      * rewrite lookup_insert_eq. by rewrite decide_True.
      * rewrite lookup_insert_ne by done. rewrite decide_False; [done|]. by intros (_ & _ & ?).
    + rewrite list_lookup_insert_ne by done. rewrite decide_False; [done|]. by intros (_ & ? & _).
  - rewrite lookup_insert_ne by done. rewrite decide_False; [done|]. by intros [? _].
Qed.

(** The loop over the code units of a value, in a realm nothing has
    been written to: the counter of each position's code unit goes up
    by one, and nothing else changes. *)
Lemma countDigits_counts tag val k s :
  settled freshRealm s -> tag ∈ PRIZE_LIST -> (k + length val <= fixedLen tag)%nat ->
  exists s', forEachIdx (countDigit tag) k val s = (Normal tt, s') /\
    settled freshRealm s' /\ st_results s' = st_results s /\
    st_prizesAgg s' = st_prizesAgg s /\
    forall tag' i d, digitCountIs s' tag' i d =
      plus (digitCountIs s tag' i d)
           (if decide (tag' = tag /\ (k <= i)%nat /\ val !! (i - k)%nat = Some d) then 1 else 0).
Proof.
  revert k s. induction val as [|d0 val IH]; intros k s Hs Htag Hlen.
  - exists s. split; [done|]. split; [done|]. split; [done|]. split; [done|].
    intros tag' i d. rewrite decide_False; [done|]. by intros (_ & _ & ?).
  - destruct Hs as [Hs HR]. pose proof Hs as (I1 & I2 & I3).
    destruct (proj2 (I2 tag) Htag) as [pods Hp].
    simpl in Hlen.
    destruct (lookup_lt_is_Some_2 pods k) as [dc Hdc]; [rewrite (I3 _ _ Hp); lia|].
    cbn [forEachIdx].
    unfold mbind at 1, M_bind at 1. unfold countDigit at 1.
    unfold mbind, M_bind, getState. rewrite Hp, Hdc. unfold putState.
    rewrite HR. cbn [objProto freshRealm]. unfold readThrough. rewrite lookup_empty.
    set (x := bump (match dc !! d0 with Some v => Some v | None => None end)).
    set (s1 := withDigitAgg _ s).
    destruct (IH (S k) s1) as (s' & E & Hs' & Hres & Hpr & Hdig); [|done|lia|].
    { split; [|done]. by apply shaped_withDigitAgg. }
    exists s'. split; [exact E|]. split; [done|]. split; [done|]. split; [done|].
    intros tag' i d. rewrite Hdig. unfold s1. rewrite (digitCountIs_insert _ _ _ _ _ pods dc) by done.
    assert (digitCountIs s tag k d0 = dc !! d0) as Hold.
    { unfold digitCountIs. rewrite Hp. cbn [mbind option_bind]. by rewrite Hdc. }
    destruct (decide (tag' = tag)) as [->|Hne].
    + destruct (decide (i = k)) as [->|Hik].
      * replace (k - k)%nat with 0%nat by lia. cbn [lookup list_lookup].
        rewrite (decide_False (P := _ /\ (S k <= k)%nat /\ _)) by lia.
        rewrite plus_zero.
        destruct (decide (d = d0)) as [->|Hd].
        -- rewrite !decide_True by done. rewrite Hold. unfold plus, x, bump. simpl.
           by destruct (dc !! d0).
        -- rewrite !decide_False; [done| |]; intros (_ & _ & ?); congruence.
      * rewrite (decide_False (P := _ /\ i = k /\ _)) by (by intros (_ & ? & _)).
        destruct (decide (k <= i)%nat) as [Hle|Hgt].
        -- replace (i - k)%nat with (S (i - S k)) by lia. cbn [lookup list_lookup].
           destruct (decide (val !! (i - S k)%nat = Some d)) as [Hv|Hv].
           ++ rewrite !decide_True; [done| |]; (split; [done|split; [lia|done]]).
           ++ rewrite !decide_False; [done| |]; by intros (_ & _ & ?).
        -- rewrite !decide_False; [done| |]; intros (_ & ? & _); lia.
    + rewrite !decide_False; [done| | |]; by intros [? _].
Qed.

(** One value under a category. *)
Lemma recordVal_counts strict tag val s :
  settled freshRealm s -> tag ∈ PRIZE_LIST -> (1 <= length val <= fixedLen tag)%nat ->
  exists s', recordVal strict HOwn tag val s = (Normal tt, s') /\
    settled freshRealm s' /\ st_results s' = st_results s /\
    (forall tag' val', countIs s' tag' val' =
       plus (countIs s tag' val') (if decide (tag' = tag /\ val' = val) then 1 else 0)) /\
    (forall tag' i d, digitCountIs s' tag' i d =
       plus (digitCountIs s tag' i d)
            (if decide (tag' = tag /\ val !! i = Some d) then 1 else 0)).
Proof.
  intros [Hs HR] Htag Hlen. unfold recordVal.
  replace (nonEmpty val) with true by (symmetry; apply nonEmpty_length; lia).
  destruct (proj2 (proj1 Hs tag) Htag) as [m Hm].
  unfold mbind at 1, M_bind at 1. unfold countValue.
  unfold mbind, M_bind, getState. rewrite Hm. unfold putState.
  rewrite HR. cbn [objProto freshRealm]. unfold readThrough. rewrite lookup_empty.
  set (x := bump (match m !! val with Some v => Some v | None => None end)).
  set (s1 := withPrizesAgg _ s).
  destruct (countDigits_counts tag val 0 s1) as (s' & E & Hs' & Hres & Hpr & Hdig); [|done|simpl; lia|].
  { split; [|done]. by eapply shaped_withPrizesAgg. }
  exists s'. split; [exact E|]. split; [done|]. split; [done|]. split.
  - intros tag' val'. unfold countIs at 1. rewrite Hpr. fold (countIs s1 tag' val').
    unfold s1. rewrite (countIs_insert _ _ _ _ m) by done.
    case_decide as Hc; [|done]. destruct Hc as [-> ->].
    unfold countIs. rewrite Hm. cbn [mbind option_bind]. unfold plus, x, bump. simpl.
    by destruct (m !! val).
  - intros tag' i d. rewrite Hdig.
    assert (digitCountIs s1 tag' i d = digitCountIs s tag' i d) as -> by done.
    f_equal. replace (i - 0)%nat with i by lia.
    destruct (decide (tag' = tag /\ val !! i = Some d)) as [[-> Hv]|Hn].
    + rewrite decide_True; [done|]. split; [done|split; [lia|done]].
    + rewrite decide_False; [done|]. intros (? & _ & ?). by apply Hn.
Qed.

(** The values of one line. *)
Lemma recordVals_counts strict tag vals s :
  settled freshRealm s -> tag ∈ PRIZE_LIST ->
  Forall (fun val : jsstring => (1 <= length val <= fixedLen tag)%nat) vals ->
  exists s', forEach (recordVal strict HOwn tag) vals s = (Normal tt, s') /\
    settled freshRealm s' /\ st_results s' = st_results s /\
    (forall tag' val', countIs s' tag' val' =
       plus (countIs s tag' val') (if decide (tag' = tag) then occurrences val' vals else 0)) /\
    (forall tag' i d, digitCountIs s' tag' i d =
       plus (digitCountIs s tag' i d) (if decide (tag' = tag) then occurrencesAt i d vals else 0)).
Proof.
  intros Hs Htag Hvals. revert s Hs.
  induction Hvals as [|v vals Hv Hvals IH]; intros s Hs.
  - exists s. split; [done|]. split; [done|]. split; [done|].
    split; intros; case_decide; done.
  - destruct (recordVal_counts strict tag v s Hs Htag Hv) as (s1 & E1 & Hs1 & Hres1 & Hc1 & Hd1).
    destruct (IH s1 Hs1) as (s' & E & Hs' & Hres & Hc & Hd).
    exists s'. cbn [forEach]. unfold mbind at 1, M_bind at 1. rewrite E1.
    split; [exact E|]. split; [done|]. split; [congruence|]. split.
    + intros tag' val'. rewrite Hc, Hc1.
      destruct (decide (tag' = tag)) as [->|Hne].
      * rewrite occurrences_cons.
        rewrite plus_plus; [|case_decide; lia|apply occurrences_nonneg].
        f_equal. f_equal. destruct (decide (v = val')) as [->|Hn].
        -- by rewrite decide_True.
        -- rewrite decide_False; [done|]. intros [_ ?]. by apply Hn.
      * rewrite decide_False by (by intros [? _]). done.
    + intros tag' i d. rewrite Hd, Hd1.
      destruct (decide (tag' = tag)) as [->|Hne].
      * rewrite occurrencesAt_cons.
        rewrite plus_plus; [|case_decide; lia|apply occurrencesAt_nonneg].
        f_equal. f_equal. destruct (decide (v !! i = Some d)) as [Hv'|Hn].
        -- by rewrite decide_True.
        -- rewrite decide_False; [done|]. intros [_ ?]. by apply Hn.
      * rewrite decide_False by (by intros [? _]). done.
Qed.

Lemma lineVals_lengths line :
  Forall (fun val : jsstring => (1 <= length val <= fixedLen (lineTag line))%nat) (lineVals line).
Proof.
  apply Forall_forall. intros val Hv. unfold lineVals in Hv.
  apply list_elem_of_fmap in Hv as (tok & -> & Htok).
  apply lineNums_nonEmpty in Htok. rewrite length_sliceLast.
  pose proof (fixedLen_pos (lineTag line)). lia.
Qed.

Lemma valuesIn_cons tag line lines :
  valuesIn tag (line :: lines) =
  (if bool_decide (nonEmpty (trim line) = true /\ lineTag line = tag) then lineVals line else [])
  ++ valuesIn tag lines.
Proof.
  unfold valuesIn, linesOf. rewrite filter_cons.
  destruct (decide (nonEmpty (trim line) = true)) as [Hb|Hb].
  - rewrite filter_cons. destruct (decide (lineTag line = tag)) as [Ht|Ht].
    + by rewrite bool_decide_eq_true_2.
    + rewrite bool_decide_eq_false_2; [done|]. by intros [_ ?].
  - rewrite bool_decide_eq_false_2; [done|]. by intros [? _].
Qed.

(** A run of lines none of which names a member of [Object.prototype],
    in a realm nothing has been written to. *)
Lemma lines_counts strict lines s :
  settled freshRealm s ->
  Forall (fun line => nonEmpty (trim line) = true -> ~ inheritedName (lineTag line)) lines ->
  exists s', forEach (processLine strict) lines s = (Normal tt, s') /\
    settled freshRealm s' /\
    (forall tag val, tag ∈ PRIZE_LIST ->
       countIs s' tag val = plus (countIs s tag val) (occurrences val (valuesIn tag lines))) /\
    (forall tag i d, tag ∈ PRIZE_LIST ->
       digitCountIs s' tag i d =
         plus (digitCountIs s tag i d) (occurrencesAt i d (valuesIn tag lines))).
Proof.
  intros Hs Hlines. revert s Hs.
  induction Hlines as [|line lines Hline Hlines IH]; intros s Hs.
  - exists s. done.
  - assert (exists s1, processLine strict line s = (Normal tt, s1) /\ settled freshRealm s1 /\
      (forall tag val, tag ∈ PRIZE_LIST -> countIs s1 tag val =
         plus (countIs s tag val)
              (occurrences val (if bool_decide (nonEmpty (trim line) = true /\ lineTag line = tag)
                                then lineVals line else []))) /\
      (forall tag i d, tag ∈ PRIZE_LIST -> digitCountIs s1 tag i d =
         plus (digitCountIs s tag i d)
              (occurrencesAt i d (if bool_decide (nonEmpty (trim line) = true /\ lineTag line = tag)
                                  then lineVals line else [])))) as (s1 & E1 & Hs1 & Hc1 & Hd1).
    { rewrite processLine_run.
      destruct (nonEmpty (trim line)) eqn:Hb.
      - specialize (Hline eq_refl). destruct Hs as [Hsh HR]. rewrite HR.
        destruct (decide (lineTag line ∈ PRIZE_LIST)) as [Hin|Hout].
        + rewrite (proj2 (holderOf_own freshRealm (lineTag line)) Hin). cbn [falsy].
          rewrite decide_False by (by apply not_inherited_prize).
          set (s0 := withResults _ s).
          destruct (recordVals_counts strict (lineTag line) (lineVals line) s0)
            as (s1 & E & Hs1 & _ & Hc & Hd); [done|done|apply lineVals_lengths|].
          exists s1. split; [exact E|]. split; [done|]. split.
          * intros tag val _. rewrite Hc.
            assert (countIs s0 tag val = countIs s tag val) as -> by done.
            f_equal. destruct (decide (tag = lineTag line)) as [->|Hne].
            -- by rewrite bool_decide_eq_true_2.
            -- rewrite bool_decide_eq_false_2; [done|]. intros [_ ?]. by apply Hne.
          * intros tag i d _. rewrite Hd.
            assert (digitCountIs s0 tag i d = digitCountIs s tag i d) as -> by done.
            f_equal. destruct (decide (tag = lineTag line)) as [->|Hne].
            -- by rewrite bool_decide_eq_true_2.
            -- rewrite bool_decide_eq_false_2; [done|]. intros [_ ?]. by apply Hne.
        + assert (holderOf freshRealm (lineTag line) = HNone) as ->.
          { unfold holderOf. rewrite decide_False by done.
            rewrite decide_False by (intros ?; apply Hline; by left).
            rewrite decide_False by (intros ?; apply Hline; by right).
            done. }
          cbn [falsy]. exists s. split; [done|]. split; [done|].
          split; [intros tag ? Htag|intros tag ? ? Htag];
            (rewrite bool_decide_eq_false_2; [done|]); intros [_ <-]; by apply Hout.
      - exists s. split; [done|]. split; [done|].
        split; [intros tag ? Htag|intros tag ? ? Htag];
          (rewrite bool_decide_eq_false_2; [done|]); by intros [? _]. }
    destruct (IH s1 Hs1) as (s' & E & Hs' & Hc & Hd).
    exists s'. cbn [forEach]. unfold mbind at 1, M_bind at 1. rewrite E1.
    split; [exact E|]. split; [done|]. split.
    + intros tag val Htag. rewrite Hc, Hc1 by done. rewrite valuesIn_cons, occurrences_app.
      apply plus_plus; apply occurrences_nonneg.
    + intros tag i d Htag. rewrite Hd, Hd1 by done. rewrite valuesIn_cons, occurrencesAt_app.
      apply plus_plus; apply occurrencesAt_nonneg.
Qed.

Lemma initial_counts R tag val i d :
  countIs (initialState R) tag val = None /\ digitCountIs (initialState R) tag i d = None.
Proof.
  split.
  - unfold countIs. destruct (st_prizesAgg (initialState R) !! tag) as [m|] eqn:E; [|done].
    apply initial_prizes in E as [-> _]. done.
  - unfold digitCountIs. destruct (st_digitAgg (initialState R) !! tag) as [pods|] eqn:E; [|done].
    apply initial_digits in E as [-> _]. cbn [mbind option_bind].
    destruct (replicate (fixedLen tag) (∅ : gmap N Z) !! i) as [dc|] eqn:E'; [|done].
    apply lookup_replicate in E' as [-> _]. done.
Qed.

Lemma plainText_lines text :
  plainText text ->
  Forall (fun line => nonEmpty (trim line) = true -> ~ inheritedName (lineTag line))
         (drop 1 (splitLines text)).
Proof.
  unfold plainText, dataLines. rewrite !Forall_forall. intros H line Hin Hb.
  apply H. by apply list_elem_of_filter.
Qed.

(** The whole call on a plain text in a realm nothing has been written
    to. *)
Lemma parse_plain strict d text :
  plainText text ->
  exists agg, parseTextToAggregate strict freshRealm d text = (Normal agg, freshRealm) /\
    dateStr agg = d /\
    (forall tag val, tag ∈ PRIZE_LIST ->
       countOf agg tag val = recorded (occurrences val (acceptedValues tag text))) /\
    (forall tag i c, tag ∈ PRIZE_LIST ->
       digitCountOf agg tag i c = recorded (occurrencesAt i c (acceptedValues tag text))).
Proof.
  intros Hplain.
  destruct (lines_counts strict (drop 1 (splitLines text)) (initialState freshRealm))
    as (s' & E & [Hsh HR] & Hc & Hd).
  { split; [apply initial_shaped|done]. }
  { by apply plainText_lines. }
  unfold parseTextToAggregate. rewrite E. rewrite HR.
  eexists. split; [done|]. split; [done|]. split.
  - intros tag val Htag. specialize (Hc tag val Htag).
    rewrite (proj1 (initial_counts freshRealm tag val 0%nat 0%N)) in Hc.
    rewrite plus_none in Hc by apply occurrences_nonneg. exact Hc.
  - intros tag i c Htag. specialize (Hd tag i c Htag).
    rewrite (proj2 (initial_counts freshRealm tag [] i c)) in Hd.
    rewrite plus_none in Hd by apply occurrencesAt_nonneg. exact Hd.
Qed.

#[export] Instance plainText_dec text : Decision (plainText text).
Proof. unfold plainText. apply _. Defined.

(** X1. On a file none of whose tags names a member of
    [Object.prototype], parsed in a realm nothing has been written to,
    the parser returns and leaves the realm as it was, and the count it
    holds for a value of a category is the number of times the value
    occurs among the accepted values of that category in the file; a
    value that does not occur has no entry. *)
Theorem parser_counts_every_occurrence strict d text tag val :
  plainText text -> tag ∈ PRIZE_LIST ->
  exists agg, parseTextToAggregate strict freshRealm d text = (Normal agg, freshRealm) /\
    countOf agg tag val = recorded (occurrences val (acceptedValues tag text)).
Proof.
  intros Hplain Htag.
  destruct (parse_plain strict d text Hplain) as (agg & E & _ & Hc & _).
  exists agg. split; [exact E|]. by apply Hc.
Qed.

(** X1 on a file with "12" twice under [TWO]. *)
Lemma parser_counts_every_occurrence_witness :
  exists agg,
    parseTextToAggregate false freshRealm (js "2020-02-01") (threeTexts (js "2020-02-01"))
      = (Normal agg, freshRealm) /\
    countOf agg (js "TWO") (js "12") =
      recorded (occurrences (js "12") (acceptedValues (js "TWO") (threeTexts (js "2020-02-01")))).
Proof.
  apply (parser_counts_every_occurrence false (js "2020-02-01") (threeTexts (js "2020-02-01"))
           (js "TWO") (js "12")); by_computation.
Defined.

(** X2. On such a file the counter of a code unit at a position of a
    category is the number of accepted values of the category that have
    that code unit at that position. *)
Theorem parser_counts_digits_by_position strict d text tag i c :
  plainText text -> tag ∈ PRIZE_LIST ->
  exists agg, parseTextToAggregate strict freshRealm d text = (Normal agg, freshRealm) /\
    digitCountOf agg tag i c = recorded (occurrencesAt i c (acceptedValues tag text)).
Proof.
  intros Hplain Htag.
  destruct (parse_plain strict d text Hplain) as (agg & E & _ & _ & Hd).
  exists agg. split; [exact E|]. by apply Hd.
Qed.

(** X2 on the same file: "1" stands first in both values. *)
Lemma parser_counts_digits_by_position_witness :
  exists agg,
    parseTextToAggregate false freshRealm (js "2020-02-01") (threeTexts (js "2020-02-01"))
      = (Normal agg, freshRealm) /\
    digitCountOf agg (js "TWO") 0 49 =
      recorded (occurrencesAt 0 49 (acceptedValues (js "TWO") (threeTexts (js "2020-02-01")))).
Proof.
  apply (parser_counts_digits_by_position false (js "2020-02-01") (threeTexts (js "2020-02-01"))
           (js "TWO") 0%nat 49%N); by_computation.
Defined.

(** The two on the sample, evaluated. *)
Lemma parser_counts_sample :
  occurrences (js "12") (acceptedValues (js "TWO") (threeTexts (js "2020-02-01"))) = 2 /\
  occurrencesAt 0 49 (acceptedValues (js "TWO") (threeTexts (js "2020-02-01"))) = 2 /\
  occurrencesAt 1 49 (acceptedValues (js "TWO") (threeTexts (js "2020-02-01"))) = 0.
Proof. repeat split; vm_compute; reflexivity. Qed.

(** ** The Merge Engine: digits and display strings *)

Lemma foldl_addPod (l : list (N * Z)) (dest : gmap N Z) d :
  NoDup l.*1 ->
  foldl (fun acc e => <[e.1 := default 0 (acc !! e.1) + e.2]> acc) dest l !! d =
  podStep ((list_to_map l : gmap N Z) !! d) (dest !! d).
Proof.
  revert dest. induction l as [|[k c] l IH]; intros dest Hnd; [done|].
  apply NoDup_cons in Hnd as [Hk Hnd]. cbn [foldl fst snd].
  rewrite IH by done. cbn [list_to_map foldr].
  destruct (decide (d = k)) as [->|Hne].
  - rewrite !lookup_insert_eq.
    rewrite (not_elem_of_list_to_map_1 (M := gmap N) l k Hk). done.
  - rewrite !lookup_insert_ne by done. done.
Qed.

Lemma addPod_lookup pod dest d : addPod pod dest !! d = podStep (pod !! d) (dest !! d).
Proof.
  unfold addPod. rewrite foldl_addPod by apply NoDup_fst_map_to_list.
  by rewrite list_to_map_to_list.
Qed.

Lemma mergePod_digits prize i pod g g' :
  mergePod prize (i, pod) g = Normal g' ->
  counts g' = counts g /\ resultsByDate g' = resultsByDate g /\
  forall p j d, digitTotalOf g' p j d =
    if decide (p = prize /\ j = i) then podStep (pod !! d) (digitTotalOf g p j d)
    else digitTotalOf g p j d.
Proof.
  unfold mergePod. case_decide as Hpod.
  - intros [= <-]. split; [done|]. split; [done|]. intros p j d.
    subst pod. rewrite lookup_empty. by case_decide.
  - destruct (digitCounts g !! prize) as [dests|] eqn:Hd; [|done].
    destruct (dests !! i) as [dest|] eqn:Hi; [|done].
    intros [= <-]. split; [done|]. split; [done|]. intros p j d.
    unfold digitTotalOf. cbn [digitCounts].
    destruct (decide (p = prize)) as [->|Hp].
    + rewrite lookup_insert_eq, Hd. cbn [mbind option_bind].
      destruct (decide (j = i)) as [->|Hj].
      * rewrite list_lookup_insert_eq by (by eapply lookup_lt_Some).
        rewrite Hi. cbn [mbind option_bind]. rewrite decide_True by done.
        apply addPod_lookup.
      * rewrite list_lookup_insert_ne by done. rewrite decide_False; [done|]. by intros [_ ?].
    + rewrite lookup_insert_ne by done. rewrite decide_False; [done|]. by intros [? _].
Qed.

Lemma mergePods_digits prize (pods : list (gmap N Z)) k g g' :
  forOf (mergePod prize) (imap (fun i pod => ((k + i)%nat, pod)) pods) g = Normal g' ->
  counts g' = counts g /\ resultsByDate g' = resultsByDate g /\
  forall p j d, digitTotalOf g' p j d =
    if decide (p = prize /\ (k <= j)%nat)
    then podStep (pods !! (j - k)%nat ≫= (fun pod => pod !! d)) (digitTotalOf g p j d)
    else digitTotalOf g p j d.
Proof.
  revert k g. induction pods as [|pod pods IH]; intros k g.
  - intros [= <-]. split; [done|]. split; [done|]. intros p j d. by case_decide.
  - cbn [imap forOf]. unfold mbind, completion_bind.
    destruct (mergePod prize ((k + 0)%nat, pod) g) as [g1|] eqn:E1; [|done].
    intros E. apply mergePod_digits in E1 as (Hc1 & Hr1 & Hd1).
    rewrite (imap_ext _ (fun i pod => ((S k + i)%nat, pod))) in E
      by (intros; simpl; f_equal; lia).
    apply IH in E as (Hc & Hr & Hd).
    split; [congruence|]. split; [congruence|]. intros p j d.
    rewrite Hd, Hd1.
    destruct (decide (p = prize)) as [->|Hp].
    + destruct (decide (j = k)) as [->|Hjk].
      * rewrite (decide_False (P := _ /\ (S k <= k)%nat)) by lia.
        rewrite !decide_True by (split; [done|lia]).
        replace (k - k)%nat with 0%nat by lia. done.
      * rewrite (decide_False (P := _ /\ j = (k + 0)%nat)) by lia.
        destruct (decide (k <= j)%nat) as [Hle|Hgt].
        -- rewrite !decide_True by (split; [done|lia]).
           replace (j - k)%nat with (S (j - S k)) by lia. done.
        -- rewrite !decide_False; [done| |]; lia.
    + rewrite !decide_False; [done| | |]; by intros [? _].
Qed.

Lemma recordEntry_digits prize date e g g' :
  recordEntry prize date e g = Normal g' ->
  digitCounts g' = digitCounts g /\ resultsByDate g' = resultsByDate g.
Proof.
  destruct e as [val cnt]. unfold recordEntry.
  destruct (counts g !! prize) as [bucket|]; [|done].
  destruct (bucket !! val); [by intros [= <-]|].
  case_decide; [done|]. by intros [= <-].
Qed.

Lemma recordEntries_digits prize date l g g' :
  forOf (recordEntry prize date) l g = Normal g' ->
  digitCounts g' = digitCounts g /\ resultsByDate g' = resultsByDate g.
Proof.
  revert g. induction l as [|e l IH]; intros g; [by intros [= <-]|].
  cbn [forOf]. unfold mbind, completion_bind.
  destruct (recordEntry prize date e g) as [g1|] eqn:E1; [|done].
  intros E. apply recordEntry_digits in E1 as [? ?]. apply IH in E as [? ?].
  split; congruence.
Qed.

Lemma mergePrize_digits date agg prize g g' :
  mergePrize date agg prize g = Normal g' ->
  resultsByDate g' = resultsByDate g /\
  forall p j d, digitTotalOf g' p j d =
    if decide (p = prize) then podStep (digitCountOf agg prize j d) (digitTotalOf g p j d)
    else digitTotalOf g p j d.
Proof.
  unfold mergePrize. unfold mbind, completion_bind.
  destruct (forOf (recordEntry prize date) _ g) as [g1|] eqn:E1; [|done].
  intros E. apply recordEntries_digits in E1 as [Hd1 Hr1].
  apply (mergePods_digits prize _ 0%nat) in E as (_ & Hr & Hd).
  split; [congruence|]. intros p j d. rewrite Hd.
  assert (digitTotalOf g1 p j d = digitTotalOf g p j d) as ->
    by (unfold digitTotalOf; by rewrite Hd1).
  destruct (decide (p = prize)) as [->|Hp].
  - rewrite decide_True by (split; [done|lia]).
    replace (j - 0)%nat with j by lia. f_equal.
    unfold digitCountOf. by destruct (digitAgg agg !! prize).
  - rewrite decide_False; [done|]. by intros [? _].
Qed.

Lemma mergePrizes_digits date agg (l : list jsstring) g g' :
  NoDup l ->
  forOf (mergePrize date agg) l g = Normal g' ->
  resultsByDate g' = resultsByDate g /\
  forall p j d, digitTotalOf g' p j d =
    if decide (p ∈ l) then podStep (digitCountOf agg p j d) (digitTotalOf g p j d)
    else digitTotalOf g p j d.
Proof.
  intros Hnd. revert g. induction Hnd as [|prize l Hnotin Hnd IH]; intros g.
  - intros [= <-]. split; [done|]. intros p j d. rewrite decide_False; [done|].
    apply not_elem_of_nil.
  - cbn [forOf]. unfold mbind, completion_bind.
    destruct (mergePrize date agg prize g) as [g1|] eqn:E1; [|done].
    intros E. apply mergePrize_digits in E1 as [Hr1 Hd1]. apply IH in E as [Hr Hd].
    split; [congruence|]. intros p j d. rewrite Hd, Hd1.
    destruct (decide (p = prize)) as [->|Hp].
    + rewrite (decide_False (P := prize ∈ l)) by done.
      rewrite decide_True; [done|]. left.
    + destruct (decide (p ∈ l)) as [Hin|Hout].
      * rewrite decide_True; [done|]. by right.
      * rewrite decide_False; [done|]. intros [?|?]%elem_of_cons; done.
Qed.

(** One selected date, when the engine gets through it. *)
Lemma mergeDate_digits store date g g' :
  mergeDate store date g = Normal g' ->
  (forall p j d, p ∈ PRIZE_LIST ->
     digitTotalOf g' p j d = podStep (fileDigit store p j d date) (digitTotalOf g p j d)) /\
  resultsByDate g' =
    match mapGet date store with
    | Some agg => if decide (date = protoAccessor) then resultsByDate g
                  else <[date := results agg]> (resultsByDate g)
    | None => resultsByDate g
    end.
Proof.
  unfold mergeDate, fileDigit. destruct (mapGet date store) as [agg|]; [|by intros [= <-]].
  unfold mbind at 1, completion_bind.
  destruct (forOf (mergePrize date agg) PRIZE_LIST g) as [g1|] eqn:E1; [|done].
  intros [= <-]. apply mergePrizes_digits in E1 as [Hr1 Hd1]; [|apply NoDup_PRIZE_LIST].
  split.
  - intros p j d Hp.
    assert (digitTotalOf (storeResults date agg g1) p j d = digitTotalOf g1 p j d) as ->
      by (unfold storeResults; by case_decide).
    rewrite Hd1. by rewrite decide_True.
  - unfold storeResults. case_decide; cbn [resultsByDate]; congruence.
Qed.

Lemma default_podStep c old : default 0 (podStep c old) = default 0 old + default 0 c.
Proof. destruct c; simpl; lia. Qed.

Lemma mergeDates_digits store selected g g' :
  forOf (mergeDate store) selected g = Normal g' ->
  (forall p j d, p ∈ PRIZE_LIST ->
     default 0 (digitTotalOf g' p j d) =
       default 0 (digitTotalOf g p j d) + sumOfFileDigits store p j d selected) /\
  (forall date, date <> protoAccessor ->
     resultsByDate g' !! date =
       if decide (date ∈ selected /\ is_Some (mapGet date store))
       then results <$> mapGet date store
       else resultsByDate g !! date).
Proof.
  revert g. induction selected as [|date0 selected IH]; intros g.
  - intros [= <-]. split.
    + intros. simpl. lia.
    + intros date _. rewrite decide_False; [done|]. intros [?%elem_of_nil _]. done.
  - cbn [forOf]. unfold mbind, completion_bind.
    destruct (mergeDate store date0 g) as [g1|] eqn:E1; [|done].
    intros E. apply mergeDate_digits in E1 as [Hd1 Hr1]. apply IH in E as [Hd Hr].
    split.
    + intros p j d Hp. rewrite Hd, Hd1 by done. rewrite default_podStep.
      cbn [sumOfFileDigits foldr]. unfold sumOfFileDigits. lia.
    + intros date Hdate. rewrite Hr by done.
      destruct (decide (date ∈ selected /\ is_Some (mapGet date store))) as [[Hin Hs]|Hn].
      * rewrite decide_True; [done|]. split; [by right|done].
      * rewrite Hr1. destruct (decide (date = date0)) as [->|Hne].
        -- destruct (mapGet date0 store) as [agg|] eqn:Hg.
           ++ rewrite decide_False by done. rewrite lookup_insert_eq.
              rewrite decide_True; [done|]. split; [left|done].
           ++ rewrite decide_False; [done|]. by intros [_ [? ?]].
        -- rewrite (decide_False (P := date ∈ date0 :: selected /\ _)).
           ++ destruct (mapGet date0 store); [|done].
              case_decide; [done|]. by rewrite lookup_insert_ne.
           ++ intros [[?|?]%elem_of_cons ?]; [done|]. by apply Hn.
Qed.

Lemma resetCounts_digitTotalOf p j d : digitTotalOf resetCounts p j d = None.
Proof.
  unfold digitTotalOf.
  destruct (digitCounts resetCounts !! p) as [dests|] eqn:E; [|done].
  cbn [mbind option_bind].
  destruct (dests !! j) as [dest|] eqn:E'; [|done].
  assert (dest = ∅) as ->; [|done].
  unfold resetCounts in E. cbn [digitCounts] in E.
  apply elem_of_list_to_map_2 in E.
  apply list_elem_of_fmap in E as (q & [= -> ->] & _).
  by apply lookup_replicate in E' as [-> _].
Qed.

(** X3. On a store of well-formed aggregates, the counter the Merge
    Engine holds for a code unit at a position of a category is the sum
    of the counters the files of the selected dates have for it. *)
Theorem merge_digit_is_sum_of_file_digits store selected prize i d :
  wellFormedStore store -> prize ∈ PRIZE_LIST ->
  exists g, combineAggregatesForDates selected store = Normal g /\
    default 0 (digitTotalOf g prize i d) = sumOfFileDigits store prize i d selected.
Proof.
  intros Hwf Hprize.
  destruct (combine_spec store selected Hwf) as (g & E & _).
  exists g. split; [exact E|].
  unfold combineAggregatesForDates in E.
  apply mergeDates_digits in E as [Hd _].
  rewrite Hd by done. by rewrite resetCounts_digitTotalOf.
Qed.

(** X3 on the three dates: "1" stands first in "12", which the first
    date has once and the second twice. *)
Lemma merge_digit_is_sum_of_file_digits_witness :
  exists g, combineAggregatesForDates threeSelected threeDates = Normal g /\
    default 0 (digitTotalOf g (js "TWO") 0 49) =
      sumOfFileDigits threeDates (js "TWO") 0 49 threeSelected.
Proof.
  apply (merge_digit_is_sum_of_file_digits threeDates threeSelected (js "TWO") 0%nat 49%N);
    by_computation.
Defined.

(** X4. After a merge the display strings of exactly the selected dates
    the store has are at hand, each date with those of its own file. *)
Theorem merge_keeps_results_of_selected store selected date :
  wellFormedStore store -> date <> protoAccessor ->
  exists g, combineAggregatesForDates selected store = Normal g /\
    resultsByDate g !! date =
      if decide (date ∈ selected) then results <$> mapGet date store else None.
Proof.
  intros Hwf Hdate.
  destruct (combine_spec store selected Hwf) as (g & E & _).
  exists g. split; [exact E|].
  unfold combineAggregatesForDates in E.
  apply mergeDates_digits in E as [_ Hr].
  rewrite Hr by done. cbn [resultsByDate resetCounts]. rewrite lookup_empty.
  destruct (decide (date ∈ selected)) as [Hin|Hout].
  - destruct (mapGet date store) eqn:Hg.
    + rewrite decide_True; [done|]. split; [done|]. by eexists.
    + rewrite decide_False; [done|]. by intros [_ [? ?]].
  - rewrite decide_False; [done|]. by intros [? _].
Qed.

(** X4 on the three dates. *)
Lemma merge_keeps_results_of_selected_witness :
  exists g, combineAggregatesForDates threeSelected threeDates = Normal g /\
    resultsByDate g !! js "2020-02-16" =
      if decide (js "2020-02-16" ∈ threeSelected)
      then results <$> mapGet (js "2020-02-16") threeDates else None.
Proof.
  apply (merge_keeps_results_of_selected threeDates threeSelected (js "2020-02-16"));
    [by_computation|vm_compute; discriminate].
Defined.

(** The two on the three dates, evaluated. *)
Lemma merge_three_dates_digits :
  match combineAggregatesForDates threeSelected threeDates with
  | Normal g =>
      digitTotalOf g (js "TWO") 0 49 = Some 3 /\
      digitTotalOf g (js "TWO") 1 50 = Some 3 /\
      resultsByDate g !! js "2020-02-16" = Some {[ js "TWO" := js "34, 56" ]} /\
      resultsByDate g !! js "2020-03-01" = None
  | ThrowTypeError => False
  end.
Proof. vm_compute. repeat split; reflexivity. Qed.

(** ** The Date Selector: what every mode keeps *)

Lemma foldl_setAdd (xs : list DateEntry) (acc : list jsstring) :
  NoDup acc ->
  NoDup (foldl (fun sel x => setAdd (de_dateStr x) sel) acc xs) /\
  forall d, d ∈ foldl (fun sel x => setAdd (de_dateStr x) sel) acc xs <->
            d ∈ acc \/ d ∈ de_dateStr <$> xs.
Proof.
  revert acc. induction xs as [|x xs IH]; intros acc Hnd.
  - split; [done|]. intros d. simpl. rewrite elem_of_nil. tauto.
  - cbn [foldl]. destruct (IH (setAdd (de_dateStr x) acc)) as [Hnd' Hel].
    { unfold setAdd. case_decide; [done|].
      apply NoDup_app. split; [done|]. split; [|apply NoDup_singleton].
      intros y Hy ->%list_elem_of_singleton. done. }
    split; [done|]. intros d. rewrite Hel. rewrite fmap_cons, elem_of_cons.
    unfold setAdd. case_decide as Hx.
    + split; [tauto|]. intros [?|[->|?]]; tauto.
    + rewrite elem_of_app, list_elem_of_singleton. tauto.
Qed.

Lemma selectAll_spec xs :
  NoDup (selectAll xs) /\ forall d, d ∈ selectAll xs <-> d ∈ de_dateStr <$> xs.
Proof.
  destruct (foldl_setAdd xs [] (NoDup_nil_2)) as [Hnd Hel].
  split; [done|]. intros d. unfold selectAll. rewrite Hel, elem_of_nil. tauto.
Qed.

Lemma foldl_setAdd_distinct (xs : list DateEntry) (acc : list jsstring) :
  NoDup (acc ++ (de_dateStr <$> xs)) ->
  foldl (fun sel x => setAdd (de_dateStr x) sel) acc xs = acc ++ (de_dateStr <$> xs).
Proof.
  revert acc. induction xs as [|x xs IH]; intros acc Hnd.
  - simpl. by rewrite app_nil_r.
  - cbn [foldl]. rewrite fmap_cons in *.
    assert (de_dateStr x ∉ acc) as Hx.
    { apply NoDup_app in Hnd as (_ & Hd & _). intros Hin. apply (Hd _ Hin). left. }
    unfold setAdd at 2. rewrite decide_False by done.
    rewrite IH; [by rewrite <- app_assoc|]. by rewrite <- app_assoc.
Qed.

Lemma selectAll_distinct xs :
  NoDup (de_dateStr <$> xs) -> selectAll xs = de_dateStr <$> xs.
Proof. intros H. unfold selectAll. by rewrite foldl_setAdd_distinct. Qed.

Lemma slice_sublist {A} (l : list A) a b : slice l a b `sublist_of` l.
Proof. unfold slice. etrans; [apply sublist_take|apply sublist_drop]. Qed.

Lemma Forall_of_sublist {A} (P : A -> Prop) (l1 l2 : list A) :
  l1 `sublist_of` l2 -> Forall P l2 -> Forall P l1.
Proof.
  rewrite !Forall_forall. intros Hsub H x Hx. apply H. by eapply elem_of_sublist.
Qed.

(** Every mode selects the strings of entries it takes out of the list
    it is given, in their order; under anchoring the three modes take
    entries from the epoch on only. *)
Lemma selected_from c now dates :
  exists xs, xs `sublist_of` dates /\
    computeSelectedDatesFromMode c now dates = selectAll xs /\
    (fixedStartChecked c = true ->
     timeMode c = js "draws" \/ timeMode c = js "years" \/ timeMode c = js "months" ->
     Forall (fun x => dateGe (de_date x) FIXED_START = true) xs).
Proof.
  unfold computeSelectedDatesFromMode.
  assert (forall (P : DateEntry -> bool),
            Forall (fun x => dateGe (de_date x) FIXED_START = true)
                   (filter (fun x => dateGe (de_date x) FIXED_START && P x = true) dates)) as Hboth.
  { intros P. apply Forall_forall. intros x [Hx _]%list_elem_of_filter.
    by apply andb_true_iff in Hx as [? _]. }
  assert (Forall (fun x => dateGe (de_date x) FIXED_START = true)
                 (filter (fun x => dateGe (de_date x) FIXED_START = true) dates)) as Hge.
  { apply Forall_forall. by intros x [Hx _]%list_elem_of_filter. }
  destruct (decide (timeMode c = js "draws")) as [Hd|Hd].
  { destruct (fixedStartChecked c).
    - eexists. split; [|split; [reflexivity|]].
      + etrans; [apply slice_sublist|apply sublist_filter].
      + intros _ _. eapply Forall_of_sublist; [apply slice_sublist|exact Hge].
    - eexists. split; [|split; [reflexivity|done]]. apply slice_sublist. }
  destruct (decide (timeMode c = js "years")) as [Hy|Hy].
  { destruct (fixedStartChecked c).
    - eexists. split; [|split; [reflexivity|]]; [apply sublist_filter|].
      intros _ _. apply (Hboth (fun x => dateLe (de_date x) _)).
    - destruct (0 <? _); (eexists; split; [|split; [reflexivity|done]]);
        [apply sublist_filter|done]. }
  destruct (decide (timeMode c = js "months")) as [Hm|Hm].
  { destruct (fixedStartChecked c).
    - eexists. split; [|split; [reflexivity|]]; [apply sublist_filter|].
      intros _ _. apply (Hboth (fun x => dateLe (de_date x) _)).
    - destruct (0 <? _); (eexists; split; [|split; [reflexivity|done]]);
        [apply sublist_filter|done]. }
  exists dates. split; [done|]. split; [done|]. intros _ [?|[?|?]]; done.
Qed.

(** X5. Whatever the controls say, the selector selects no date twice
    and none that is not among the known dates it is given. *)
Theorem selector_keeps_to_known_dates c now dates :
  NoDup (computeSelectedDatesFromMode c now dates) /\
  forall d, d ∈ computeSelectedDatesFromMode c now dates -> d ∈ de_dateStr <$> dates.
Proof.
  destruct (selected_from c now dates) as (xs & Hsub & -> & _).
  destruct (selectAll_spec xs) as [Hnd Hel].
  split; [done|]. intros d Hd. apply Hel in Hd.
  apply list_elem_of_fmap in Hd as (x & -> & Hx).
  apply list_elem_of_fmap. exists x. split; [done|]. by eapply elem_of_sublist.
Qed.

(** X6. With anchoring, in draws, years or months mode, every selected
    date is the date of a known entry on or after the epoch. *)
Theorem anchored_selection_starts_at_epoch c now dates d :
  fixedStartChecked c = true ->
  timeMode c = js "draws" \/ timeMode c = js "years" \/ timeMode c = js "months" ->
  d ∈ computeSelectedDatesFromMode c now dates ->
  exists x, x ∈ dates /\ de_dateStr x = d /\ dateGe (de_date x) FIXED_START = true.
Proof.
  intros Hanch Hmode.
  destruct (selected_from c now dates) as (xs & Hsub & -> & Hge).
  specialize (Hge Hanch Hmode). intros Hd.
  apply (proj2 (selectAll_spec xs)) in Hd.
  apply list_elem_of_fmap in Hd as (x & -> & Hx).
  exists x. split; [by eapply elem_of_sublist|]. split; [done|].
  rewrite Forall_forall in Hge. by apply Hge.
Qed.

(** X6 on the two known draws with a window of one year. *)
Lemma anchored_selection_starts_at_epoch_witness :
  exists x, x ∈ twoDraws /\ de_dateStr x = js "2007-01-16" /\
            dateGe (de_date x) FIXED_START = true.
Proof.
  apply (anchored_selection_starts_at_epoch (anchoredControls (js "years") (Some 1))
           sampleNow twoDraws (js "2007-01-16")).
  - reflexivity.
  - right. left. reflexivity.
  - by_computation.
Defined.

(** ** Draws mode *)

Lemma slice_first {A} (l : list A) N :
  N <> 0 ->
  slice l 0 N = if 0 <? N then take (Z.to_nat N) l else take (length l - Z.to_nat (- N)) l.
Proof.
  intros HN. unfold slice, relIndex. replace (0 <? 0) with false by done.
  rewrite (Z.min_l 0) by lia. cbn [Z.to_nat]. rewrite drop_0.
  destruct (Z.ltb_spec N 0), (Z.ltb_spec 0 N); try lia.
  - f_equal. lia.
  - destruct (decide (N <= Z.of_nat (length l))).
    + f_equal. lia.
    + rewrite !take_ge by lia. done.
Qed.

Lemma slice_last {A} (l : list A) N :
  N <> 0 ->
  sliceFrom l (- N) =
  if 0 <? N then drop (length l - Z.to_nat N) l else drop (Z.to_nat (- N)) l.
Proof.
  intros HN. unfold sliceFrom, slice, relIndex.
  replace (Z.of_nat (length l) <? 0) with false by (symmetry; apply Z.ltb_ge; lia).
  rewrite Z.min_id.
  destruct (Z.ltb_spec (- N) 0), (Z.ltb_spec 0 N); try lia.
  - rewrite take_ge by (rewrite length_drop; lia). f_equal. lia.
  - rewrite take_ge by (rewrite length_drop; lia).
    destruct (decide (- N <= Z.of_nat (length l))).
    + f_equal. lia.
    + rewrite !drop_ge by lia. done.
Qed.

Lemma orDefault_one count : orDefault count 1 <> 0.
Proof.
  unfold orDefault. destruct count as [n|]; [|done].
  destruct (Z.eqb_spec n 0); done.
Qed.

Lemma drawsKept_sublist N anchored dates : drawsKept N anchored dates `sublist_of` dates.
Proof.
  unfold drawsKept. destruct anchored.
  - destruct (0 <? N); (etrans; [apply sublist_take|apply sublist_filter]).
  - destruct (0 <? N); apply sublist_drop.
Qed.

(** X7. In draws mode, with known dates that differ, a count of N
    selects the last N known dates, or under anchoring the first N from
    the epoch on, all of them when there are fewer; an empty or zero
    count counts as one, and a negative count cuts from the other end:
    all but the first, or under anchoring all but the last, as many. *)
Theorem draws_mode_keeps_from_one_end count anchored now dates :
  NoDup (de_dateStr <$> dates) ->
  computeSelectedDatesFromMode (drawsControls count anchored) now dates =
  de_dateStr <$> drawsKept (orDefault count 1) anchored dates.
Proof.
  intros Hnd.
  rewrite <- selectAll_distinct.
  2:{ apply (sublist_NoDup _ (de_dateStr <$> dates)); [exact Hnd|].
      apply fmap_sublist, drawsKept_sublist. }
  unfold computeSelectedDatesFromMode, drawsControls, drawsKept.
  cbn [timeMode drawsValue fixedStartChecked].
  rewrite decide_True by done. pose proof (orDefault_one count) as HN.
  destruct anchored.
  - by rewrite slice_first.
  - by rewrite slice_last.
Qed.

(** X7 on the two known draws: the last one, and with -1 all but the
    first, which is the same. *)
Lemma draws_mode_keeps_from_one_end_witness :
  computeSelectedDatesFromMode (drawsControls (Some (-1)) false) sampleNow twoDraws =
  de_dateStr <$> drawsKept (orDefault (Some (-1)) 1) false twoDraws.
Proof.
  apply (draws_mode_keeps_from_one_end (Some (-1)) false sampleNow twoDraws).
  by_computation.
Defined.

Lemma draws_mode_sample :
  computeSelectedDatesFromMode (drawsControls None false) sampleNow twoDraws = [js "2007-01-16"] /\
  computeSelectedDatesFromMode (drawsControls (Some 0) true) sampleNow twoDraws = [js "2006-12-30"] /\
  computeSelectedDatesFromMode (drawsControls (Some (-1)) false) sampleNow twoDraws = [js "2007-01-16"] /\
  computeSelectedDatesFromMode (drawsControls (Some (-1)) true) sampleNow twoDraws = [js "2006-12-30"] /\
  computeSelectedDatesFromMode (drawsControls (Some 5) false) sampleNow twoDraws
    = [js "2006-12-30"; js "2007-01-16"].
Proof. repeat split; vm_compute; reflexivity. Qed.

(** ** Windows of years and months *)

Lemma era_split y :
  y / 400 * 146097 + ((y - y / 400 * 400) * 365 + (y - y / 400 * 400) / 4
                      - (y - y / 400 * 400) / 100) = dayOfEra y.
Proof. unfold dayOfEra. Z.div_mod_to_equations. lia. Qed.

Lemma dayOfEra_mono y1 y2 : y1 < y2 -> dayOfEra y1 + 365 <= dayOfEra y2.
Proof. unfold dayOfEra. intros. Z.div_mod_to_equations. lia. Qed.

Lemma daysFromCivil_first_mono y1 m1 y2 m2 :
  1 <= m1 <= 12 -> 1 <= m2 <= 12 -> 12 * y1 + m1 <= 12 * y2 + m2 ->
  daysFromCivil y1 m1 1 <= daysFromCivil y2 m2 1.
Proof.
  intros H1 H2 H. unfold daysFromCivil. cbv zeta.
  pose proof (era_split (if m1 <=? 2 then y1 - 1 else y1)) as E1.
  pose proof (era_split (if m2 <=? 2 then y2 - 1 else y2)) as E2.
  set (a1 := if m1 <=? 2 then y1 - 1 else y1) in *.
  set (a2 := if m2 <=? 2 then y2 - 1 else y2) in *.
  set (b1 := m1 + (if 2 <? m1 then -3 else 9)).
  set (b2 := m2 + (if 2 <? m2 then -3 else 9)).
  assert (12 * a1 + b1 <= 12 * a2 + b2 /\ 0 <= b1 <= 11 /\ 0 <= b2 <= 11) as (Hab & Hb1 & Hb2).
  { unfold a1, a2, b1, b2.
    destruct (Z.leb_spec m1 2), (Z.ltb_spec 2 m1), (Z.leb_spec m2 2), (Z.ltb_spec 2 m2); lia. }
  clearbody a1 a2 b1 b2.
  assert (0 <= (153 * b1 + 2) / 5 <= 337 /\ 0 <= (153 * b2 + 2) / 5 <= 337) as [G1 G2]
    by (Z.div_mod_to_equations; lia).
  destruct (Z.lt_trichotomy a1 a2) as [Hlt|[->|Hgt]].
  - pose proof (dayOfEra_mono a1 a2 Hlt). lia.
  - assert ((153 * b1 + 2) / 5 <= (153 * b2 + 2) / 5) by (apply Z.div_le_mono; lia). lia.
  - lia.
Qed.


(** Twelve months are a year to MakeDay. *)
Lemma makeDay_years y m k d : makeDay y (m + 12 * k) d = makeDay (y + k) m d.
Proof.
  unfold makeDay.
  replace (m + 12 * k) with (m + k * 12) by lia.
  rewrite Z.div_add, Z.mod_add by lia. f_equal. f_equal. f_equal. lia.
Qed.

Lemma setMonth_years k t : setMonth (getMonth t + 12 * k) t = setFullYear (getFullYear t + k) t.
Proof. unfold setMonth, setFullYear. by rewrite makeDay_years. Qed.

(** X8. A window of twelve times k months selects what a window of k
    years selects, with anchoring and without. *)
Theorem twelve_months_select_as_a_year k anchored now dates :
  computeSelectedDatesFromMode (windowControls (js "months") (Some (12 * k)) anchored) now dates =
  computeSelectedDatesFromMode (windowControls (js "years") (Some k) anchored) now dates.
Proof.
  unfold computeSelectedDatesFromMode, windowControls.
  cbn [timeMode yearsValue monthsValue fixedStartChecked].
  rewrite (decide_False (P := js "months" = js "draws")) by (vm_compute; intros [=]).
  rewrite (decide_False (P := js "months" = js "years")) by (vm_compute; intros [=]).
  rewrite (decide_True (P := js "months" = js "months")) by done.
  rewrite (decide_False (P := js "years" = js "draws")) by (vm_compute; intros [=]).
  rewrite (decide_True (P := js "years" = js "years")) by done.
  assert (orDefault (Some (12 * k)) 0 = 12 * orDefault (Some k) 0) as ->.
  { unfold orDefault. destruct (Z.eqb_spec k 0), (Z.eqb_spec (12 * k) 0); lia. }
  set (w := orDefault (Some k) 0).
  replace (0 <? 12 * w) with (0 <? w)
    by (destruct (Z.ltb_spec 0 w), (Z.ltb_spec 0 (12 * w)); lia).
  rewrite !setMonth_years.
  replace (getMonth now - 12 * w) with (getMonth now + 12 * (- w)) by lia.
  rewrite setMonth_years.
  replace (getFullYear now + - w) with (getFullYear now - w) by lia.
  done.
Qed.








(** ** Sorting by a total order *)

Section sorting.
Context {A : Type} (le : A -> A -> bool).
Hypothesis le_total : forall a b, le a b = true \/ le b a = true.
Hypothesis le_trans : forall a b c, le a b = true -> le b c = true -> le a c = true.

Lemma insertBy_ordered x l :
  StronglySorted (fun a b => le a b = true) l ->
  StronglySorted (fun a b => le a b = true) (insertBy le x l).
Proof.
  intros Hs. induction Hs as [|y l Hs IH Hy]; simpl.
  - repeat constructor.
  - destruct (le y x) eqn:Hle.
    + constructor; [exact IH|]. rewrite insertBy_perm. by constructor.
    + destruct (le_total y x) as [Hyx|Hxy]; [congruence|].
      constructor; [by constructor|]. constructor; [done|].
      eapply Forall_impl; [exact Hy|]. intros z Hz. by eapply le_trans.
Qed.

Lemma sortBy_ordered l : StronglySorted (fun a b => le a b = true) (sortBy le l).
Proof.
  unfold sortBy.
  assert (forall acc, StronglySorted (fun a b => le a b = true) acc ->
            StronglySorted (fun a b => le a b = true)
                           (foldl (fun acc x => insertBy le x acc) acc l)) as H.
  { induction l as [|x l IH]; intros acc Hs; simpl; [done|].
    apply IH. by apply insertBy_ordered. }
  apply H. constructor.
Qed.
End sorting.

Lemma strLe_total a b : strLe a b = true \/ strLe b a = true.
Proof.
  revert b. induction a as [|x a IH]; intros [|y b]; simpl; try tauto.
  destruct (N.ltb_spec x y); [by left|].
  destruct (N.ltb_spec y x); [by right|].
  assert (x = y) as -> by lia. rewrite N.eqb_refl. simpl. apply IH.
Qed.

Lemma strLe_trans a b c : strLe a b = true -> strLe b c = true -> strLe a c = true.
Proof.
  revert b c. induction a as [|x a IH]; intros [|y b] [|z c]; simpl; try done.
  rewrite !orb_true_iff, !andb_true_iff, !N.ltb_lt, !N.eqb_eq.
  intros [Hxy|[-> Hab]] [Hyz|[-> Hbc]].
  - left. lia.
  - by left.
  - by left.
  - right. split; [done|]. by eapply IH.
Qed.

Lemma StronglySorted_app_le {A} (R : A -> A -> Prop) (l1 l2 : list A) a b :
  StronglySorted R (l1 ++ l2) -> a ∈ l1 -> b ∈ l2 -> R a b.
Proof.
  induction l1 as [|x l1 IH]; intros Hs Ha Hb; [by apply elem_of_nil in Ha|].
  simpl in Hs. apply StronglySorted_inv in Hs as [Hs Hx].
  apply elem_of_cons in Ha as [->|Ha].
  - rewrite Forall_forall in Hx. apply Hx. apply elem_of_app. by right.
  - by apply IH.
Qed.

(** ** The fetch plan: the latest dates first *)

(** X10. The first phase of the progressive load asks for no more files
    than the limit, and every candidate it leaves to the second phase
    has a date key that is not after the key of any candidate of the
    first. *)
Theorem recent_phase_takes_the_latest recentLimit now store :
  let plan := fetchPlan recentLimit (sortCandidates (buildCandidateUrls now)) store in
  Z.of_nat (length plan.1) <= Z.max 0 recentLimit /\
  forall a b, a ∈ plan.2 -> b ∈ plan.1 -> strLe (c_dateStr a) (c_dateStr b) = true.
Proof.
  cbv zeta. unfold fetchPlan. cbn [fst snd].
  set (candidates := sortCandidates (buildCandidateUrls now)).
  set (k := Z.max 0 (Z.of_nat (length candidates) - recentLimit)).
  assert (0 <= k) as Hk by (unfold k; lia).
  split.
  - etrans; [apply Nat2Z.inj_le, length_filter|].
    unfold sliceFrom, slice, relIndex.
    replace (k <? 0) with false by (symmetry; apply Z.ltb_ge; lia).
    replace (Z.of_nat (length candidates) <? 0) with false by (symmetry; apply Z.ltb_ge; lia).
    rewrite length_take, length_drop. unfold k. lia.
  - intros a b [_ Ha]%list_elem_of_filter [_ Hb]%list_elem_of_filter.
    assert (StronglySorted (fun x y => strLe (c_dateStr x) (c_dateStr y) = true) candidates) as Hs.
    { unfold candidates, sortCandidates. apply sortBy_ordered.
      - intros x y. apply strLe_total.
      - intros x y z. apply strLe_trans. }
    rewrite <- (slices_split candidates k Hk) in Hs.
    by eapply (StronglySorted_app_le _ _ _ a b Hs).
Qed.

(** ** The two enumerators *)

#[export] Instance Candidate_eq_dec : EqDecision Candidate.
Proof. solve_decision. Defined.

Lemma december y : daysFromCivil (y - 1) 12 1 + 31 = daysFromCivil y 1 1.
Proof.
  unfold daysFromCivil. cbv zeta.
  replace (12 <=? 2) with false by done. replace (2 <? 12) with true by done.
  replace (1 <=? 2) with true by done. replace (2 <? 1) with false by done.
  replace ((153 * (12 + -3) + 2) / 5) with 275 by done.
  replace ((153 * (1 + 9) + 2) / 5) with 306 by done. lia.
Qed.

(** The year of a day does not go down as the days go on. *)
Lemma civil_year_mono z1 z2 :
  z1 <= z2 -> (civilFromDays z1).1.1 <= (civilFromDays z2).1.1.
Proof.
  intros Hz.
  pose proof (civil_roundTrip z1) as H1. pose proof (civil_roundTrip z2) as H2.
  destruct (civilFromDays z1) as [[y1 m1] d1], (civilFromDays z2) as [[y2 m2] d2].
  cbn [fst]. destruct H1 as (E1 & Hm1 & Hd1), H2 as (E2 & Hm2 & Hd2).
  destruct (decide (y1 <= y2)) as [|Hgt]; [done|].
  rewrite daysFromCivil_day in E1, E2.
  pose proof (daysFromCivil_first_mono y2 m2 (y1 - 1) 12 ltac:(lia) ltac:(lia) ltac:(lia)).
  pose proof (daysFromCivil_first_mono y1 1 y1 m1 ltac:(lia) ltac:(lia) ltac:(lia)).
  pose proof (december y1). lia.
Qed.

Lemma civil_from_epoch z :
  daysFromCivil 2006 12 30 <= z ->
  let '(y, m, d) := civilFromDays z in
  2006 <= y /\ ~ (y = 2006 /\ m = 12 /\ d < 30).
Proof.
  intros Hz. pose proof (civil_year_mono _ _ Hz) as Hy.
  pose proof (civil_roundTrip z) as H.
  destruct (civilFromDays z) as [[y m] d]. destruct H as (E & _ & _).
  change ((civilFromDays (daysFromCivil 2006 12 30)).1.1) with 2006 in Hy.
  cbn [fst] in Hy. split; [done|]. intros (-> & -> & Hd).
  rewrite daysFromCivil_day in E, Hz. lia.
Qed.

(** X11. Every day the enumerator of the export page lists, the days of
    the window from the epoch to now with a draw-day number, is among
    the candidates of the analyzer's enumerator. *)
Theorem analyzer_candidates_cover_the_window now c :
  c ∈ CsvPage.buildCandidateUrls now -> c ∈ buildCandidateUrls now.
Proof.
  intros (k & Hle & Hday & ->)%export_enumerator_candidates.
  set (t := FIXED_START + Z.of_nat k * msPerDay) in *.
  assert (daysFromCivil 2006 12 30 <= t / msPerDay <= now / msPerDay) as [Hlo Hhi].
  { split.
    - apply Z.div_le_lower_bound; [done|]. unfold t, FIXED_START, makeDate, msPerDay.
      lia.
    - by apply Z.div_le_mono. }
  pose proof (civil_from_epoch _ Hlo) as Hepoch.
  pose proof (civil_year_mono _ _ Hhi) as Hyear.
  pose proof (civil_roundTrip (t / msPerDay)) as Hrt.
  unfold getFullYear, getMonth, getDate in *.
  destruct (civilFromDays (t / msPerDay)) as [[y m] d]. cbn [fst snd] in *.
  destruct Hepoch as [Hy Hnot], Hrt as (_ & Hm & _).
  replace (m - 1 + 1) with m by lia.
  unfold buildCandidateUrls, getFullYear.
  apply list_elem_of_bind. exists y. split; [|apply elem_of_seqZ; lia].
  apply list_elem_of_bind. exists m. split; [|apply elem_of_seqZ; lia].
  apply list_elem_of_bind. exists d. split; [|done].
  replace ((y =? 2006) && (m =? 12) && (d <? 30)) with false; [by apply list_elem_of_singleton|].
  symmetry. apply not_true_iff_false. rewrite !andb_true_iff, !Z.eqb_eq, Z.ltb_lt.
  intros [[? ?] ?]. by apply Hnot.
Qed.

(** X11 at noon of 2007-01-20. *)
Lemma analyzer_candidates_cover_the_window_witness :
  candidate (js "2007-01-16") ∈ buildCandidateUrls (localTime 2007 1 20 43200000).
Proof.
  apply (analyzer_candidates_cover_the_window (localTime 2007 1 20 43200000)
           (candidate (js "2007-01-16"))).
  by_computation.
Defined.

(** ** Date keys and the dates they stand for *)

Lemma daysFromCivil_closed y m d :
  1 <= m <= 12 ->
  daysFromCivil y m d =
  dayOfEra (if m <=? 2 then y - 1 else y) + (153 * (if 2 <? m then m - 3 else m + 9) + 2) / 5
  + d - 1 - 719468.
Proof.
  intros Hm. unfold daysFromCivil. cbv zeta.
  pose proof (era_split (if m <=? 2 then y - 1 else y)) as E.
  replace (m + (if 2 <? m then -3 else 9)) with (if 2 <? m then m - 3 else m + 9)
    by (destruct (2 <? m); lia).
  lia.
Qed.

Lemma dayOfEra_400 a e : dayOfEra (a + 400 * e) = dayOfEra a + 146097 * e.
Proof. unfold dayOfEra. Z.div_mod_to_equations. lia. Qed.

(** The civil date of a day number is a day of its month: it comes
    before the first of the next. *)
Lemma civil_day_in_month z :
  let '(y, m, d) := civilFromDays z in
  daysFromCivil y m d < daysFromCivil (y + m / 12) (m mod 12 + 1) 1.
Proof.
  pose proof (civil_roundTrip z) as Hrt.
  unfold civilFromDays in *. cbv zeta in *.
  set (era := (z + 719468) / 146097) in *.
  set (doe := z + 719468 - era * 146097) in *.
  assert (0 <= doe < 146097) as Hdoe.
  { unfold doe, era. Z.div_mod_to_equations. lia. }
  assert (z = doe + era * 146097 - 719468) as Hz by (unfold doe; lia).
  clearbody doe. clearbody era. subst z.
  set (yoe := (doe - doe / 1460 + doe / 36524 - doe / 146096) / 365) in *.
  set (doy := doe - (365 * yoe + yoe / 4 - yoe / 100)) in *.
  assert (0 <= yoe <= 399 /\ 0 <= doy <= 365 /\ doe < dayOfEra (yoe + 1)) as (Hyoe & Hdoy & Hnext).
  { unfold doy, yoe, dayOfEra. Z.div_mod_to_equations. lia. }
  assert (doe = dayOfEra yoe + doy) as Hdoe'.
  { unfold doy, dayOfEra. replace (yoe / 400) with 0 by (Z.div_mod_to_equations; lia). lia. }
  clearbody doy. clearbody yoe.
  set (mp := (5 * doy + 2) / 153) in *.
  assert (0 <= mp <= 11 /\ doy < (153 * (mp + 1) + 2) / 5) as [Hmp Hg]
    by (unfold mp; Z.div_mod_to_equations; lia).
  clearbody mp.
  destruct Hrt as (E & Hm & Hd). rewrite E.
  destruct (Z.ltb_spec mp 10) as [Hlt|Hge].
  - replace (mp + 3 <=? 2) with false in * by (symmetry; apply Z.leb_gt; lia).
    rewrite daysFromCivil_closed by (Z.div_mod_to_equations; lia).
    destruct (decide (mp = 9)) as [->|Hne].
    + replace ((9 + 3) / 12) with 1 by done. replace ((9 + 3) mod 12 + 1) with 1 by done.
      replace (1 <=? 2) with true by done. replace (2 <? 1) with false by done.
      replace (yoe + era * 400 + 1 - 1) with (yoe + 400 * era) by lia.
      rewrite dayOfEra_400.
      replace ((153 * (1 + 9) + 2) / 5) with 306 by done.
      replace ((153 * (9 + 1) + 2) / 5) with 306 in Hg by done. lia.
    + rewrite (Z.div_small (mp + 3)) by lia. rewrite (Z.mod_small (mp + 3)) by lia.
      replace (mp + 3 + 1 <=? 2) with false by (symmetry; apply Z.leb_gt; lia).
      replace (2 <? mp + 3 + 1) with true by (symmetry; apply Z.ltb_lt; lia).
      replace (yoe + era * 400 + 0) with (yoe + 400 * era) by lia.
      rewrite dayOfEra_400.
      replace (mp + 3 + 1 - 3) with (mp + 1) by lia. lia.
  - replace (mp - 9 <=? 2) with true in * by (symmetry; apply Z.leb_le; lia).
    rewrite daysFromCivil_closed by (Z.div_mod_to_equations; lia).
    rewrite (Z.div_small (mp - 9)) by lia. rewrite (Z.mod_small (mp - 9)) by lia.
    destruct (decide (mp = 10)) as [->|Hne].
    + replace (10 - 9 + 1 <=? 2) with true by done. replace (2 <? 10 - 9 + 1) with false by done.
      replace (yoe + era * 400 + 1 + 0 - 1) with (yoe + 400 * era) by lia.
      rewrite dayOfEra_400.
      replace ((153 * (10 - 9 + 1 + 9) + 2) / 5) with 337 by done.
      replace ((153 * (10 + 1) + 2) / 5) with 337 in Hg by done. lia.
    + assert (mp = 11) as -> by lia.
      replace (11 - 9 + 1 <=? 2) with false by done. replace (2 <? 11 - 9 + 1) with true by done.
      replace (yoe + era * 400 + 1 + 0) with (yoe + 1 + 400 * era) by lia.
      rewrite dayOfEra_400.
      replace ((153 * (11 - 9 + 1 - 3) + 2) / 5) with 0 by done. lia.
Qed.

Lemma daysInMonth_spec y m :
  1 <= m <= 12 ->
  daysInMonth y m = daysFromCivil (y + m / 12) (m mod 12 + 1) 1 - daysFromCivil y m 1.
Proof.
  intros Hm. unfold daysInMonth, makeDay.
  rewrite (Z.div_small (m - 1)) by lia. rewrite (Z.mod_small (m - 1)) by lia.
  replace (y + 0) with y by lia. replace (m - 1 + 1) with m by lia. lia.
Qed.

(** Four digits for a year of four digits. *)
Lemma numToString_year y :
  1000 <= y <= 9999 ->
  numToString y =
  [(48 + Z.to_N (y / 10 / 10 / 10 mod 10))%N; (48 + Z.to_N (y / 10 / 10 mod 10))%N;
   (48 + Z.to_N (y / 10 mod 10))%N; (48 + Z.to_N (y mod 10))%N].
Proof.
  intros Hy. unfold numToString.
  assert (9 <= Z.log2 y) as Hlog.
  { change 9 with (Z.log2 512). apply Z.log2_le_mono. lia. }
  destruct (Z.to_nat (Z.log2 y)) as [|[|[|fuel]]] eqn:E; try lia.
  cbn [decimalDigits].
  replace (y / 10 =? 0) with false by (symmetry; apply Z.eqb_neq; Z.div_mod_to_equations; lia).
  replace (y / 10 / 10 =? 0) with false
    by (symmetry; apply Z.eqb_neq; Z.div_mod_to_equations; lia).
  replace (y / 10 / 10 / 10 =? 0) with false
    by (symmetry; apply Z.eqb_neq; Z.div_mod_to_equations; lia).
  replace (y / 10 / 10 / 10 / 10 =? 0) with true
    by (symmetry; apply Z.eqb_eq; Z.div_mod_to_equations; lia).
  done.
Qed.

(** Two digits for a month or a day. *)
Lemma pad2_two n :
  0 <= n <= 99 -> pad2 n = [(48 + Z.to_N (n / 10))%N; (48 + Z.to_N (n mod 10))%N].
Proof.
  intros Hn.
  assert (forallb (fun k => bool_decide
            (pad2 (Z.of_nat k) = [(48 + Z.to_N (Z.of_nat k / 10))%N;
                                  (48 + Z.to_N (Z.of_nat k mod 10))%N])) (seq 0 100) = true) as H
    by (vm_compute; reflexivity).
  rewrite forallb_forall in H. specialize (H (Z.to_nat n)).
  rewrite Z2Nat.id in H by lia. apply bool_decide_eq_true in H; [done|].
  apply in_seq. lia.
Qed.

Lemma isDigit_digit x : 0 <= x <= 9 -> isDigit (48 + Z.to_N x) = true.
Proof. intros Hx. unfold isDigit. apply andb_true_iff. rewrite !N.leb_le. lia. Qed.

(** The key of a civil date of a year of four digits stands, to
    [new Date(key + 'T00:00')], for the midnight that begins that day. *)
Lemma keyDate_dateString y m d :
  1000 <= y <= 9999 -> 1 <= m <= 12 -> 1 <= d <= 31 -> d <= daysInMonth y m ->
  keyDate (dateString y m d) = Some (localTime y m d 0).
Proof.
  intros Hy Hm Hd Hdim. unfold dateString.
  rewrite numToString_year, !pad2_two by lia.
  change (js "-") with [45%N]. cbn [app].
  unfold keyDate.
  set (a := (48 + Z.to_N (y / 10 / 10 / 10 mod 10))%N).
  set (b := (48 + Z.to_N (y / 10 / 10 mod 10))%N).
  set (c := (48 + Z.to_N (y / 10 mod 10))%N).
  set (e := (48 + Z.to_N (y mod 10))%N).
  set (m1 := (48 + Z.to_N (m / 10))%N). set (m2 := (48 + Z.to_N (m mod 10))%N).
  set (d1 := (48 + Z.to_N (d / 10))%N). set (d2 := (48 + Z.to_N (d mod 10))%N).
  assert (digitsValue [a; b; c; e] = y) as ->.
  { unfold digitsValue, a, b, c, e. cbn [foldl]. Z.div_mod_to_equations. lia. }
  assert (digitsValue [m1; m2] = m) as ->.
  { unfold digitsValue, m1, m2. cbn [foldl]. Z.div_mod_to_equations. lia. }
  assert (digitsValue [d1; d2] = d) as ->.
  { unfold digitsValue, d1, d2. cbn [foldl]. Z.div_mod_to_equations. lia. }
  assert (forallb isDigit [a; b; c; e; m1; m2; d1; d2] = true) as ->.
  { cbn [forallb]. unfold a, b, c, e, m1, m2, d1, d2.
    rewrite !isDigit_digit; [done|..]; Z.div_mod_to_equations; lia. }
  replace (1 <=? m) with true by (symmetry; apply Z.leb_le; lia).
  replace (m <=? 12) with true by (symmetry; apply Z.leb_le; lia).
  replace (1 <=? d) with true by (symmetry; apply Z.leb_le; lia).
  replace (d <=? daysInMonth y m) with true by (symmetry; apply Z.leb_le; lia).
  done.
Qed.

(** A day number has one civil date. *)
Lemma civilFromDays_daysFromCivil y m d :
  1 <= m <= 12 -> 1 <= d <= daysInMonth y m ->
  civilFromDays (daysFromCivil y m d) = (y, m, d).
Proof.
  intros Hm Hd. rewrite daysInMonth_spec in Hd by done.
  pose proof (civil_roundTrip (daysFromCivil y m d)) as Hrt.
  pose proof (civil_day_in_month (daysFromCivil y m d)) as Hin.
  destruct (civilFromDays (daysFromCivil y m d)) as [[y' m'] d'].
  destruct Hrt as (E & Hm' & Hd'). rewrite E in Hin.
  rewrite (daysFromCivil_day y m d) in *. rewrite (daysFromCivil_day y' m' d') in *.
  assert (12 * y + m = 12 * y' + m') as Hsame.
  { destruct (Z.lt_trichotomy (12 * y + m) (12 * y' + m')) as [Hlt|[?|Hgt]]; [|done|].
    - pose proof (daysFromCivil_first_mono (y + m / 12) (m mod 12 + 1) y' m'
                    ltac:(Z.div_mod_to_equations; lia) ltac:(lia)
                    ltac:(Z.div_mod_to_equations; lia)). lia.
    - pose proof (daysFromCivil_first_mono (y' + m' / 12) (m' mod 12 + 1) y m
                    ltac:(Z.div_mod_to_equations; lia) ltac:(lia)
                    ltac:(Z.div_mod_to_equations; lia)). lia. }
  assert (y' = y /\ m' = m) as [-> ->] by lia.
  f_equal. lia.
Qed.

(** X12. A civil date of a year of four digits, written as a key by the
    enumerators and read back as [new Date(key + 'T00:00')], is the
    midnight that begins that day: its year, month and day of the month
    are those written. *)
Theorem date_key_round_trip y m d :
  1000 <= y <= 9999 -> 1 <= m <= 12 -> 1 <= d <= 31 -> d <= daysInMonth y m ->
  exists t, keyDate (dateString y m d) = Some t /\ t mod msPerDay = 0 /\
    getFullYear t = y /\ getMonth t + 1 = m /\ getDate t = d.
Proof.
  intros Hy Hm Hd Hdim. exists (localTime y m d 0).
  split; [by apply keyDate_dateString|].
  unfold localTime, makeDate, getFullYear, getMonth, getDate.
  rewrite Z.add_0_r. rewrite Z.mod_mul by done. rewrite Z.div_mul by done.
  rewrite civilFromDays_daysFromCivil by lia. cbn [fst snd].
  split; [done|]. split; [done|]. split; [lia|done].
Qed.

(** X12 on the day of the sample. *)
Lemma date_key_round_trip_witness :
  exists t, keyDate (dateString 2020 1 16) = Some t /\ t mod msPerDay = 0 /\
    getFullYear t = 2020 /\ getMonth t + 1 = 1 /\ getDate t = 16.
Proof.
  apply (date_key_round_trip 2020 1 16); [lia|lia|lia|vm_compute; discriminate].
Defined.

(** X13. The enumerator of the export page is exact: the date key of
    each of its candidates stands for the midnight of a day from the
    epoch to now whose day of the month is a draw day, and every such
    day has its candidate. *)
Theorem export_keys_are_the_days_of_the_window now :
  getFullYear now <= 9999 ->
  (forall c, c ∈ CsvPage.buildCandidateUrls now ->
     exists t, keyDate (c_dateStr c) = Some t /\ FIXED_START <= t <= now /\
               t mod msPerDay = 0 /\ getDate t ∈ DRAW_DAYS) /\
  (forall k : nat, let t := FIXED_START + Z.of_nat k * msPerDay in
     t <= now -> getDate t ∈ DRAW_DAYS ->
     exists c, c ∈ CsvPage.buildCandidateUrls now /\ keyDate (c_dateStr c) = Some t).
Proof.
  intros Hnow.
  assert (forall k : nat, let t := FIXED_START + Z.of_nat k * msPerDay in
            t <= now ->
            keyDate (dateString (getFullYear t) (getMonth t + 1) (getDate t)) = Some t /\
            FIXED_START <= t /\ t mod msPerDay = 0) as Hkey.
  { intros k t Hle.
    assert (t = (daysFromCivil 2006 12 30 + Z.of_nat k) * msPerDay) as Ht
      by (unfold t, FIXED_START, makeDate; lia).
    assert (t / msPerDay = daysFromCivil 2006 12 30 + Z.of_nat k) as Hday
      by (rewrite Ht; by apply Z.div_mul).
    assert (daysFromCivil 2006 12 30 <= t / msPerDay <= now / msPerDay) as [Hlo Hhi].
    { split; [lia|]. by apply Z.div_le_mono. }
    pose proof (civil_from_epoch _ Hlo) as Hepoch.
    pose proof (civil_year_mono _ _ Hhi) as Hyear.
    pose proof (civil_roundTrip (t / msPerDay)) as Hrt.
    pose proof (civil_day_in_month (t / msPerDay)) as Hin.
    unfold getFullYear, getMonth, getDate in *.
    destruct (civilFromDays (t / msPerDay)) as [[y m] d]. cbn [fst snd] in *.
    destruct Hepoch as [Hy _], Hrt as (E & Hm & Hd).
    replace (m - 1 + 1) with m by lia.
    rewrite (daysFromCivil_day y m d) in Hin.
    split; [|split].
    - rewrite keyDate_dateString; [|lia|lia|lia|rewrite daysInMonth_spec by done; lia].
      unfold localTime, makeDate. rewrite E. f_equal. lia.
    - unfold t, msPerDay. lia.
    - rewrite Ht. by apply Z.mod_mul. }
  split.
  - intros c (k & Hle & Hday & ->)%export_enumerator_candidates.
    destruct (Hkey k Hle) as (Hk & Hlo & Hmid).
    eexists. split; [exact Hk|]. done.
  - intros k t Hle Hday. eexists. split.
    + apply export_enumerator_candidates. exists k. split; [exact Hle|]. split; [exact Hday|done].
    + by apply Hkey.
Qed.

(** X13 at noon of 2007-01-20. *)
Lemma export_keys_are_the_days_of_the_window_witness :
  (forall c, c ∈ CsvPage.buildCandidateUrls (localTime 2007 1 20 43200000) ->
     exists t, keyDate (c_dateStr c) = Some t /\
               FIXED_START <= t <= localTime 2007 1 20 43200000 /\
               t mod msPerDay = 0 /\ getDate t ∈ DRAW_DAYS) /\
  (forall k : nat, let t := FIXED_START + Z.of_nat k * msPerDay in
     t <= localTime 2007 1 20 43200000 -> getDate t ∈ DRAW_DAYS ->
     exists c, c ∈ CsvPage.buildCandidateUrls (localTime 2007 1 20 43200000) /\
               keyDate (c_dateStr c) = Some t).
Proof.
  apply (export_keys_are_the_days_of_the_window (localTime 2007 1 20 43200000)).
  vm_compute. discriminate.
Defined.

(** ** The fetch loop *)

Section batch_fetch.
Import BatchFetch.

#[local] Instance worker_eq_dec : EqDecision worker.
Proof. solve_decision. Defined.

Lemma take_S_lookup {A} (l : list A) i : take (S i) l = take i l ++ option_list (l !! i).
Proof.
  destruct (l !! i) as [x|] eqn:E.
  - by apply take_S_r.
  - apply lookup_ge_None in E. rewrite !take_ge by lia. by rewrite app_nil_r.
Qed.

Lemma nextTurn_spec urls b :
  idx (nextTurn urls b).2 = S (idx b) /\
  workers (nextTurn urls b).2 = workers b /\
  results (nextTurn urls b).2 = results b /\
  completed (nextTurn urls b).2 = completed b /\
  reports (nextTurn urls b).2 = reports b /\
  requests (nextTurn urls b).2 = requests b ++ (c_url <$> option_list (urls !! idx b)) /\
  (nextTurn urls b).1 =
    (if decide (idx b < length urls)%nat then Fetching (idx b) else Returned).
Proof.
  unfold nextTurn. destruct (urls !! idx b) as [c|] eqn:E; cbn.
  - apply lookup_lt_Some in E. by rewrite decide_True.
  - apply lookup_ge_None in E. rewrite decide_False by lia. by rewrite app_nil_r.
Qed.

Lemma unanswered_insert (ws : list worker) k w0 w :
  ws !! k = Some w0 ->
  exists rest,
    omap awaited ws ≡ₚ option_list (awaited w0) ++ rest /\
    omap awaited (<[k := w]> ws) ≡ₚ option_list (awaited w) ++ rest.
Proof.
  intros Hk. exists (omap awaited (take k ws) ++ omap awaited (drop (S k) ws)).
  rewrite insert_take_drop by (by eapply lookup_lt_Some).
  rewrite <- (take_drop_middle ws k w0 Hk) at 1.
  rewrite !omap_app. cbn [omap list_omap].
  split.
  - destruct (awaited w0); simpl; [|done]. by rewrite Permutation_middle.
  - destruct (awaited w); simpl; [|done]. by rewrite Permutation_middle.
Qed.

Lemma weights_insert (ws : list worker) k w0 w :
  ws !! k = Some w0 ->
  (foldr (fun w acc => weight w + acc) 0 (<[k := w]> ws) + weight w0
   = foldr (fun w acc => weight w + acc) 0 ws + weight w)%nat.
Proof.
  revert k. induction ws as [|x ws IH]; intros [|k] Hk; try done.
  - injection Hk as ->. simpl. lia.
  - simpl in *. specialize (IH k Hk). lia.
Qed.

Lemma weights_from (ws : list worker) a :
  foldr (fun w acc => weight w + acc)%nat a ws
  = (foldr (fun w acc => weight w + acc) 0 ws + a)%nat.
Proof. induction ws as [|x ws IH]; cbn; [done|]. rewrite IH. lia. Qed.

Lemma insert_Returned (ws : list worker) k w j :
  <[k := w]> ws !! j = Some Returned ->
  ws !! j = Some Returned \/ (j = k /\ w = Returned).
Proof.
  destruct (decide (j = k)) as [->|Hne].
  - intros H. destruct (decide (k < length ws)%nat).
    + rewrite list_lookup_insert_eq in H by done. injection H as ->. by right.
    + rewrite list_insert_ge in H by lia. by left.
  - rewrite list_lookup_insert_ne by done. by left.
Qed.

(** The end of a turn of [while (true)] and the beginning of the
    next, with a result pushed or not. *)
Lemma finishTurn_consistent urls k i w0 b (pushed : option jsstring) :
  consistent urls b -> workers b !! k = Some w0 -> awaited w0 = Some i ->
  consistent urls
    (finishTurn urls k i
       (match pushed with
        | Some text => pushResult {| f_dateStr := dateOf urls i; f_text := text |} b
        | None => b
        end)).
Proof.
  intros (Hreq & Hcount & Hret & Hrep & served & Hnd & Hlt & Hres) Hk Hi.
  set (b1 := match pushed with Some text => pushResult _ b | None => b end).
  assert (idx b1 = idx b /\ workers b1 = workers b /\ completed b1 = completed b /\
          requests b1 = requests b /\ reports b1 = reports b /\
          f_dateStr <$> results b1 =
            dateOf urls <$> (served ++ match pushed with Some _ => [i] | None => [] end))
    as (E1 & E2 & E3 & E4 & E5 & E6).
  { unfold b1. destruct pushed; cbn.
    - repeat split; try done. rewrite !fmap_app, Hres. done.
    - repeat split; try done. by rewrite app_nil_r. }
  clearbody b1.
  unfold finishTurn.
  set (b2 := {| idx := idx b1; workers := workers b1; results := results b1;
                completed := S (completed b1); requests := requests b1;
                reports := reports b1 ++ [(S (completed b1), length urls, dateOf urls i)] |}).
  pose proof (nextTurn_spec urls b2) as (N1 & N2 & N3 & N4 & N5 & N6 & N7).
  destruct (nextTurn urls b2) as [w b3]. cbn [fst snd] in *.
  unfold b2 in *. cbn [idx workers results completed requests reports] in *.
  destruct (unanswered_insert (workers b) k w0 w Hk) as (rest & Hold & Hnew).
  rewrite Hi in Hold. simpl in Hold. rewrite E1 in N7.
  unfold consistent, withWorkers, unanswered in *.
  cbn [idx workers results completed requests reports].
  rewrite N1, N2, N3, N4, N5, N6, E1, E2, E3, E4, E5.
  rewrite Hold in Hnd, Hcount. setoid_rewrite Hold in Hlt. rewrite Hnew.
  cbn [length] in Hcount.
  assert ((i ∉ served) /\ (i ∉ rest) /\ NoDup (served ++ rest)) as (Hi1 & Hi2 & Hnd').
  { apply NoDup_app in Hnd as (Hs & Hdisj & Hr). apply NoDup_cons in Hr as [Hir Hr].
    split; [intros Hin; apply (Hdisj _ Hin); left|]. split; [done|].
    apply NoDup_app. split; [done|]. split; [|done].
    intros x Hx Hx'. apply (Hdisj _ Hx). by right. }
  split; [|split; [|split; [|split]]].
  - rewrite take_S_lookup, fmap_app, Hreq. done.
  - rewrite N7, length_app. case_decide; cbv [awaited option_list option_rect]; cbn [length]; lia.
  - intros j Hj. apply insert_Returned in Hj as [Hj|[-> ->]].
    + specialize (Hret j Hj). lia.
    + case_decide; [done|lia].
  - rewrite fmap_app, Hrep, seq_S. done.
  - exists (served ++ match pushed with Some _ => [i] | None => [] end).
    split; [|split; [|exact E6]].
    + rewrite Hnew, N7. case_decide as Hidx; simpl.
      * assert (idx b ∉ served ++ i :: rest) as Hfresh.
        { intros Hin. specialize (Hlt _ Hin). lia. }
        destruct pushed.
        -- rewrite <- app_assoc. simpl.
           apply NoDup_app in Hnd as (Hs & Hdisj & Hr).
           apply NoDup_app. split; [done|]. split.
           ++ intros x Hx Hx'. apply elem_of_cons in Hx' as [->|Hx'].
              ** done.
              ** apply elem_of_cons in Hx' as [->|Hx'].
                 --- apply Hfresh. apply elem_of_app. by left.
                 --- apply (Hdisj _ Hx). by right.
           ++ apply NoDup_cons. split.
              ** intros [->|Hx]%elem_of_cons; [|done].
                 apply Hfresh. apply elem_of_app. right. left.
              ** apply NoDup_cons. split; [|by apply NoDup_cons in Hr as [_ ?]].
                 intros Hx. apply Hfresh. apply elem_of_app. right. by right.
        -- rewrite app_nil_r. apply NoDup_app in Hnd as (Hs & Hdisj & Hr).
           apply NoDup_app. split; [done|]. split.
           ++ intros x Hx [->|Hx']%elem_of_cons.
              ** apply Hfresh. apply elem_of_app. by left.
              ** apply (Hdisj _ Hx). by right.
           ++ apply NoDup_cons. split; [|by apply NoDup_cons in Hr as [_ ?]].
              intros Hx. apply Hfresh. apply elem_of_app. right. by right.
      * destruct pushed.
        -- rewrite <- app_assoc. simpl. exact Hnd.
        -- by rewrite app_nil_r.
    + intros j Hj.
      assert (j ∈ served ++ i :: rest \/ (j = idx b /\ (idx b < length urls)%nat)) as [Hin|[-> ?]].
      { rewrite Hnew, N7 in Hj. apply elem_of_app in Hj as [Hj|Hj].
        - apply elem_of_app in Hj as [Hj|Hj].
          + left. apply elem_of_app. by left.
          + destruct pushed; [|by apply elem_of_nil in Hj].
            apply list_elem_of_singleton in Hj as ->. left. apply elem_of_app. right. left.
        - case_decide; simpl in Hj.
          + apply elem_of_cons in Hj as [->|Hj]; [by right|].
            left. apply elem_of_app. right. by right.
          + left. apply elem_of_app. right. by right. }
      * specialize (Hlt _ Hin). lia.
      * lia.
Qed.

Lemma settle_consistent urls k s b b' :
  consistent urls b -> settle urls k s b = Some b' -> consistent urls b'.
Proof.
  intros Hc. unfold settle.
  destruct (workers b !! k) as [[i|i|]|] eqn:Hk; [| |done|done].
  - destruct s as [[|]|text|]; [| | done |]; intros [= <-].
    + destruct Hc as (Hreq & Hcount & Hret & Hrep & served & Hnd & Hlt & Hres).
      destruct (unanswered_insert (workers b) k (Fetching i) (Reading i) Hk)
        as (rest & Hold & Hnew).
      assert (omap awaited (<[k := Reading i]> (workers b)) ≡ₚ omap awaited (workers b)) as Hperm
        by (by rewrite Hold, Hnew).
      unfold consistent, withWorkers, unanswered in *.
      cbn [idx workers results completed requests reports].
      split; [done|]. split; [by rewrite Hperm|]. split.
      { intros j Hj. apply (insert_Returned (workers b) k (Reading i) j) in Hj as [Hj|[_ ?]];
        [by apply (Hret j)|done]. }
      split; [done|]. exists served.
      split; [by rewrite Hperm|]. split; [|done].
      intros j Hj. apply Hlt. by rewrite <- Hperm.
    + by apply (finishTurn_consistent urls k i (Fetching i) b None).
    + by apply (finishTurn_consistent urls k i (Fetching i) b None).
  - destruct s as [ok|text|]; [done| |]; intros [= <-].
    + by apply (finishTurn_consistent urls k i (Reading i) b (Some text)).
    + by apply (finishTurn_consistent urls k i (Reading i) b None).
Qed.

Lemma run_consistent urls turns b b' :
  consistent urls b -> run urls turns b = Some b' -> consistent urls b'.
Proof.
  revert b. induction turns as [|[k s] turns IH]; intros b Hc; cbn [run].
  - by intros [= <-].
  - destruct (settle urls k s b) as [b1|] eqn:E; [|done].
    apply IH. by eapply settle_consistent.
Qed.

Lemma spawn_consistent urls b :
  consistent urls b -> consistent urls (spawn urls b).
Proof.
  intros (Hreq & Hcount & Hret & Hrep & served & Hnd & Hlt & Hres).
  unfold spawn.
  pose proof (nextTurn_spec urls b) as (N1 & N2 & N3 & N4 & N5 & N6 & N7).
  destruct (nextTurn urls b) as [w b1]. cbn [fst snd] in *.
  unfold consistent, withWorkers, unanswered in *.
  cbn [idx workers results completed requests reports].
  rewrite N1, N2, N3, N4, N5, N6, omap_app. cbn [omap list_omap].
  assert (match awaited w with Some y => [y] | None => [] end =
          if decide (idx b < length urls)%nat then [idx b] else []) as ->.
  { rewrite N7. by case_decide. }
  split; [by rewrite take_S_lookup, fmap_app, Hreq|].
  split; [rewrite length_app; case_decide; cbn [length]; lia|].
  split.
  { intros j Hj. apply lookup_app_Some in Hj as [Hj|[_ Hj]].
    - specialize (Hret j Hj). lia.
    - apply list_lookup_singleton_Some in Hj as [_ Hw]. rewrite N7 in Hw.
      case_decide; [done|lia]. }
  split; [done|]. exists served. split; [|split; [|done]].
  - rewrite app_assoc. case_decide; [|by rewrite app_nil_r].
    apply NoDup_app. split; [done|]. split; [|apply NoDup_singleton].
    intros x Hx ->%list_elem_of_singleton. specialize (Hlt _ Hx). lia.
  - intros j Hj. rewrite app_assoc in Hj. apply elem_of_app in Hj as [Hj|Hj].
    + specialize (Hlt _ Hj). lia.
    + case_decide; [|by apply elem_of_nil in Hj].
      apply list_elem_of_singleton in Hj as ->. lia.
Qed.

(** After [n] calls of [worker], with [n] no more than there are
    urls: each has taken one url, in order. *)
Lemma spawned_spec urls n :
  (n <= length urls)%nat ->
  let b := Nat.iter n (spawn urls)
             {| idx := 0; workers := []; results := []; completed := 0;
                requests := []; reports := [] |} in
  consistent urls b /\ idx b = n /\ length (workers b) = n /\
  foldr (fun w acc => weight w + acc)%nat 0%nat (workers b) = (2 * n)%nat.
Proof.
  induction n as [|n IH]; intros Hn; cbv zeta.
  - cbn. repeat split; try done. exists []. repeat split; try done.
    + constructor.
    + intros i Hi. by apply elem_of_nil in Hi.
  - destruct IH as (Hc & Hidx & Hlen & Hw); [lia|].
    rewrite Nat.iter_succ. set (b := Nat.iter n _ _) in *.
    split; [by apply spawn_consistent|].
    unfold spawn. pose proof (nextTurn_spec urls b) as (N1 & N2 & _ & _ & _ & _ & N7).
    destruct (nextTurn urls b) as [w b1]. cbn [fst snd] in *.
    unfold withWorkers. cbn [idx workers].
    rewrite N1, N2, Hidx. split; [done|].
    rewrite length_app, Hlen. split; [cbn; lia|].
    rewrite foldr_app, weights_from, Hw. rewrite N7, Hidx, decide_True by lia.
    cbn [foldr weight]. lia.
Qed.

Lemma start_spec urls concurrency :
  let b := start urls concurrency in
  consistent urls b /\
  Z.of_nat (length (workers b)) = Z.max 0 (Z.min concurrency (Z.of_nat (length urls))) /\
  turnsLeft urls b = (2 * length urls)%nat.
Proof.
  cbv zeta. unfold start.
  set (n := Z.to_nat (Z.min concurrency (Z.of_nat (length urls)))).
  destruct (spawned_spec urls n) as (Hc & Hidx & Hlen & Hw); [lia|].
  split; [done|]. split; [lia|].
  unfold turnsLeft. rewrite Hidx, Hw. lia.
Qed.

Lemma settle_turnsLeft urls k s b b' :
  settle urls k s b = Some b' ->
  length (workers b') = length (workers b) /\
  (turnsLeft urls b' < turnsLeft urls b)%nat.
Proof.
  unfold settle.
  assert (forall i w0 b0, workers b0 !! k = Some w0 -> (1 <= weight w0)%nat ->
            length (workers (finishTurn urls k i b0)) = length (workers b0) /\
            (turnsLeft urls (finishTurn urls k i b0) < turnsLeft urls b0)%nat) as Hfin.
  { intros i w0 b0 Hk Hw. unfold finishTurn.
    set (b2 := {| idx := idx b0; workers := workers b0; results := results b0;
                  completed := S (completed b0); requests := requests b0;
                  reports := _ |}).
    pose proof (nextTurn_spec urls b2) as (N1 & N2 & _ & _ & _ & _ & N7).
    destruct (nextTurn urls b2) as [w b3]. cbn [fst snd] in *.
    unfold b2 in *. clear b2. unfold turnsLeft, withWorkers. cbn [idx workers] in *.
    rewrite N1, N2. split; [by rewrite length_insert|].
    pose proof (weights_insert (workers b0) k w0 w Hk) as Hsum.
    rewrite N7 in Hsum |- *. case_decide; cbn [weight] in Hsum; lia. }
  destruct (workers b !! k) as [[i|i|]|] eqn:Hk; [| |done|done].
  - destruct s as [[|]|text|]; [| | done |]; intros [= <-].
    + unfold turnsLeft, withWorkers. cbn [idx workers].
      split; [by rewrite length_insert|].
      pose proof (weights_insert (workers b) k (Fetching i) (Reading i) Hk) as Hsum.
      cbn [weight] in Hsum. lia.
    + by apply (Hfin i (Fetching i)); [|cbn; lia].
    + by apply (Hfin i (Fetching i)); [|cbn; lia].
  - destruct s as [ok|text|]; [done| |]; intros [= <-].
    + by apply (Hfin i (Reading i) (pushResult _ b)); [|cbn; lia].
    + by apply (Hfin i (Reading i)); [|cbn; lia].
Qed.

Lemma run_turnsLeft urls turns b b' :
  run urls turns b = Some b' ->
  length (workers b') = length (workers b) /\
  (length turns + turnsLeft urls b' <= turnsLeft urls b)%nat.
Proof.
  revert b. induction turns as [|[k s] turns IH]; intros b; cbn [run].
  - intros [= <-]. cbn. lia.
  - destruct (settle urls k s b) as [b1|] eqn:E; [|done].
    intros Hrun. apply settle_turnsLeft in E as [E1 E2].
    apply IH in Hrun as [H1 H2]. cbn [length]. split; [congruence|lia].
Qed.

Lemma dateOf_all urls : dateOf urls <$> seq 0 (length urls) = c_dateStr <$> urls.
Proof.
  apply list_eq. intros i. rewrite !list_lookup_fmap.
  destruct (decide (i < length urls)%nat) as [Hlt|Hge].
  - rewrite lookup_seq_lt by done. cbn. unfold dateOf.
    destruct (urls !! i) eqn:E; [done|]. apply lookup_ge_None in E. lia.
  - rewrite lookup_seq_ge by lia. rewrite (lookup_ge_None_2 urls) by lia. done.
Qed.

Lemma unanswered_length b : (length (unanswered b) <= length (workers b))%nat.
Proof.
  unfold unanswered. induction (workers b) as [|w ws IH]; [done|].
  cbn [omap list_omap]. destruct (awaited w); cbn [length]; lia.
Qed.

Lemma allReturned_unanswered b : allReturned b -> unanswered b = [].
Proof.
  unfold allReturned, unanswered. induction 1 as [|w ws -> _ IH]; [done|]. done.
Qed.

(** X14. When every worker of the fetch loop has returned, with a
    concurrency of one or more, [fetch] has been called once for each
    entry of [urls], in the order of the list, every call has been
    answered and reported to [onProgress] with the counts 1, 2, ... up
    to the number of urls, and the results carry the date keys of
    entries of the list, none of them more often than the list has
    it. *)
Theorem fetch_loop_asks_for_each_url_once urls concurrency turns b :
  1 <= concurrency ->
  run urls turns (start urls concurrency) = Some b -> allReturned b ->
  requests b = batchRequests urls /\
  completed b = length urls /\
  (fun r => r.1.1) <$> reports b = seq 1 (length urls) /\
  (f_dateStr <$> results b) ⊆+ (c_dateStr <$> urls).
Proof.
  intros Hconc Hrun Hall.
  destruct (start_spec urls concurrency) as (Hc0 & Hlen0 & _).
  pose proof (run_consistent _ _ _ _ Hc0 Hrun)
    as (Hreq & Hcount & Hret & Hrep & served & Hnd & Hlt & Hres).
  destruct (run_turnsLeft _ _ _ _ Hrun) as [Hlen _].
  rewrite (allReturned_unanswered b Hall) in *. rewrite app_nil_r in *. cbn [length] in Hcount.
  assert (length urls <= idx b)%nat as Hidx.
  { destruct urls as [|c urls]; [cbn; lia|].
    destruct (workers b) as [|w ws] eqn:Hws; [cbn [length] in *; lia|].
    assert (w = Returned) as -> by (unfold allReturned in Hall; rewrite Hws in Hall;
                                    by apply Forall_cons in Hall as [? _]).
    specialize (Hret 0%nat eq_refl). lia. }
  split; [|split; [|split]].
  - rewrite Hreq, take_ge by lia. done.
  - lia.
  - rewrite Hrep. f_equal. lia.
  - rewrite Hres, <- dateOf_all. apply fmap_submseteq.
    apply NoDup_submseteq; [done|]. intros i Hi. apply elem_of_seq.
    specialize (Hlt i Hi). lia.
Qed.

(** X14 on two urls and two workers: the second answer comes first
    and its file is read; the first request fails. *)
Lemma fetch_loop_asks_for_each_url_once_witness :
  let urls := [candidate (js "2020-01-16"); candidate (js "2020-02-01")] in
  exists b,
    run urls [(1%nat, Responded true); (0%nat, Rejected); (1%nat, Text (js "header"))]
        (start urls 30) = Some b /\
    requests b = batchRequests urls /\
    completed b = length urls /\
    (fun r => r.1.1) <$> reports b = seq 1 (length urls) /\
    (f_dateStr <$> results b) ⊆+ (c_dateStr <$> urls).
Proof.
  cbv zeta. eexists. split; [vm_compute; reflexivity|].
  eapply (fetch_loop_asks_for_each_url_once
            [candidate (js "2020-01-16"); candidate (js "2020-02-01")] 30
            [(1%nat, Responded true); (0%nat, Rejected); (1%nat, Text (js "header"))]).
  - lia.
  - vm_compute. reflexivity.
  - repeat constructor.
Defined.

(** X15. At every moment of a run of the fetch loop no more requests
    are unanswered than the concurrency allows, the calls of [fetch]
    made so far are those for the first [idx] entries of [urls], in
    order, and every one of them has been answered or is awaited by
    one worker. *)
Theorem fetch_loop_bounds_the_requests_in_flight urls concurrency turns b :
  run urls turns (start urls concurrency) = Some b ->
  Z.of_nat (length (unanswered b)) <= Z.max 0 concurrency /\
  requests b = c_url <$> take (idx b) urls /\
  (completed b + length (unanswered b) = idx b `min` length urls)%nat /\
  NoDup (unanswered b).
Proof.
  intros Hrun.
  destruct (start_spec urls concurrency) as (Hc0 & Hlen0 & _).
  pose proof (run_consistent _ _ _ _ Hc0 Hrun)
    as (Hreq & Hcount & _ & _ & served & Hnd & _ & _).
  destruct (run_turnsLeft _ _ _ _ Hrun) as [Hlen _].
  split; [|split; [done|split; [done|]]].
  - assert (length (unanswered b) <= length (workers b))%nat by apply unanswered_length. lia.
  - by apply NoDup_app in Hnd as (_ & _ & ?).
Qed.

(** X15 on three urls and two workers, after the first request has
    failed and the third has been sent. *)
Lemma fetch_loop_bounds_the_requests_in_flight_witness :
  let urls := [candidate (js "2020-01-16"); candidate (js "2020-02-01");
               candidate (js "2020-02-16")] in
  exists b,
    run urls [(0%nat, Rejected)] (start urls 2) = Some b /\
    Z.of_nat (length (unanswered b)) <= Z.max 0 2 /\
    requests b = c_url <$> take (idx b) urls /\
    (completed b + length (unanswered b) = idx b `min` length urls)%nat /\
    NoDup (unanswered b).
Proof.
  cbv zeta. eexists. split; [vm_compute; reflexivity|].
  eapply (fetch_loop_bounds_the_requests_in_flight
            [candidate (js "2020-01-16"); candidate (js "2020-02-01");
             candidate (js "2020-02-16")] 2 [(0%nat, Rejected)]).
  vm_compute. reflexivity.
Defined.

(** X16. A run of the fetch loop takes no more than two settlements
    for each url, whatever their order, and as long as a worker has
    not returned there is a worker waiting for a settlement. *)
Theorem fetch_loop_ends_within_two_turns_a_url urls concurrency turns b :
  run urls turns (start urls concurrency) = Some b ->
  (length turns <= 2 * length urls)%nat /\
  (~ allReturned b -> exists k, is_Some (settle urls k Rejected b)).
Proof.
  intros Hrun.
  destruct (start_spec urls concurrency) as (_ & _ & Hleft).
  destruct (run_turnsLeft _ _ _ _ Hrun) as [_ Hle].
  split; [lia|]. intros Hnot.
  apply not_Forall_Exists in Hnot; [|intros w; apply _].
  apply Exists_exists in Hnot as (w & Hw & Hne).
  apply list_elem_of_lookup in Hw as [k Hk]. exists k. unfold settle. rewrite Hk.
  destruct w; [by eexists|by eexists|exfalso; by apply Hne].
Qed.

(** X16 on two urls: one fails, the other is read. *)
Lemma fetch_loop_ends_within_two_turns_a_url_witness :
  let urls := [candidate (js "2020-01-16"); candidate (js "2020-02-01")] in
  let turns := [(1%nat, Responded true); (0%nat, Rejected); (1%nat, Text (js "header"))] in
  exists b,
    run urls turns (start urls 30) = Some b /\
    (length turns <= 2 * length urls)%nat /\
    (~ allReturned b -> exists k, is_Some (settle urls k Rejected b)).
Proof.
  cbv zeta. eexists. split; [vm_compute; reflexivity|].
  eapply (fetch_loop_ends_within_two_turns_a_url
            [candidate (js "2020-01-16"); candidate (js "2020-02-01")] 30
            [(1%nat, Responded true); (0%nat, Rejected); (1%nat, Text (js "header"))]).
  vm_compute. reflexivity.
Defined.

(** X17. With a concurrency of zero or less the loop starts no worker:
    it calls [fetch] for nothing and returns an empty list at once,
    whatever [urls] holds. *)
Theorem fetch_loop_without_workers_fetches_nothing urls concurrency :
  concurrency <= 0 ->
  allReturned (start urls concurrency) /\
  requests (start urls concurrency) = [] /\ results (start urls concurrency) = [].
Proof.
  intros Hc. unfold start.
  replace (Z.to_nat (Z.min concurrency (Z.of_nat (length urls)))) with 0%nat by lia.
  cbn. split; [constructor|done].
Qed.

(** X17 on one url. *)
Lemma fetch_loop_without_workers_fetches_nothing_witness :
  allReturned (start [candidate (js "2020-01-16")] 0) /\
  requests (start [candidate (js "2020-01-16")] 0) = [] /\
  results (start [candidate (js "2020-01-16")] 0) = [].
Proof.
  apply (fetch_loop_without_workers_fetches_nothing [candidate (js "2020-01-16")] 0). lia.
Defined.
End batch_fetch.

(** ** Objects and Maps *)

Lemma mapHas_false {V} k (m : list (jsstring * V)) : k ∉ m.*1 -> mapHas k m = false.
Proof. intros H. unfold mapHas. by apply bool_decide_eq_false. Qed.

Lemma objSet_plain {V} k (v : V) o :
  plainKey k -> k ∉ o.*1 -> objSet k v o = o ++ [(k, v)].
Proof.
  intros [Hidx Hproto] Hk. unfold objSet.
  rewrite decide_False by done. rewrite mapHas_false by done. by rewrite Hidx.
Qed.

Lemma mapSet_fresh {V} k (v : V) m : k ∉ m.*1 -> mapSet k v m = m ++ [(k, v)].
Proof. intros Hk. unfold mapSet. by rewrite mapHas_false. Qed.

Lemma foldl_objSet_plain {V} (store o : list (jsstring * V)) :
  NoDup (o.*1 ++ store.*1) -> Forall plainKey store.*1 ->
  foldl (fun o e => objSet e.1 e.2 o) o store = o ++ store.
Proof.
  revert o. induction store as [|[k v] store IH]; intros o Hnd Hplain.
  - by rewrite app_nil_r.
  - cbn [foldl fst snd]. rewrite fmap_cons in *. cbn [fst] in *.
    apply Forall_cons in Hplain as [Hk Hplain].
    rewrite objSet_plain; [|done|].
    + rewrite IH; [by rewrite <- app_assoc| |done].
      rewrite fmap_app, <- app_assoc. done.
    + apply NoDup_app in Hnd as (_ & Hd & _). intros Hin. apply (Hd _ Hin). left.
Qed.

Lemma toPlainObj_plain {V} (store : list (jsstring * V)) :
  NoDup store.*1 -> Forall plainKey store.*1 -> toPlainObj store = store.
Proof. intros Hnd Hplain. unfold toPlainObj. by rewrite foldl_objSet_plain. Qed.

Lemma setAll_fresh {V} (entries m : list (jsstring * V)) :
  NoDup (m.*1 ++ entries.*1) -> setAll entries m = m ++ entries.
Proof.
  unfold setAll. revert m. induction entries as [|[k v] entries IH]; intros m Hnd.
  - by rewrite app_nil_r.
  - cbn [foldl fst snd]. rewrite fmap_cons in *. cbn [fst] in *.
    rewrite mapSet_fresh.
    + rewrite IH; [by rewrite <- app_assoc|]. rewrite fmap_app, <- app_assoc. done.
    + apply NoDup_app in Hnd as (_ & Hd & _). intros Hin. apply (Hd _ Hin). left.
Qed.

Lemma newMap_distinct {V} (entries : list (jsstring * V)) :
  NoDup entries.*1 -> newMap entries = entries.
Proof. intros Hnd. unfold newMap. by rewrite setAll_fresh. Qed.

(** A key that stands for a date is a property like any other. *)
Lemma dateKey_plain k : is_Some (keyDate k) -> plainKey k.
Proof.
  intros [t Ht]. unfold keyDate in Ht.
  destruct k as [|y1 [|y2 [|y3 [|y4 [|h1 [|m1 [|m2 [|h2 [|d1 [|d2 [|]]]]]]]]]]]; try done.
  destruct (forallb isDigit _ && (h1 =? 45)%N && _ && _ && _ && _ && _) eqn:E; [|done].
  rewrite !andb_true_iff in E. destruct E as [[[[[[_ Hh] _] _] _] _] _].
  apply N.eqb_eq in Hh as ->. split; [|done].
  unfold arrayIndex.
  replace (forallb isDigit [y1; y2; y3; y4; 45%N; m1; m2; h2; d1; d2]) with false; [done|].
  symmetry. apply not_true_iff_false. rewrite forallb_forall. intros H.
  specialize (H 45%N). cbn in H. discriminate H. tauto.
Qed.

(** X18. What the analyzer saves comes back: a store keyed by dates,
    written to the cache as a plain object at one time and read within
    24 hours of it, is the store the page starts from, with the same
    dates in the same order. *)
Theorem saved_store_comes_back store now later :
  NoDup store.*1 -> Forall (fun k => is_Some (keyDate k)) store.*1 ->
  now <> 0 -> later - now < CACHE_TTL_MS ->
  revivedStore later (Some (savedBlob now store)) initialStore = store.
Proof.
  intros Hnd Hkeys Hnow Hlater.
  unfold revivedStore, savedBlob, acceptedSnapshot. cbn [fetchedAt data truthyNumber].
  replace (now =? 0) with false by (symmetry; by apply Z.eqb_neq).
  replace (later - now <? CACHE_TTL_MS) with true by (symmetry; by apply Z.ltb_lt).
  cbn [negb andb].
  rewrite toPlainObj_plain; [by apply newMap_distinct|done|].
  eapply Forall_impl; [exact Hkeys|]. apply dateKey_plain.
Qed.

(** X18 on the three dates, an hour later. *)
Lemma saved_store_comes_back_witness :
  revivedStore sampleInstant (Some (savedBlob (sampleInstant - 3600000) threeDates)) initialStore
  = threeDates.
Proof.
  apply (saved_store_comes_back threeDates (sampleInstant - 3600000) sampleInstant).
  - by_computation.
  - by_computation.
  - vm_compute. discriminate.
  - vm_compute. reflexivity.
Defined.

(** Keys that are array indices come back in the order of their
    numbers, and a key [__proto__] does not come back. *)
Lemma saved_store_reorders_indices :
  newMap (toPlainObj [(js "10", 1); (js "x", 2); (js "9", 3); (js "__proto__", 4)])
  = [(js "9", 3); (js "10", 1); (js "x", 2)].
Proof. vm_compute. reflexivity. Qed.

(** ** The parser worker and the parse phase *)

Section parse_phase.
Import BatchFetch.

Lemma parsedAlone_plain strict f :
  plainText (f_text f) ->
  parseTextToAggregate strict freshRealm (f_dateStr f) (f_text f)
  = (Normal (parsedAlone strict f), freshRealm).
Proof.
  intros Hplain. unfold parsedAlone.
  destruct (parse_plain strict (f_dateStr f) (f_text f) Hplain) as (agg & E & _).
  by rewrite E.
Qed.

Lemma parseFiles_plain strict files out :
  NoDup (out.*1 ++ (f_dateStr <$> files)) -> Forall plainFile files ->
  foldl (parseFile strict) (out, freshRealm) files
  = (out ++ parsedEntries strict files, freshRealm).
Proof.
  revert out. induction files as [|f files IH]; intros out Hnd Hplain.
  - cbn. by rewrite app_nil_r.
  - apply Forall_cons in Hplain as [[Hkey Htext] Hplain].
    cbn [foldl]. unfold parseFile at 2. cbn [fst snd].
    rewrite parsedAlone_plain by done.
    rewrite fmap_cons in Hnd.
    rewrite objSet_plain; [|done|].
    + rewrite IH; [|by rewrite fmap_app, <- app_assoc|done].
      unfold parsedEntries. rewrite fmap_cons, <- app_assoc. done.
    + apply NoDup_app in Hnd as (_ & Hd & _). intros Hin. apply (Hd _ Hin). left.
Qed.

Lemma parseBatch_plain strict files :
  NoDup (f_dateStr <$> files) -> Forall plainFile files ->
  parseBatch strict freshRealm files = (parsedEntries strict files, freshRealm).
Proof. intros Hnd Hplain. unfold parseBatch. by rewrite parseFiles_plain. Qed.

Lemma setAll_app {V} (e1 e2 m : list (jsstring * V)) :
  setAll (e1 ++ e2) m = setAll e2 (setAll e1 m).
Proof. unfold setAll. by rewrite foldl_app. Qed.

Lemma groups_plain strict fuel fetched store :
  (length fetched <= fuel)%nat ->
  NoDup (f_dateStr <$> fetched) -> Forall plainFile fetched ->
  foldl (fun st group =>
           let '(parsed, R') := parseBatch strict st.1 group in
           (R', setAll parsed st.2))
        (freshRealm, store) (groupsOf fuel 50 fetched)
  = (freshRealm, setAll (parsedEntries strict fetched) store).
Proof.
  revert fetched store. induction fuel as [|fuel IH]; intros fetched store Hlen Hnd Hplain.
  - destruct fetched; [done|cbn in Hlen; lia].
  - destruct fetched as [|f fetched]; [done|].
    cbn [groupsOf]. set (l := f :: fetched) in *. cbn [foldl fst snd].
    assert (take 50 l `sublist_of` l) as Hsub by apply sublist_take.
    rewrite parseBatch_plain.
    2:{ apply (sublist_NoDup _ (f_dateStr <$> l)); [exact Hnd|]. by apply fmap_sublist. }
    2:{ eapply Forall_of_sublist; [exact Hsub|exact Hplain]. }
    rewrite IH.
    + rewrite <- setAll_app. unfold parsedEntries. by rewrite <- fmap_app, take_drop.
    + rewrite length_drop. unfold l in *. cbn [length] in *. lia.
    + apply (sublist_NoDup _ (f_dateStr <$> l)); [exact Hnd|].
      apply fmap_sublist, sublist_drop.
    + eapply Forall_of_sublist; [apply sublist_drop|exact Hplain].
Qed.

(** X19. When the files fetched in a phase have plain keys, no two
    the same, and lines with plain tags, the worker's realm stays as
    it was, and the page sets for each file, in the order fetched,
    the aggregate the parser returns for that file on its own: neither
    the other files nor the grouping by 50 change a result. *)
Theorem parse_phase_takes_each_file_on_its_own strict store fetched :
  NoDup (f_dateStr <$> fetched) -> Forall plainFile fetched ->
  parsePhase strict (freshRealm, store) fetched
  = (freshRealm, setAll (parsedEntries strict fetched) store).
Proof.
  intros Hnd Hplain. unfold parsePhase. by apply groups_plain.
Qed.

#[local] Instance plainKey_dec k : Decision (plainKey k).
Proof. unfold plainKey. apply _. Defined.

#[local] Instance plainFile_dec f : Decision (plainFile f).
Proof. unfold plainFile. apply _. Defined.

(** X19 on two files. *)
Lemma parse_phase_takes_each_file_on_its_own_witness :
  let fetched := [ {| f_dateStr := js "2020-02-01"; f_text := threeTexts (js "2020-02-01") |};
                   {| f_dateStr := js "2020-01-16"; f_text := threeTexts (js "2020-01-16") |} ] in
  parsePhase false (freshRealm, []) fetched
  = (freshRealm, setAll (parsedEntries false fetched) []).
Proof.
  cbv zeta. apply parse_phase_takes_each_file_on_its_own; by_computation.
Defined.

Lemma mapGet_fmap {A V} (key : A -> jsstring) (h : A -> V) (l : list A) d :
  mapGet d ((fun f => (key f, h f)) <$> l) = h <$> mapGet d ((fun f => (key f, f)) <$> l).
Proof.
  induction l as [|f l IH]; [done|]. rewrite !fmap_cons. cbn [mapGet].
  case_decide; [done|exact IH].
Qed.

Lemma parsedAlone_wellFormed strict f : plainText (f_text f) -> wellFormed (parsedAlone strict f).
Proof.
  intros Hplain. eapply parser_result_wellFormed. by apply parsedAlone_plain.
Qed.

Lemma parsedAlone_counts strict f prize val :
  plainText (f_text f) -> prize ∈ PRIZE_LIST ->
  default 0 (countOf (parsedAlone strict f) prize val)
  = occurrences val (acceptedValues prize (f_text f)).
Proof.
  intros Hplain Hprize.
  destruct (parse_plain strict (f_dateStr f) (f_text f) Hplain) as (agg & E & _ & Hc & _).
  pose proof (parsedAlone_plain strict f Hplain) as E'. rewrite E in E'.
  injection E' as <-. rewrite Hc by done. unfold recorded.
  destruct (Z.eqb_spec (occurrences val (acceptedValues prize (f_text f))) 0); [|done].
  simpl. lia.
Qed.

Lemma parse_phase_store strict fetched :
  NoDup (f_dateStr <$> fetched) -> Forall plainFile fetched ->
  (parsePhase strict (freshRealm, []) fetched).2 = parsedEntries strict fetched.
Proof.
  intros Hnd Hplain. unfold parsePhase. rewrite groups_plain by done. cbn [snd].
  rewrite setAll_fresh; [done|]. cbn [fmap list_fmap app].
  unfold parsedEntries. rewrite <- list_fmap_compose. exact Hnd.
Qed.

(** X20. From the files to the table: when the files fetched have
    plain keys, no two the same, and lines with plain tags, and the
    page starts with an empty store, the total the Merge Engine holds
    for a value of a category is the number of times the value occurs
    among the accepted values of that category in the files of the
    selected dates. *)
Theorem shown_total_counts_the_files strict fetched selected prize val :
  NoDup (f_dateStr <$> fetched) -> Forall plainFile fetched -> prize ∈ PRIZE_LIST ->
  exists g,
    combineAggregatesForDates selected (parsePhase strict (freshRealm, []) fetched).2
      = Normal g /\
    totalCount g prize val = occurrencesOver fetched prize val selected.
Proof.
  intros Hnd Hplain Hprize.
  rewrite parse_phase_store by done.
  set (store := parsedEntries strict fetched).
  assert (wellFormedStore store) as Hwf.
  { unfold wellFormedStore, store, parsedEntries. rewrite Forall_fmap.
    eapply Forall_impl; [exact Hplain|]. intros f [_ Htext]. cbn.
    by apply parsedAlone_wellFormed. }
  destruct (combine_spec store selected Hwf) as (g & E & Hb).
  exists g. split; [exact E|].
  destruct (totalCount_spec store selected g prize val (Hb prize val Hprize)) as [-> _].
  clear E Hb. unfold sumOfFileCounts, occurrencesOver.
  induction selected as [|d selected IH]; [done|]. cbn [foldr]. rewrite IH. f_equal.
  unfold fileCount, occurrencesIn, fileOf, fetchedOf, store, parsedEntries.
  rewrite (mapGet_fmap f_dateStr (parsedAlone strict)).
  destruct (mapGet d ((fun f => (f_dateStr f, f)) <$> fetched)) as [f|] eqn:Hf; [|done].
  cbn [fmap option_fmap option_map mbind option_bind].
  apply mapGet_elem_of in Hf. apply list_elem_of_fmap in Hf as (f' & [= _ ->] & Hin).
  rewrite Forall_forall in Hplain. destruct (Hplain _ Hin) as [_ Htext].
  by apply parsedAlone_counts.
Qed.

(** X20 on two files, both selected. *)
Lemma shown_total_counts_the_files_witness :
  let fetched := [ {| f_dateStr := js "2020-02-01"; f_text := threeTexts (js "2020-02-01") |};
                   {| f_dateStr := js "2020-01-16"; f_text := threeTexts (js "2020-01-16") |} ] in
  exists g,
    combineAggregatesForDates [js "2020-01-16"; js "2020-02-01"]
      (parsePhase false (freshRealm, []) fetched).2 = Normal g /\
    totalCount g (js "TWO") (js "12")
    = occurrencesOver fetched (js "TWO") (js "12") [js "2020-01-16"; js "2020-02-01"].
Proof.
  cbv zeta. apply shown_total_counts_the_files; by_computation.
Defined.

Lemma shown_total_sample :
  occurrencesOver
    [ {| f_dateStr := js "2020-02-01"; f_text := threeTexts (js "2020-02-01") |};
      {| f_dateStr := js "2020-01-16"; f_text := threeTexts (js "2020-01-16") |} ]
    (js "TWO") (js "12") [js "2020-01-16"; js "2020-02-01"] = 3.
Proof. vm_compute. reflexivity. Qed.
End parse_phase.

(** ** The tables *)

Section stable_sort.
Context {A : Type} (le : A -> A -> bool) (key : A -> nat).
Hypothesis le_total : forall a b, le a b = true \/ le b a = true.
Hypothesis le_trans : forall a b c, le a b = true -> le b c = true -> le a c = true.

Lemma insertBy_stable x l :
  StronglySorted (before le key) l -> Forall (fun a => (key a < key x)%nat) l ->
  StronglySorted (before le key) (insertBy le x l).
Proof.
  intros Hs. induction Hs as [|y l Hs IH Hy]; intros Hk; simpl.
  - repeat constructor.
  - apply Forall_cons in Hk as [Hyk Hk]. destruct (le y x) eqn:Hle.
    + constructor; [by apply IH|]. rewrite insertBy_perm. by constructor.
    + destruct (le_total y x) as [?|Hxy]; [congruence|].
      constructor; [by constructor|]. constructor.
      * split; [done|]. intros ?. congruence.
      * eapply Forall_impl; [exact Hy|]. intros z [Hyz _].
        split; [by eapply le_trans|]. intros Hzx.
        assert (le y x = true) by (by eapply le_trans). congruence.
Qed.

Lemma sortBy_stable l :
  StronglySorted (fun a b => (key a < key b)%nat) l -> StronglySorted (before le key) (sortBy le l).
Proof.
  unfold sortBy.
  assert (forall acc,
            StronglySorted (before le key) acc ->
            Forall (fun a => Forall (fun x => (key a < key x)%nat) l) acc ->
            StronglySorted (fun a b => (key a < key b)%nat) l ->
            StronglySorted (before le key) (foldl (fun acc x => insertBy le x acc) acc l)) as H.
  { induction l as [|x l IH]; intros acc Hs Hk Hl; simpl; [done|].
    apply StronglySorted_inv in Hl as [Hl Hx]. apply IH; [| |done].
    - apply insertBy_stable; [done|].
      eapply Forall_impl; [exact Hk|]. intros a Ha. by apply Forall_cons in Ha as [? _].
    - rewrite insertBy_perm. constructor; [done|].
      eapply Forall_impl; [exact Hk|]. intros a Ha. by apply Forall_cons in Ha as [_ ?]. }
  intros Hl. apply H; [constructor|constructor|done].
Qed.
End stable_sort.

Lemma comesFirst_total showLeast a b :
  comesFirst showLeast a b = true \/ comesFirst showLeast b a = true.
Proof. unfold comesFirst. destruct showLeast; rewrite !Z.leb_le; lia. Qed.

Lemma comesFirst_trans showLeast a b c :
  comesFirst showLeast a b = true -> comesFirst showLeast b c = true ->
  comesFirst showLeast a c = true.
Proof. unfold comesFirst. destruct showLeast; rewrite !Z.leb_le; lia. Qed.

(** [slice(0, N)] keeps a front of the list: [N] entries, or all but
    the last [-N]. *)
Lemma slice_front {A} (l : list A) N :
  N <> 0 ->
  exists hidden,
    slice l 0 N ++ hidden = l /\
    Z.of_nat (length (slice l 0 N)) =
    if 0 <? N then Z.min N (Z.of_nat (length l)) else Z.max 0 (Z.of_nat (length l) + N).
Proof.
  intros HN. rewrite slice_first by done. destruct (Z.ltb_spec 0 N).
  - exists (drop (Z.to_nat N) l). split; [apply take_drop|]. rewrite length_take. lia.
  - exists (drop (length l - Z.to_nat (- N)) l). split; [apply take_drop|].
    rewrite length_take. lia.
Qed.

Lemma orDefault_five topN : orDefault topN 5 <> 0.
Proof.
  unfold orDefault. destruct topN as [n|]; [|done].
  destruct (Z.eqb_spec n 0); done.
Qed.

Lemma sorted_weaken {A} (R1 R2 : A -> A -> Prop) (l : list A) :
  (forall a b, R1 a b -> R2 a b) -> StronglySorted R1 l -> StronglySorted R2 l.
Proof.
  intros HR Hs. induction Hs as [|x l Hs IH Hx]; constructor; [done|].
  eapply Forall_impl; [exact Hx|]. apply HR.
Qed.

Lemma sorted_front {A} (R : A -> A -> Prop) (l1 l2 : list A) :
  StronglySorted R (l1 ++ l2) -> StronglySorted R l1.
Proof.
  induction l1 as [|x l1 IH]; simpl; intros Hs; [constructor|].
  apply StronglySorted_inv in Hs as [Hs Hx]. constructor; [by apply IH|].
  by apply Forall_app in Hx as [? _].
Qed.

(** X21. The table of a category shows a front of its entries ranked by
    count, highest first, or lowest first when "least" is ticked: [N]
    of them, all when there are fewer, for a positive [N], and all but
    the last [-N] for a negative one. No entry it leaves out ranks
    before one it shows. *)
Theorem table_shows_the_front_of_the_ranking showLeast topN data :
  let N := orDefault topN 5 in
  exists shown hidden,
    tableRows showLeast topN data = rowOf <$> shown /\
    shown ++ hidden ≡ₚ data /\
    Z.of_nat (length shown) =
      (if 0 <? N then Z.min N (Z.of_nat (length data))
       else Z.max 0 (Z.of_nat (length data) + N)) /\
    StronglySorted (fun a b => if showLeast then count a.2 <= count b.2
                               else count b.2 <= count a.2) (shown ++ hidden).
Proof.
  cbv zeta. unfold tableRows.
  destruct (slice_front (sortBy (comesFirst showLeast) data) (orDefault topN 5)
              (orDefault_five topN)) as (hidden & Happ & Hlen).
  exists (slice (sortBy (comesFirst showLeast) data) 0 (orDefault topN 5)), hidden.
  split; [done|]. rewrite Happ. split; [apply sortBy_perm|]. split.
  - rewrite Hlen. by rewrite (Permutation_length (sortBy_perm _ data)).
  - eapply sorted_weaken; [|apply (sortBy_ordered (comesFirst showLeast));
                             [apply comesFirst_total|apply comesFirst_trans]].
    intros a b. unfold comesFirst. destruct showLeast; apply Z.leb_le.
Qed.

(** X21 on three values with the default [N]: the ranking of all
    three. *)
Example table_sample :
  tableRows false None
    [(js "123456", {| count := 1; dates := [js "2020-01-16"] |});
     (js "000001", {| count := 3; dates := [js "2020-03-01"; js "2020-02-16"; js "2020-02-01"] |});
     (js "654321", {| count := 2; dates := [js "2020-03-16"; js "2020-01-16"] |})]
  = [{| r_val := js "000001"; r_count := 3;
        r_dates := [js "2020-03-01"; js "2020-02-16"; js "2020-02-01"] |};
     {| r_val := js "654321"; r_count := 2; r_dates := [js "2020-03-16"; js "2020-01-16"] |};
     {| r_val := js "123456"; r_count := 1; r_dates := [js "2020-01-16"] |}].
Proof. vm_compute. reflexivity. Qed.

Lemma seq_ascending a n : StronglySorted lt (seq a n).
Proof.
  revert a. induction n as [|n IH]; intros a; simpl; constructor; [apply IH|].
  apply Forall_forall. intros x Hx. apply elem_of_seq in Hx. lia.
Qed.

Lemma sorted_of_keys {A} (key : A -> nat) (l : list A) :
  StronglySorted lt (key <$> l) -> StronglySorted (fun a b => (key a < key b)%nat) l.
Proof.
  induction l as [|x l IH]; intros Hs; [constructor|].
  rewrite fmap_cons in Hs. apply StronglySorted_inv in Hs as [Hs Hx].
  constructor; [by apply IH|]. by rewrite Forall_fmap in Hx.
Qed.

Lemma twoNumber_pad2 (i : nat) bucket :
  (i < 100)%nat -> twoNumber (pad2 (Z.of_nat i), bucket) = i.
Proof.
  intros Hi.
  assert (forallb (fun k => bool_decide (Z.to_nat (digitsValue (pad2 (Z.of_nat k))) = k))
                  (seq 0 100) = true) as H by (vm_compute; reflexivity).
  rewrite forallb_forall in H. specialize (H i).
  unfold twoNumber. cbn [fst]. apply bool_decide_eq_true in H; [done|].
  apply in_seq. lia.
Qed.

Lemma twoData_ascending bucket :
  StronglySorted (fun a b => (twoNumber a < twoNumber b)%nat) (twoData bucket).
Proof.
  apply sorted_of_keys. unfold twoData. rewrite <- list_fmap_compose.
  replace ((twoNumber ∘ _) <$> seq 0 100) with (id <$> seq 0 100).
  { rewrite list_fmap_id. apply seq_ascending. }
  apply list_fmap_ext. intros k i Hi. unfold compose.
  apply lookup_seq in Hi as [-> Hi]. symmetry. by apply twoNumber_pad2.
Qed.

(** X22. Every row of the table of [TWO] is one of the hundred numbers
    [00] to [99] with the count the merge holds for it, or zero; the
    rows are ranked by count, and of two rows with the same count the
    smaller number comes first, in either direction of the ranking. *)
Theorem two_table_breaks_ties_by_number showLeast topN bucket :
  let rows := tableRows showLeast topN (twoData bucket) in
  (forall r, r ∈ rows ->
     exists i, 0 <= i < 100 /\ r_val r = pad2 i /\
               r_count r = count (default emptyBucket (bucket !! pad2 i))) /\
  StronglySorted
    (fun r1 r2 =>
       (if showLeast then r_count r1 <= r_count r2 else r_count r2 <= r_count r1) /\
       (r_count r1 = r_count r2 -> digitsValue (r_val r1) < digitsValue (r_val r2))) rows.
Proof.
  cbv zeta. unfold tableRows.
  destruct (slice_front (sortBy (comesFirst showLeast) (twoData bucket)) (orDefault topN 5)
              (orDefault_five topN)) as (hidden & Happ & _).
  set (shown := slice _ 0 _) in *.
  assert (forall e, e ∈ twoData bucket ->
            exists i : nat, (i < 100)%nat /\ e.1 = pad2 (Z.of_nat i) /\
                            e.2 = default emptyBucket (bucket !! pad2 (Z.of_nat i)) /\
                            twoNumber e = i) as Hdata.
  { intros e He. unfold twoData in He. apply list_elem_of_fmap in He as (i & -> & Hi).
    apply elem_of_seq in Hi. exists i. cbn [fst snd].
    repeat split; [lia|]. apply twoNumber_pad2. lia. }
  split.
  - intros r Hr. apply list_elem_of_fmap in Hr as (e & -> & He).
    assert (e ∈ twoData bucket) as He'.
    { rewrite <- (sortBy_perm (comesFirst showLeast)), <- Happ. apply elem_of_app. by left. }
    destruct (Hdata e He') as (i & Hi & H1 & H2 & _).
    exists (Z.of_nat i). cbn [rowOf r_val r_count]. rewrite H1, H2. split; [lia|done].
  - pose proof (sortBy_stable (comesFirst showLeast) twoNumber (comesFirst_total showLeast)
                  (comesFirst_trans showLeast) _ (twoData_ascending bucket)) as Hs.
    rewrite <- Happ in Hs. apply sorted_front in Hs.
    assert (forall e, e ∈ shown -> 0 <= digitsValue e.1 /\ e ∈ twoData bucket) as Hin.
    { intros e He.
      assert (e ∈ twoData bucket) as He'.
      { rewrite <- (sortBy_perm (comesFirst showLeast)), <- Happ. apply elem_of_app. by left. }
      split; [|done]. destruct (Hdata e He') as (i & Hi & H1 & _ & _).
      assert (forallb (fun k => 0 <=? digitsValue (pad2 (Z.of_nat k))) (seq 0 100) = true) as H
        by (vm_compute; reflexivity).
      rewrite forallb_forall in H. rewrite H1. apply Z.leb_le, H.
      apply in_seq. lia. }
    clear Happ. induction Hs as [|e l Hs IH He]; [constructor|].
    rewrite fmap_cons. constructor.
    + apply IH. intros e' He'. apply Hin. by right.
    + rewrite Forall_fmap. apply Forall_forall. intros e' He'.
      rewrite Forall_forall in He. destruct (He e' He') as [Hle Htie].
      cbn [compose rowOf r_val r_count]. unfold comesFirst in *.
      destruct (Hin e (list_elem_of_here _ _)) as [H0 _].
      destruct (Hin e' (list_elem_of_further _ _ _ He')) as [H0' _].
      unfold twoNumber in Htie.
      destruct showLeast; rewrite ?Z.leb_le in *; (split; [done|]); intros Heq;
        (assert (Z.to_nat (digitsValue e.1) < Z.to_nat (digitsValue e'.1))%nat as Hlt
           by (apply Htie; lia)); lia.
Qed.

(** X22 with nothing merged: the first five numbers. *)
Example two_table_without_data :
  r_val <$> tableRows false None (twoData ∅) = [js "00"; js "01"; js "02"; js "03"; js "04"].
Proof. vm_compute. reflexivity. Qed.

(** ** The recent wins *)

Lemma winsOfDate_numbersOn prize resultsByDate date :
  ~ inheritedName prize ->
  winsOfDate prize resultsByDate date = Normal (numbersOn prize resultsByDate date).
Proof.
  intros Hp. unfold numbersOn, winsOfDate.
  destruct (resultsByDate !! date) as [dateEntry|]; [|done].
  destruct (dateEntry !! prize) as [numsStr|].
  - by destruct (nonEmpty numsStr).
  - by rewrite decide_False.
Qed.

Lemma numbersOn_date prize resultsByDate date win :
  win ∈ numbersOn prize resultsByDate date ->
  win.1 = date /\
  exists dateEntry numsStr,
    resultsByDate !! date = Some dateEntry /\ dateEntry !! prize = Some numsStr /\
    win.2 ∈ CsvPage.numbersOf numsStr.
Proof.
  unfold numbersOn, winsOfDate. intros Hw.
  destruct (resultsByDate !! date) as [dateEntry|] eqn:Hd; [|by apply elem_of_nil in Hw].
  destruct (dateEntry !! prize) as [numsStr|] eqn:Hn.
  - destruct (nonEmpty numsStr); [|by apply elem_of_nil in Hw].
    apply list_elem_of_fmap in Hw as (num & -> & Hnum). split; [done|].
    by exists dateEntry, numsStr.
  - destruct (decide _); by apply elem_of_nil in Hw.
Qed.

Lemma winsLoop_spec prize resultsByDate sorted individualWins :
  ~ inheritedName prize -> (length individualWins < 50)%nat ->
  exists k,
    (k <= length sorted)%nat /\
    winsLoop prize resultsByDate sorted individualWins =
      Normal (individualWins ++ (take k sorted ≫= numbersOn prize resultsByDate)) /\
    ((k < length sorted)%nat ->
     (50 <= length (individualWins ++ (take k sorted ≫= numbersOn prize resultsByDate)))%nat) /\
    (length (individualWins ++ (take (k - 1) sorted ≫= numbersOn prize resultsByDate)) < 50)%nat.
Proof.
  intros Hp. revert individualWins.
  induction sorted as [|date rest IH]; intros acc Hacc.
  - exists 0%nat. cbn. rewrite app_nil_r. repeat split; [lia|lia|done].
  - cbn [winsLoop]. rewrite winsOfDate_numbersOn by done.
    destruct (Nat.leb_spec 50 (length (acc ++ numbersOn prize resultsByDate date))) as [Hge|Hlt].
    + exists 1%nat. cbn [take length Nat.sub]. rewrite bind_cons. cbn [mbind list_bind].
      rewrite !app_nil_r. repeat split; [lia|done|done].
    + destruct (IH _ Hlt) as (k & Hk & Hrun & Hcut & Hbefore).
      exists (S k). cbn [take length]. rewrite bind_cons, app_assoc.
      repeat split; [lia|done|intros ?; apply Hcut; lia|].
      replace (S k - 1)%nat with k by lia. destruct k as [|j].
      * cbn. rewrite app_nil_r. lia.
      * cbn [take]. rewrite bind_cons, app_assoc. by replace (S j - 1)%nat with j in Hbefore by lia.
Qed.

Lemma bind_ordered {A B} (R : A -> A -> Prop) (key : B -> A) (f : A -> list B) (l : list A) :
  (forall a, R a a) -> (forall a b, b ∈ f a -> key b = a) ->
  StronglySorted R l -> StronglySorted (fun x y => R (key x) (key y)) (l ≫= f).
Proof.
  intros Hrefl Hkey Hs. induction Hs as [|a l Hs IH Ha]; [constructor|].
  rewrite bind_cons.
  assert (Forall (fun y => R a (key y)) (l ≫= f)) as Hrest.
  { apply Forall_forall. intros y Hy. apply list_elem_of_bind in Hy as (a' & Hy & Ha').
    rewrite (Hkey _ _ Hy). rewrite Forall_forall in Ha. by apply Ha. }
  assert (forall group, (forall b, b ∈ group -> key b = a) ->
            StronglySorted (fun x y => R (key x) (key y)) (group ++ (l ≫= f))) as H.
  { induction group as [|b group IHg]; intros Hg; [done|].
    simpl. constructor; [apply IHg; intros; apply Hg; by right|].
    rewrite (Hg b) by left. apply Forall_app. split; [|done].
    apply Forall_forall. intros b' Hb'. rewrite (Hg b') by (by right). apply Hrefl. }
  apply H. intros b. apply Hkey.
Qed.

(** X23. For a prize that names no member of [Object.prototype] the
    list of recent wins is made of the numbers of the first [k]
    selected dates, the latest date first, each date with all its
    numbers: the loop goes on to the next date as long as fewer than 50
    wins are listed, so the list is cut only after the date that takes
    it to 50 or more, never within a date. *)
Theorem recent_wins_stop_after_a_whole_date prize resultsByDate dateMap selectedDates :
  ~ inheritedName prize ->
  let sorted := latestFirst dateMap selectedDates in
  exists k wins,
    (k <= length sorted)%nat /\
    winsLoop prize resultsByDate sorted [] = Normal wins /\
    wins = take k sorted ≫= numbersOn prize resultsByDate /\
    ((k < length sorted)%nat -> (50 <= length wins)%nat) /\
    (length (take (k - 1) sorted ≫= numbersOn prize resultsByDate) < 50)%nat /\
    StronglySorted (fun a b => strLe b.1 a.1 = true) wins.
Proof.
  intros Hp sorted.
  destruct (winsLoop_spec prize resultsByDate sorted [] Hp) as (k & Hk & Hrun & Hcut & Hbefore);
    [cbn; lia|].
  exists k, (take k sorted ≫= numbersOn prize resultsByDate).
  repeat split; [done|done|done|done|].
  apply (bind_ordered (fun a b => strLe b a = true) fst).
  - intros a. by destruct (strLe_total a a).
  - intros a b Hb. by apply numbersOn_date in Hb as [? _].
  - apply (sorted_front _ _ (drop k sorted)). rewrite take_drop.
    apply (sortBy_ordered (fun a b => strLe b a)).
    + intros a b. destruct (strLe_total a b); tauto.
    + intros a b c H1 H2. by eapply strLe_trans.
Qed.

(** X23 on a prize with 30 numbers a draw: the list takes both dates
    and holds 60 wins. *)
Lemma recent_wins_stop_after_a_whole_date_witness :
  let numbers := join [44%N] (replicate 30 (js "123456")) in
  let resultsByDate : gmap jsstring (gmap jsstring jsstring) :=
    {[ js "2020-01-16" := {[ js "FOURTH" := numbers ]};
       js "2020-02-01" := {[ js "FOURTH" := numbers ]};
       js "2019-12-30" := {[ js "FOURTH" := numbers ]} ]} in
  let dateMap := [ {| de_dateStr := js "2019-12-30"; de_date := None |};
                   {| de_dateStr := js "2020-01-16"; de_date := None |};
                   {| de_dateStr := js "2020-02-01"; de_date := None |} ] in
  let sorted := latestFirst dateMap (de_dateStr <$> dateMap) in
  exists k wins,
    (k <= length sorted)%nat /\
    winsLoop (js "FOURTH") resultsByDate sorted [] = Normal wins /\
    wins = take k sorted ≫= numbersOn (js "FOURTH") resultsByDate /\
    ((k < length sorted)%nat -> (50 <= length wins)%nat) /\
    (length (take (k - 1) sorted ≫= numbersOn (js "FOURTH") resultsByDate) < 50)%nat /\
    StronglySorted (fun a b => strLe b.1 a.1 = true) wins.
Proof.
  cbv zeta. eapply recent_wins_stop_after_a_whole_date.
  apply (bool_decide_unpack _). vm_compute. exact I.
Defined.

Example recent_wins_sample :
  let numbers := join [44%N] (replicate 30 (js "123456")) in
  let resultsByDate : gmap jsstring (gmap jsstring jsstring) :=
    {[ js "2020-01-16" := {[ js "FOURTH" := numbers ]};
       js "2020-02-01" := {[ js "FOURTH" := numbers ]};
       js "2019-12-30" := {[ js "FOURTH" := numbers ]} ]} in
  let dateMap := [ {| de_dateStr := js "2019-12-30"; de_date := None |};
                   {| de_dateStr := js "2020-01-16"; de_date := None |};
                   {| de_dateStr := js "2020-02-01"; de_date := None |} ] in
  winsLoop (js "FOURTH") resultsByDate (latestFirst dateMap (de_dateStr <$> dateMap)) [] =
  Normal (replicate 30 (js "2020-02-01", js "123456") ++
          replicate 30 (js "2020-01-16", js "123456")).
Proof. vm_compute. reflexivity. Qed.

(** ** The grid of the recent wins *)

Lemma lookups_of_seq {A} (l : list A) n :
  (length l <= n)%nat ->
  (fun i => l !! i) <$> seq 0 n = (Some <$> l) ++ replicate (n - length l) None.
Proof.
  intros Hn. apply list_eq. intros i. rewrite list_lookup_fmap.
  destruct (decide (i < n)%nat) as [Hi|Hi].
  - rewrite lookup_seq_lt by done. cbn.
    destruct (decide (i < length l)%nat) as [Hl|Hl].
    + rewrite lookup_app_l by (rewrite length_fmap; lia).
      rewrite list_lookup_fmap. destruct (lookup_lt_is_Some_2 l i Hl) as [x Hx]. by rewrite Hx.
    + rewrite lookup_app_r by (rewrite length_fmap; lia).
      rewrite length_fmap, lookup_replicate_2 by lia.
      by rewrite lookup_ge_None_2 by lia.
  - rewrite lookup_seq_ge by lia. symmetry. apply lookup_ge_None_2.
    rewrite length_app, length_fmap, length_replicate. lia.
Qed.

Lemma grid_cells {A} (l : list A) rows :
  concat ((fun row => (fun col => l !! (row * 5 + col)%nat) <$> seq 0 5) <$> seq 0 rows) =
  (fun i => l !! i) <$> seq 0 (rows * 5).
Proof.
  induction rows as [|rows IH]; [done|].
  rewrite (seq_S rows 0), fmap_app, concat_app, IH.
  replace (S rows * 5)%nat with (rows * 5 + 5)%nat by lia.
  rewrite seq_app, fmap_app. f_equal.
  rewrite (Nat.add_0_l (rows * 5)), <- (Nat.add_0_r (rows * 5)) at 1.
  rewrite <- (fmap_add_seq (rows * 5) 0 5), <- list_fmap_compose.
  rewrite Nat.add_0_l. cbn. done.
Qed.

(** X24. The grid of the recent wins has five cells in every row and
    holds the wins in their order, one to a cell, followed by fewer
    than five empty cells: no win is left out or shown twice, and a row
    is never all empty. *)
Theorem wins_grid_shows_each_win_once {A} (individualWins : list A) :
  Forall (fun row => length row = 5%nat) (winsGrid individualWins) /\
  exists blank,
    (blank < 5)%nat /\
    concat (winsGrid individualWins) = (Some <$> individualWins) ++ replicate blank None.
Proof.
  unfold winsGrid. split.
  - apply Forall_fmap, Forall_forall. intros row _. done.
  - set (n := length individualWins).
    exists ((n + 4) / 5 * 5 - n)%nat.
    pose proof (Nat.div_mod_eq (n + 4) 5) as Hdiv.
    pose proof (Nat.mod_upper_bound (n + 4) 5) as Hmod.
    split; [lia|]. rewrite grid_cells. apply lookups_of_seq. fold n. lia.
Qed.

Example wins_grid_sample :
  winsGrid [1; 2; 3; 4; 5; 6; 7] =
  [[Some 1; Some 2; Some 3; Some 4; Some 5]; [Some 6; Some 7; None; None; None]].
Proof. reflexivity. Qed.

(** ** The number of drawings of a category *)

Section map_sum.
Context {V : Type} (w : V -> Z).

Lemma mapSum_fresh (m : gmap jsstring V) k v :
  m !! k = None -> mapSum w (<[k:=v]> m) = mapSum w m + w v.
Proof.
  intros Hk. unfold mapSum. rewrite map_fold_insert_L; [done| |done].
  intros. lia.
Qed.

Lemma mapSum_insert (m : gmap jsstring V) k v :
  mapSum w (<[k:=v]> m) = mapSum w m - from_option w 0 (m !! k) + w v.
Proof.
  destruct (m !! k) as [old|] eqn:Hk.
  - rewrite <- (insert_delete_id m k old) by done. rewrite insert_insert_eq.
    rewrite !mapSum_fresh by apply lookup_delete_eq. cbn. lia.
  - rewrite mapSum_fresh by done. cbn. lia.
Qed.

Lemma mapSum_list (m : gmap jsstring V) :
  mapSum w m = foldr (fun e s => s + w e.2) 0 (map_to_list m).
Proof.
  unfold mapSum. rewrite map_fold_foldr.
  generalize (map_to_list m). intros l. induction l as [|[k v] l IH]; [done|].
  cbn. by rewrite IH.
Qed.
End map_sum.

Lemma recordEntry_drawings prize date e g g' p :
  recordEntry prize date e g = Normal g' ->
  drawings g' p = drawings g p + (if decide (p = prize) then e.2 else 0).
Proof.
  destruct e as [val cnt]. unfold recordEntry, drawings.
  destruct (counts g !! prize) as [bucket|] eqn:Hb; [|done].
  assert (forall b,
            default ∅ (<[prize := <[val := b]> bucket]> (counts g) !! p) =
            (if decide (p = prize) then <[val := b]> bucket else default ∅ (counts g !! p))) as Hl.
  { intros b. destruct (decide (p = prize)) as [->|Hp].
    - by rewrite lookup_insert_eq.
    - by rewrite lookup_insert_ne. }
  destruct (bucket !! val) as [b|] eqn:Hv.
  - intros [= <-]. cbn [counts snd]. rewrite Hl.
    destruct (decide (p = prize)) as [->|Hp]; [|lia].
    rewrite Hb. cbn [default from_option]. unfold id. fold (mapSum count (<[val:=addTo b cnt date]> bucket)).
    fold (mapSum count bucket). rewrite mapSum_insert, Hv. unfold addTo. cbn [from_option count]. lia.
  - destruct (decide (inheritedName val)); [done|]. intros [= <-]. cbn [counts snd]. rewrite Hl.
    destruct (decide (p = prize)) as [->|Hp]; [|lia].
    rewrite Hb. cbn [default from_option]. unfold id.
    fold (mapSum count (<[val:=addTo {| count := 0; dates := [] |} cnt date]> bucket)).
    fold (mapSum count bucket). rewrite mapSum_insert, Hv. unfold addTo. cbn [from_option count]. lia.
Qed.

Lemma recordEntries_drawings prize date l g g' p :
  forOf (recordEntry prize date) l g = Normal g' ->
  drawings g' p =
  drawings g p + (if decide (p = prize) then foldr (fun e s => s + e.2) 0 l else 0).
Proof.
  revert g. induction l as [|e l IH]; intros g.
  - intros [= <-]. case_decide; cbn; lia.
  - cbn [forOf]. unfold mbind, completion_bind.
    destruct (recordEntry prize date e g) as [g1|] eqn:E1; [|done].
    intros E. apply (recordEntry_drawings _ _ _ _ _ p) in E1. apply IH in E.
    rewrite E, E1. case_decide; cbn; lia.
Qed.

Lemma mergePrize_drawings date agg prize g g' p :
  mergePrize date agg prize g = Normal g' ->
  drawings g' p = drawings g p + (if decide (p = prize) then aggDrawings agg prize else 0).
Proof.
  unfold mergePrize. unfold mbind, completion_bind.
  destruct (forOf (recordEntry prize date) _ g) as [g1|] eqn:E1; [|done].
  intros E. apply (recordEntries_drawings _ _ _ _ _ p) in E1.
  apply (mergePods_digits prize _ 0%nat) in E as (Hc & _ & _).
  unfold drawings at 1. rewrite Hc. fold (drawings g1 p). rewrite E1.
  case_decide; [|done]. f_equal. unfold aggDrawings.
  symmetry. apply (mapSum_list (fun c : Z => c)).
Qed.

Lemma mergePrizes_drawings date agg (l : list jsstring) g g' p :
  NoDup l ->
  forOf (mergePrize date agg) l g = Normal g' ->
  drawings g' p = drawings g p + (if decide (p ∈ l) then aggDrawings agg p else 0).
Proof.
  intros Hnd. revert g. induction Hnd as [|prize l Hnotin Hnd IH]; intros g.
  - intros [= <-]. rewrite decide_False; [lia|]. apply not_elem_of_nil.
  - cbn [forOf]. unfold mbind, completion_bind.
    destruct (mergePrize date agg prize g) as [g1|] eqn:E1; [|done].
    intros E. apply (mergePrize_drawings _ _ _ _ _ p) in E1. apply IH in E.
    rewrite E, E1. destruct (decide (p = prize)) as [->|Hp].
    + rewrite (decide_False (P := prize ∈ l)) by done.
      rewrite decide_True by left. lia.
    + destruct (decide (p ∈ l)) as [Hin|Hout].
      * rewrite decide_True by (by right). lia.
      * rewrite decide_False; [lia|]. intros [?|?]%elem_of_cons; done.
Qed.

Lemma mergeDate_drawings store date g g' p :
  p ∈ PRIZE_LIST ->
  mergeDate store date g = Normal g' -> drawings g' p = drawings g p + fileDrawings store p date.
Proof.
  intros Hp. unfold mergeDate, fileDrawings.
  destruct (mapGet date store) as [agg|]; [|intros [= <-]; cbn; lia].
  unfold mbind at 1, completion_bind.
  destruct (forOf (mergePrize date agg) PRIZE_LIST g) as [g1|] eqn:E1; [|done].
  intros [= <-]. apply (mergePrizes_drawings _ _ _ _ _ p) in E1; [|apply NoDup_PRIZE_LIST].
  rewrite decide_True in E1 by done. cbn [from_option]. rewrite <- E1.
  unfold storeResults, drawings. by case_decide.
Qed.

Lemma mergeDates_drawings store selected g g' p :
  p ∈ PRIZE_LIST ->
  forOf (mergeDate store) selected g = Normal g' ->
  drawings g' p = drawings g p + sumOfFileDrawings store p selected.
Proof.
  intros Hp. revert g. induction selected as [|date selected IH]; intros g.
  - intros [= <-]. cbn. lia.
  - cbn [forOf]. unfold mbind, completion_bind.
    destruct (mergeDate store date g) as [g1|] eqn:E1; [|done].
    intros E. apply (mergeDate_drawings _ _ _ _ p Hp) in E1. apply IH in E.
    rewrite E, E1. cbn [sumOfFileDrawings foldr]. unfold sumOfFileDrawings. lia.
Qed.

Lemma resetCounts_drawings p : drawings resetCounts p = 0.
Proof.
  unfold drawings. destruct (counts resetCounts !! p) as [bucket|] eqn:E; [|done].
  unfold resetCounts in E. cbn [counts] in E.
  apply elem_of_list_to_map_2 in E.
  by apply list_elem_of_fmap in E as (q & [= -> ->] & _).
Qed.

(** X25. On a store of well-formed aggregates the number of drawings
    the page shows for a category, the sum of the counts of all its
    values, is the number of occurrences the files of the selected
    dates hold for the category, all values taken together. *)
Theorem drawings_add_up_over_the_files store selected prize :
  wellFormedStore store -> prize ∈ PRIZE_LIST ->
  exists g, combineAggregatesForDates selected store = Normal g /\
    drawings g prize = sumOfFileDrawings store prize selected.
Proof.
  intros Hwf Hprize.
  destruct (combine_spec store selected Hwf) as (g & E & _).
  exists g. split; [exact E|].
  unfold combineAggregatesForDates in E.
  apply (mergeDates_drawings _ _ _ _ prize Hprize) in E.
  rewrite E, resetCounts_drawings. lia.
Qed.

(** X25 on the three dates. *)
Lemma drawings_add_up_over_the_files_witness :
  exists g, combineAggregatesForDates threeSelected threeDates = Normal g /\
    drawings g (js "TWO") = sumOfFileDrawings threeDates (js "TWO") threeSelected.
Proof.
  apply (drawings_add_up_over_the_files threeDates threeSelected (js "TWO")); by_computation.
Defined.

Lemma recorded_default n : default 0 (recorded n) = n.
Proof. unfold recorded. destruct (Z.eqb_spec n 0); cbn; lia. Qed.

Lemma occurrences_step val x l :
  occurrences val (x :: l) = occurrences val l + (if decide (x = val) then 1 else 0).
Proof.
  unfold occurrences. rewrite filter_cons. case_decide; cbn [length]; lia.
Qed.

(** A map that counts the occurrences in a list sums to its length. *)
Lemma counting_map_sum (l : list jsstring) (m : gmap jsstring Z) :
  (forall val, m !! val = recorded (occurrences val l)) ->
  mapSum (fun c : Z => c) m = Z.of_nat (length l).
Proof.
  revert m. induction l as [|x l IH]; intros m Hm.
  - assert (m = ∅) as -> by (apply map_empty; intros val; by rewrite Hm).
    unfold mapSum. by rewrite map_fold_empty.
  - set (m' := match recorded (occurrences x l) with
               | Some c => <[x := c]> m
               | None => delete x m
               end).
    assert (forall val, m' !! val = recorded (occurrences val l)) as Hm'.
    { intros val. unfold m'. destruct (decide (val = x)) as [->|Hne].
      - destruct (recorded (occurrences x l)) as [c|] eqn:E.
        + by rewrite lookup_insert_eq.
        + by rewrite lookup_delete_eq.
      - assert (m !! val = recorded (occurrences val l)) as <-.
        { rewrite Hm, occurrences_step. rewrite decide_False by done. f_equal. lia. }
        destruct (recorded (occurrences x l)).
        + by rewrite lookup_insert_ne.
        + by rewrite lookup_delete_ne. }
    assert (m = <[x := occurrences x l + 1]> m') as Heq.
    { apply map_eq. intros val. destruct (decide (val = x)) as [->|Hne].
      - rewrite lookup_insert_eq, Hm, occurrences_step. rewrite decide_True by done.
        pose proof (occurrences_nonneg x l). unfold recorded.
        destruct (Z.eqb_spec (occurrences x l + 1) 0); [lia|done].
      - rewrite lookup_insert_ne by done. rewrite Hm', Hm, occurrences_step.
        rewrite decide_False by done. f_equal. lia. }
    rewrite Heq, mapSum_insert, (IH m' Hm'), Hm'.
    change (from_option (fun c : Z => c) 0 (recorded (occurrences x l)))
      with (default 0 (recorded (occurrences x l))).
    rewrite recorded_default. cbn [length]. lia.
Qed.

(** X26. On a file none of whose tags names a member of
    [Object.prototype] the counts the parser holds for the values of a
    category add up to the number of accepted values of the category
    in the file. *)
Theorem parser_counts_add_up_to_the_values strict d text tag :
  plainText text -> tag ∈ PRIZE_LIST ->
  exists agg, parseTextToAggregate strict freshRealm d text = (Normal agg, freshRealm) /\
    aggDrawings agg tag = Z.of_nat (length (acceptedValues tag text)).
Proof.
  intros Hplain Htag.
  destruct (parse_plain strict d text Hplain) as (agg & E & _ & Hc & _).
  exists agg. split; [exact E|].
  unfold aggDrawings. apply (counting_map_sum (acceptedValues tag text)).
  intros val. rewrite <- (Hc tag val Htag). unfold countOf.
  destruct (prizesAgg agg !! tag) as [m|] eqn:Hm; [done|]. cbn. apply lookup_empty.
Qed.

(** X26 on a file with three values under [TWO]. *)
Lemma parser_counts_add_up_to_the_values_witness :
  exists agg,
    parseTextToAggregate false freshRealm (js "2020-02-01") (threeTexts (js "2020-02-01"))
      = (Normal agg, freshRealm) /\
    aggDrawings agg (js "TWO") =
      Z.of_nat (length (acceptedValues (js "TWO") (threeTexts (js "2020-02-01")))).
Proof.
  apply (parser_counts_add_up_to_the_values false (js "2020-02-01")
           (threeTexts (js "2020-02-01")) (js "TWO")); by_computation.
Defined.

(** ** The candidates of the analyzer: no file twice *)

Lemma two_digits_inj a b :
  0 <= a <= 99 -> 0 <= b <= 99 ->
  (48 + Z.to_N (a / 10))%N = (48 + Z.to_N (b / 10))%N ->
  (48 + Z.to_N (a mod 10))%N = (48 + Z.to_N (b mod 10))%N -> a = b.
Proof. intros Ha Hb H1 H2. Z.div_mod_to_equations. lia. Qed.

Lemma four_digits_inj a b :
  1000 <= a <= 9999 -> 1000 <= b <= 9999 ->
  (48 + Z.to_N (a / 10 / 10 / 10 mod 10))%N = (48 + Z.to_N (b / 10 / 10 / 10 mod 10))%N ->
  (48 + Z.to_N (a / 10 / 10 mod 10))%N = (48 + Z.to_N (b / 10 / 10 mod 10))%N ->
  (48 + Z.to_N (a / 10 mod 10))%N = (48 + Z.to_N (b / 10 mod 10))%N ->
  (48 + Z.to_N (a mod 10))%N = (48 + Z.to_N (b mod 10))%N -> a = b.
Proof. intros Ha Hb H1 H2 H3 H4. Z.div_mod_to_equations. lia. Qed.

Lemma dateString_inj y m d y' m' d' :
  1000 <= y <= 9999 -> 1000 <= y' <= 9999 ->
  0 <= m <= 99 -> 0 <= m' <= 99 -> 0 <= d <= 99 -> 0 <= d' <= 99 ->
  dateString y m d = dateString y' m' d' -> y = y' /\ m = m' /\ d = d'.
Proof.
  intros Hy Hy' Hm Hm' Hd Hd'. unfold dateString.
  rewrite !numToString_year, !pad2_two by lia. cbn [app js].
  intros H. injection H. intros.
  split; [by apply four_digits_inj|]. split; by apply two_digits_inj.
Qed.

Lemma draw_day_range d : d ∈ DRAW_DAYS -> 1 <= d <= 31.
Proof.
  intros Hd. unfold DRAW_DAYS in Hd.
  repeat (apply elem_of_cons in Hd as [->|Hd]; [lia|]). by apply elem_of_nil in Hd.
Qed.

Lemma candidates_distinct now : getFullYear now <= 9999 -> NoDup (buildCandidateUrls now).
Proof.
  intros Hnow. unfold buildCandidateUrls.
  assert (forall y m d c,
            c ∈ (if (y =? 2006) && (m =? 12) && (d <? 30) then []
                 else [candidate (dateString y m d)]) ->
            c = candidate (dateString y m d)) as Hcell.
  { intros y m d c Hc. destruct (_ && _); [by apply elem_of_nil in Hc|].
    by apply list_elem_of_singleton in Hc. }
  assert (forall y m d y' m' d',
            y ∈ seqZ 2006 (getFullYear now - 2006 + 1) ->
            y' ∈ seqZ 2006 (getFullYear now - 2006 + 1) ->
            m ∈ seqZ 1 12 -> m' ∈ seqZ 1 12 -> d ∈ DRAW_DAYS -> d' ∈ DRAW_DAYS ->
            candidate (dateString y m d) = candidate (dateString y' m' d') ->
            y = y' /\ m = m' /\ d = d') as Hinj.
  { intros y m d y' m' d' Hy Hy' Hm Hm' Hd Hd' [= Heq _].
    apply elem_of_seqZ in Hy, Hy', Hm, Hm'. apply draw_day_range in Hd, Hd'.
    apply dateString_inj in Heq; [done|lia..]. }
  apply NoDup_bind; [| |apply NoDup_seqZ].
  - intros y y' c Hy Hy' Hc Hc'.
    apply list_elem_of_bind in Hc as (m & Hc & Hm).
    apply list_elem_of_bind in Hc as (d & Hc & Hd).
    apply list_elem_of_bind in Hc' as (m' & Hc' & Hm').
    apply list_elem_of_bind in Hc' as (d' & Hc' & Hd').
    apply Hcell in Hc, Hc'. rewrite Hc in Hc'.
    by destruct (Hinj _ _ _ _ _ _ Hy Hy' Hm Hm' Hd Hd' Hc') as (? & _).
  - intros y Hy. apply NoDup_bind; [| |apply NoDup_seqZ].
    + intros m m' c Hm Hm' Hc Hc'.
      apply list_elem_of_bind in Hc as (d & Hc & Hd).
      apply list_elem_of_bind in Hc' as (d' & Hc' & Hd').
      apply Hcell in Hc, Hc'. rewrite Hc in Hc'.
      by destruct (Hinj _ _ _ _ _ _ Hy Hy Hm Hm' Hd Hd' Hc') as (_ & ? & _).
    + intros m Hm. apply NoDup_bind.
      * intros d d' c Hd Hd' Hc Hc'. apply Hcell in Hc, Hc'. rewrite Hc in Hc'.
        by destruct (Hinj _ _ _ _ _ _ Hy Hy Hm Hm Hd Hd' Hc') as (_ & _ & ?).
      * intros d _. destruct (_ && _); [constructor|apply NoDup_singleton].
      * unfold DRAW_DAYS. apply (bool_decide_unpack _). vm_compute. exact I.
Qed.

Lemma candidate_keys_distinct now :
  getFullYear now <= 9999 -> NoDup (c_dateStr <$> buildCandidateUrls now).
Proof.
  intros Hnow. apply NoDup_fmap_2_strong; [|by apply candidates_distinct].
  intros c1 c2 H1 H2 Hkey.
  apply buildCandidateUrls_shape in H1, H2. rewrite H1, H2. by f_equal.
Qed.

(** The key of a candidate of the analyzer is a property like any
    other: no array index, and not [__proto__]. *)
Lemma candidate_keys_plain now c :
  getFullYear now <= 9999 -> c ∈ buildCandidateUrls now -> plainKey (c_dateStr c).
Proof.
  intros Hnow Hc. unfold buildCandidateUrls in Hc.
  apply list_elem_of_bind in Hc as (y & Hc & Hy).
  apply list_elem_of_bind in Hc as (m & Hc & Hm).
  apply list_elem_of_bind in Hc as (d & Hc & Hd).
  destruct (_ && _); [by apply elem_of_nil in Hc|].
  apply list_elem_of_singleton in Hc as ->.
  apply elem_of_seqZ in Hy, Hm. apply draw_day_range in Hd.
  cbn [c_dateStr candidate]. unfold dateString.
  rewrite numToString_year, !pad2_two by lia. cbn [app js].
  split; [|done]. unfold arrayIndex.
  match goal with |- context [forallb isDigit ?k] =>
    replace (forallb isDigit k) with false; [done|] end.
  symmetry. apply not_true_iff_false. rewrite forallb_forall. intros H.
  specialize (H 45%N). cbn in H. discriminate H. tauto.
Qed.

(** X27. Up to the year 9999 no two candidates of the analyzer's
    enumerator have the same url: a load asks for no file twice. *)
Theorem analyzer_lists_no_file_twice now :
  getFullYear now <= 9999 -> NoDup (batchRequests (buildCandidateUrls now)).
Proof.
  intros Hnow. unfold batchRequests.
  apply NoDup_fmap_2_strong; [|by apply candidates_distinct].
  intros c1 c2 H1 H2 Hurl.
  apply buildCandidateUrls_shape in H1, H2. rewrite H1, H2 in Hurl.
  apply candidate_url_inj in Hurl. rewrite H1, H2. by f_equal.
Qed.

(** X27 at noon of 2007-01-20. *)
Lemma analyzer_lists_no_file_twice_witness :
  NoDup (batchRequests (buildCandidateUrls (localTime 2007 1 20 43200000))).
Proof.
  apply (analyzer_lists_no_file_twice (localTime 2007 1 20 43200000)).
  vm_compute. discriminate.
Defined.

(** ** From the candidates to the parse phase *)

Section fetched_files.
Import BatchFetch.

Lemma NoDup_of_submseteq {A} (l k : list A) : l ⊆+ k -> NoDup k -> NoDup l.
Proof.
  intros Hsub Hk. apply submseteq_Permutation in Hsub as [k' Hk'].
  rewrite Hk' in Hk. by apply NoDup_app in Hk as [? _].
Qed.

Lemma dateOf_distinct urls served :
  NoDup (c_dateStr <$> urls) -> NoDup served ->
  (forall i, i ∈ served -> (i < length urls)%nat) ->
  NoDup (dateOf urls <$> served).
Proof.
  intros Hkeys Hnd Hlt. apply NoDup_fmap_2_strong; [|done].
  intros i j Hi Hj Heq. apply Hlt in Hi, Hj.
  destruct (lookup_lt_is_Some_2 urls i Hi) as [ci Hci].
  destruct (lookup_lt_is_Some_2 urls j Hj) as [cj Hcj].
  unfold dateOf in Heq. rewrite Hci, Hcj in Heq. cbn in Heq.
  eapply (NoDup_lookup _ _ _ _ Hkeys); rewrite list_lookup_fmap.
  - by rewrite Hci.
  - rewrite Hcj. cbn. by rewrite Heq.
Qed.

(** X28. From the candidates to the parse phase: whatever part of the
    analyzer's candidates the fetch loop is given, and however far
    its run has come, the files it has collected have date keys of
    the list given, no two the same, and each key is a property like
    any other, neither an array index nor [__proto__]. *)
Theorem fetched_files_have_distinct_date_keys now urls concurrency turns b :
  getFullYear now <= 9999 -> urls ⊆+ buildCandidateUrls now ->
  run urls turns (start urls concurrency) = Some b ->
  NoDup (f_dateStr <$> results b) /\
  Forall (fun f => plainKey (f_dateStr f) /\ f_dateStr f ∈ c_dateStr <$> urls) (results b).
Proof.
  intros Hnow Hsub Hrun.
  destruct (start_spec urls concurrency) as (Hc0 & _ & _).
  pose proof (run_consistent _ _ _ _ Hc0 Hrun)
    as (_ & _ & _ & _ & served & Hnd & Hlt & Hres).
  assert (forall i, i ∈ served -> (i < length urls)%nat) as Hserved.
  { intros i Hi. assert (i < idx b `min` length urls)%nat; [|lia].
    apply Hlt, elem_of_app. by left. }
  split.
  - rewrite Hres. apply dateOf_distinct; [|by apply NoDup_app in Hnd as [? _]|done].
    apply (NoDup_of_submseteq _ (c_dateStr <$> buildCandidateUrls now)).
    + by apply fmap_submseteq.
    + by apply candidate_keys_distinct.
  - apply Forall_forall. intros f Hf.
    assert (f_dateStr f ∈ dateOf urls <$> served) as Hkey
      by (rewrite <- Hres; by apply list_elem_of_fmap_2).
    apply list_elem_of_fmap in Hkey as (i & Hkey & Hi). apply Hserved in Hi.
    destruct (lookup_lt_is_Some_2 urls i Hi) as [c Hc].
    unfold dateOf in Hkey. rewrite Hc in Hkey. cbn in Hkey. rewrite Hkey.
    apply list_elem_of_lookup_2 in Hc. split.
    + apply (candidate_keys_plain now); [done|]. by eapply elem_of_submseteq.
    + by apply list_elem_of_fmap_2.
Qed.

(** X28 on two candidates of the year 2006, both read. *)
Lemma fetched_files_have_distinct_date_keys_witness :
  let urls := [candidate (js "2006-12-30"); candidate (js "2006-12-31")] in
  exists b,
    run urls [(0%nat, Responded true); (1%nat, Responded true);
              (1%nat, Text (js "header")); (0%nat, Text (js "header"))]
        (start urls 30) = Some b /\
    NoDup (f_dateStr <$> results b) /\
    Forall (fun f => plainKey (f_dateStr f) /\ f_dateStr f ∈ c_dateStr <$> urls) (results b).
Proof.
  cbv zeta. eexists. split; [vm_compute; reflexivity|].
  eapply (fetched_files_have_distinct_date_keys (localTime 2006 12 31 43200000)
            [candidate (js "2006-12-30"); candidate (js "2006-12-31")] 30
            [(0%nat, Responded true); (1%nat, Responded true);
             (1%nat, Text (js "header")); (0%nat, Text (js "header"))]).
  - vm_compute. discriminate.
  - apply NoDup_submseteq.
    + apply (bool_decide_unpack _). vm_compute. exact I.
    + intros c Hc. repeat (apply elem_of_cons in Hc as [->|Hc]);
        [apply (bool_decide_unpack _); vm_compute; exact I..|by apply elem_of_nil in Hc].
  - vm_compute. reflexivity.
Defined.
End fetched_files.
